(** * WordLadder: the pathfinding and scoring engine of [word_ladder_game.py]

    A shallow embedding of the class [WordLadderGame] and the proofs of the
    properties its specification states.

    Conventions of the embedding.
    - A Python [str] is a list of [ascii] characters; the model covers ASCII
      text, on which [str.lower] only moves [A-Z] to [a-z].
    - A Python [int] is a [Z]; [float('inf')], which the class stores in
      fields that otherwise hold an [int], is the constructor [PInf] of
      [pynum]; every other float (clock values and the scaled time bonus) is
      a binary64 primitive float.
    - A Python [set] is a [gset], a [dict] a [gmap].  The order in which a
      [for] loop walks a set is not fixed by the language: it is the
      parameter [set_iter] of the functions that loop over a set.
    - [heapq] is modelled by what it promises: [heappush] adds an item and
      [heappop] removes and returns the least item for the tuple order.
    - [time.time()] and the [random] module are inputs: the clock value
      [now] and a tape of natural numbers.
    - The attribute [self.graph] (a networkx graph rebuilt by [build_graph])
      is read by no other method: it is not a field of the record, and
      [build_graph] returns the graph it stores. *)

From Stdlib Require Import ZArith Ascii String List Lia Floats Permutation.
From stdpp Require Import gmap strings list sets fin_maps.

Local Open Scope Z_scope.
#[local] Set Warnings "-inexact-float".

(** ** Python values *)

Abbreviation word := (list ascii).

(** [string.ascii_lowercase] *)
Definition ascii_lowercase : list ascii :=
  list_ascii_of_string "abcdefghijklmnopqrstuvwxyz".

Definition ord (c : ascii) : Z := Z.of_N (N_of_ascii c).

(** [c.lower()] for one ASCII character. *)
Definition chr_lower (c : ascii) : ascii :=
  if (65 <=? ord c) && (ord c <=? 90)
  then ascii_of_N (N_of_ascii c + 32) else c.

(** [word.lower()] *)
Definition lower (w : word) : word := chr_lower <$> w.

(** A Word of the data model: a sequence of lowercase letters. *)
Definition is_word (w : word) : bool :=
  forallb (λ c, bool_decide (c ∈ ascii_lowercase)) w.

(** An [int], or [float('inf')]. *)
Inductive pynum := PInt (z : Z) | PInf.

Definition pynum_add (a b : pynum) : pynum :=
  match a, b with
  | PInt x, PInt y => PInt (x + y)
  | _, _ => PInf
  end.

Global Instance pynum_eq_dec : EqDecision pynum.
Proof. solve_decision. Defined.

Inductive difficulty_t := beginner | advanced | challenge.

Global Instance difficulty_eq_dec : EqDecision difficulty_t.
Proof. solve_decision. Defined.

(** ** The class attributes *)

Module Settings.
Record t := {
  word_length_range : nat * nat;
  banned_words : gset word;
  time_limit : pynum;
  hint_limit : Z;
  base_score : Z;
  optimal_path_bonus : Z;
  time_factor : Z;
  move_factor : Z;
  hint_factor : Z
}.
End Settings.

Definition DIFFICULTY_SETTINGS (d : difficulty_t) : Settings.t :=
  match d with
  | beginner =>
      {| Settings.word_length_range := (3%nat, 4%nat);
         Settings.banned_words := ∅;
         Settings.time_limit := PInf;
         Settings.hint_limit := 5;
         Settings.base_score := 1000;
         Settings.optimal_path_bonus := 300;
         Settings.time_factor := 2;
         Settings.move_factor := 25;
         Settings.hint_factor := 50 |}
  | advanced =>
      {| Settings.word_length_range := (5%nat, 6%nat);
         Settings.banned_words := ∅;
         Settings.time_limit := PInt 300;
         Settings.hint_limit := 3;
         Settings.base_score := 2000;
         Settings.optimal_path_bonus := 500;
         Settings.time_factor := 5;
         Settings.move_factor := 50;
         Settings.hint_factor := 150 |}
  | challenge =>
      {| Settings.word_length_range := (6%nat, 8%nat);
         Settings.banned_words := ∅;
         Settings.time_limit := PInt 180;
         Settings.hint_limit := 1;
         Settings.base_score := 3000;
         Settings.optimal_path_bonus := 1000;
         Settings.time_factor := 10;
         Settings.move_factor := 100;
         Settings.hint_factor := 300 |}
  end.

(** The instance attributes.  The four scoring factors are first assigned by
    [setup_difficulty]; before that they do not exist ([None]). *)
Record WordLadderGame := {
  word_set : gset word;
  current_word : word;
  target_word : word;
  path_history : list word;
  start_time : option float;
  score : Z;
  difficulty : difficulty_t;
  hints_remaining : pynum;
  time_limit : pynum;
  banned_words : gset word;
  base_score : Z;
  hints_used : Z;
  optimal_path_bonus : option Z;
  time_factor : option Z;
  move_factor : option Z;
  hint_factor : option Z
}.

(** [__init__], given the corpus it loaded. *)
Definition init (corpus : gset word) : WordLadderGame :=
  {| word_set := corpus;
     current_word := [];
     target_word := [];
     path_history := [];
     start_time := None;
     score := 0;
     difficulty := beginner;
     hints_remaining := PInf;
     time_limit := PInf;
     banned_words := ∅;
     base_score := 1000;
     hints_used := 0;
     optimal_path_bonus := None;
     time_factor := None;
     move_factor := None;
     hint_factor := None |}.

(** ** WordIndex and NeighborGenerator *)

Definition is_valid_word (self : WordLadderGame) (w : word) : bool :=
  let w := lower w in
  bool_decide (w ∈ word_set self) && bool_decide (w ∉ banned_words self).

(** [word[:i] + c + word[i+1:]] *)
Definition substitute (w : word) (i : nat) (c : ascii) : word :=
  take i w ++ c :: drop (S i) w.

Definition get_neighbors (self : WordLadderGame) (w : word) : gset word :=
  foldl (λ neighbors i,
    foldl (λ neighbors c,
      let new_word := substitute w i c in
      if bool_decide (new_word ≠ w) && is_valid_word self new_word
         && bool_decide (new_word ∉ banned_words self)
      then neighbors ∪ {[ new_word ]} else neighbors)
      neighbors ascii_lowercase)
    ∅ (seq 0 (length w)).

(** ** Heuristic *)

Definition heuristic (self : WordLadderGame) (current target : word) : pynum :=
  if bool_decide (length current ≠ length target) then PInf
  else PInt (foldl (λ acc c, acc + (ord (chr_lower c) - ord "a" + 1)) 0 current).

(** The position of a letter in the alphabet, A=1 ... Z=26, read off
    [ascii_lowercase]; 0 for a character that is not a letter. *)
Fixpoint index_of (c : ascii) (l : list ascii) : option nat :=
  match l with
  | [] => None
  | x :: l' => if Ascii.eqb x c then Some 0%nat else S <$> index_of c l'
  end.

Definition alphabet_position (c : ascii) : Z :=
  match index_of (chr_lower c) ascii_lowercase with
  | Some i => Z.of_nat i + 1
  | None => 0
  end.

Definition is_letter (c : ascii) : bool :=
  bool_decide (chr_lower c ∈ ascii_lowercase).

(** The sum of the alphabetic positions of the letters of a word. *)
Definition letter_sum (w : word) : Z :=
  foldr (λ c acc, alphabet_position c + acc) 0 w.

Definition str (s : string) : word := list_ascii_of_string s.

(** The corpus of the specification's end-to-end example. *)
Definition demo_corpus : gset word :=
  list_to_set (str <$> ["cat"; "cot"; "cog"; "dog"; "dot"; "cag"]%string).

Definition demo : WordLadderGame := init demo_corpus.

(** ** The order of heap items

    [heapq] compares items with [<].  On tuples Python's order is
    lexicographic, on [str] and [list] it is lexicographic by element, on
    numbers it is the numeric order, with every [int] below [float('inf')]. *)

Class Cmp (A : Type) := cmp : A → A → comparison.
Global Hint Mode Cmp ! : typeclass_instances.

Global Instance Z_cmp : Cmp Z := Z.compare.
Global Instance ascii_cmp : Cmp ascii := Ascii.compare.

Fixpoint list_cmp {A} `{Cmp A} (l1 l2 : list A) : comparison :=
  match l1, l2 with
  | [], [] => Eq
  | [], _ :: _ => Lt
  | _ :: _, [] => Gt
  | x :: l1', y :: l2' =>
      match cmp x y with
      | Eq => list_cmp l1' l2'
      | c => c
      end
  end.
Global Instance list_Cmp {A} `{Cmp A} : Cmp (list A) := list_cmp.

Global Instance prod_cmp {A B} `{Cmp A, Cmp B} : Cmp (A * B) := λ x y,
  match cmp x.1 y.1 with
  | Eq => cmp x.2 y.2
  | c => c
  end.

Global Instance pynum_cmp : Cmp pynum := λ a b,
  match a, b with
  | PInt x, PInt y => Z.compare x y
  | PInt _, PInf => Lt
  | PInf, PInt _ => Gt
  | PInf, PInf => Eq
  end.

(** The order is total: items that compare equal are the same value. *)
Class CmpOrder (A : Type) `{Cmp A} := {
  cmp_eq (x y : A) : cmp x y = Eq ↔ x = y;
  cmp_antisym (x y : A) : cmp y x = CompOpp (cmp x y);
  cmp_trans (x y z : A) : cmp x y = Lt → cmp y z = Lt → cmp x z = Lt
}.
Global Hint Mode CmpOrder ! - : typeclass_instances.

(** ** heapq *)

Section heapq.
Context {A : Type} `{Cmp A, EqDecision A}.

Definition heappush (heap : list A) (item : A) : list A := heap ++ [item].

(** The least of [x] and the items of [l]. *)
Fixpoint least (x : A) (l : list A) : A :=
  match l with
  | [] => x
  | y :: l' => least (match cmp y x with Lt => y | _ => x end) l'
  end.

Fixpoint remove_first (x : A) (l : list A) : list A :=
  match l with
  | [] => []
  | y :: l' => if decide (x = y) then l' else y :: remove_first x l'
  end.

Definition heappop (heap : list A) : option (A * list A) :=
  match heap with
  | [] => None
  | x :: l => let m := least x l in Some (m, remove_first m heap)
  end.
End heapq.

(** ** SearchEngine

    The [while frontier:] loops run on fuel; [None] is "out of fuel",
    [Some r] is the value the Python function returns.  [search_fuel]
    is the fuel the three entry points give their loop, and it is always
    enough: a search from [start] meets at most
    [size (word_set self) * 2 ^ length start] strings (a word of the corpus,
    with at each position its own letter or the one of [start]). *)

Definition search_fuel (self : WordLadderGame) (start : word) : nat :=
  let n := (size (word_set self) * 2 ^ length start)%nat in
  (2 * n * n + 2)%nat.

(** [neighbor not in visited or new_cost < visited[neighbor]] *)
Definition unseen_or_cheaper (visited : gmap word Z) (neighbor : word)
    (new_cost : Z) : bool :=
  match visited !! neighbor with
  | None => true
  | Some c => new_cost <? c
  end.

Section search.
Variable set_iter : gset word → list word.
Variable self : WordLadderGame.

(** *** a_star_search: items [(priority, cost, word, path)] *)

Definition a_star_expand (target : word) (cost : Z) (path : list word)
    (st : list (pynum * Z * word * list word) * gmap word Z)
    (neighbors : list word) :=
  foldl (λ '(frontier, visited) neighbor,
    let new_cost := cost + 1 in
    if unseen_or_cheaper visited neighbor new_cost then
      let visited := <[neighbor := new_cost]> visited in
      let priority := pynum_add (PInt new_cost) (heuristic self neighbor target) in
      (heappush frontier (priority, new_cost, neighbor, path ++ [neighbor]),
       visited)
    else (frontier, visited)) st neighbors.

Fixpoint a_star_loop (fuel : nat) (target : word)
    (frontier : list (pynum * Z * word * list word))
    (visited : gmap word Z) : option (option (list word)) :=
  match fuel with
  | O => None
  | S fuel =>
      match heappop frontier with
      | None => Some None
      | Some ((_, cost, current, path), frontier) =>
          if bool_decide (current = target) then Some (Some path)
          else
            let '(frontier, visited) :=
              a_star_expand target cost path (frontier, visited)
                (set_iter (get_neighbors self current)) in
            a_star_loop fuel target frontier visited
      end
  end.

Definition a_star_search (start target : word) : option (option (list word)) :=
  if negb (is_valid_word self start && is_valid_word self target)
  then Some None
  else a_star_loop (search_fuel self start) target
         [(heuristic self start target, 0, start, [start])] {[ start := 0 ]}.

(** *** greedy_best_first_search: items [(priority, word, path)] *)

Definition greedy_expand (target : word) (path : list word)
    (st : list (pynum * word * list word) * gset word)
    (neighbors : list word) :=
  foldl (λ '(frontier, visited) neighbor,
    if bool_decide (neighbor ∉ visited) then
      let visited := visited ∪ {[ neighbor ]} in
      let priority := heuristic self neighbor target in
      (heappush frontier (priority, neighbor, path ++ [neighbor]), visited)
    else (frontier, visited)) st neighbors.

Fixpoint greedy_loop (fuel : nat) (target : word)
    (frontier : list (pynum * word * list word))
    (visited : gset word) : option (option (list word)) :=
  match fuel with
  | O => None
  | S fuel =>
      match heappop frontier with
      | None => Some None
      | Some ((_, current, path), frontier) =>
          if bool_decide (current = target) then Some (Some path)
          else
            let '(frontier, visited) :=
              greedy_expand target path (frontier, visited)
                (set_iter (get_neighbors self current)) in
            greedy_loop fuel target frontier visited
      end
  end.

Definition greedy_best_first_search (start target : word)
    : option (option (list word)) :=
  if negb (is_valid_word self start && is_valid_word self target)
  then Some None
  else greedy_loop (search_fuel self start) target
         [(heuristic self start target, start, [start])] {[ start ]}.

(** *** uniform_cost_search: items [(cost, word, path)] *)

Definition ucs_expand (cost : Z) (path : list word)
    (st : list (Z * word * list word) * gmap word Z)
    (neighbors : list word) :=
  foldl (λ '(frontier, visited) neighbor,
    let new_cost := cost + 1 in
    if unseen_or_cheaper visited neighbor new_cost then
      let visited := <[neighbor := new_cost]> visited in
      (heappush frontier (new_cost, neighbor, path ++ [neighbor]), visited)
    else (frontier, visited)) st neighbors.

Fixpoint ucs_loop (fuel : nat) (target : word)
    (frontier : list (Z * word * list word))
    (visited : gmap word Z) : option (option (list word)) :=
  match fuel with
  | O => None
  | S fuel =>
      match heappop frontier with
      | None => Some None
      | Some ((cost, current, path), frontier) =>
          if bool_decide (current = target) then Some (Some path)
          else
            let '(frontier, visited) :=
              ucs_expand cost path (frontier, visited)
                (set_iter (get_neighbors self current)) in
            ucs_loop fuel target frontier visited
      end
  end.

Definition uniform_cost_search (start target : word)
    : option (option (list word)) :=
  if negb (is_valid_word self start && is_valid_word self target)
  then Some None
  else ucs_loop (search_fuel self start) target [(0, start, [start])]
         {[ start := 0 ]}.

End search.

(** ** Ladders: the paths of the one-letter-substitution graph *)

(** Consecutive words of [p] are neighbors. *)
Fixpoint chain (self : WordLadderGame) (p : list word) : Prop :=
  match p with
  | [] => True
  | a :: p' =>
      match p' with
      | [] => True
      | b :: _ => b ∈ get_neighbors self a ∧ chain self p'
      end
  end.

(** [p] is a path from [a] to [b]. *)
Definition ladder (self : WordLadderGame) (a b : word) (p : list word) : Prop :=
  head p = Some a ∧ last p = Some b ∧ chain self p.

(** The number of edges of a path, [len(path) - 1]. *)
Definition edges (p : list word) : Z := Z.of_nat (length p) - 1.

(** ** What one expansion does, in closed form *)

(** The neighbors that an expansion at [new_cost] pushes. *)
Definition improved (visited : gmap word Z) (new_cost : Z) (ns : list word)
    : list word :=
  filter (λ n, unseen_or_cheaper visited n new_cost = true) ns.

(** [visited[n] = new_cost] for every [n] of [ns]. *)
Definition record_costs (visited : gmap word Z) (new_cost : Z) (ns : list word)
    : gmap word Z :=
  foldl (λ v n, <[n := new_cost]> v) visited ns.

(** ** The invariant of the cost-ordered searches

    [a_star_search] and [uniform_cost_search] keep the same bookkeeping: a
    frontier of items carrying a cost, a word and a path, and the [visited]
    dictionary of the best cost pushed so far for each word.  The invariant
    is stated on the [(cost, word, path)] part of the items. *)

(** The strings that agree, position by position, with [s] or with [w]. *)
Fixpoint variants (s w : word) : list word :=
  match s, w with
  | cs :: s', cw :: w' =>
      let vs := variants s' w' in ((cw ::.) <$> vs) ++ ((cs ::.) <$> vs)
  | _, _ => [[]]
  end.

(** Every string a search from [start] can meet: a word of the corpus in
    which some letters are those of [start] at the same position. *)
Definition universe (self : WordLadderGame) (start : word) : gset word :=
  list_to_set (elements (word_set self) ≫= variants start).

(** [n] has, at each position, the letter of [start] or a letter that
    [lower] leaves alone. *)
Definition node_ok (start n : word) : Prop :=
  Forall2 (λ cn cs, cn = cs ∨ chr_lower cn = cn) n start.

Definition item_ok (self : WordLadderGame) (start : word)
    (visited : gmap word Z) (e : Z * word * list word) : Prop :=
  let '(c, w, p) := e in
  ladder self start w p ∧ edges p = c ∧ NoDup p
  ∧ ∀ (i : nat) (x : word), p !! i = Some x →
      ∃ cx, visited !! x = Some cx ∧ cx ≤ Z.of_nat i.

(** [w], visited at cost [c], has been expanded: every neighbor is visited
    at a cost of at most [c + 1]. *)
Definition settled (self : WordLadderGame) (target : word)
    (visited : gmap word Z) (w : word) (c : Z) : Prop :=
  w ≠ target
  ∧ ∀ n, n ∈ get_neighbors self w → ∃ cn, visited !! n = Some cn ∧ cn ≤ c + 1.

Record search_inv (self : WordLadderGame) (start target : word)
    (frontier : list (Z * word * list word)) (visited : gmap word Z) : Prop := {
  inv_start : visited !! start = Some 0;
  inv_items : ∀ e, e ∈ frontier → item_ok self start visited e;
  inv_visited : ∀ w c, visited !! w = Some c →
    0 ≤ c < Z.of_nat (size (universe self start)) ∧ w ∈ universe self start
    ∧ node_ok start w
    ∧ (settled self target visited w c ∨ ∃ p, (c, w, p) ∈ frontier)
}.

(** The termination measure: every push lowers the [visited] cost of a
    string of the universe (an unvisited one counting for the size of the
    universe). *)
Definition slack (self : WordLadderGame) (start : word)
    (visited : gmap word Z) (w : word) : nat :=
  match visited !! w with
  | Some c => Z.to_nat c
  | None => size (universe self start)
  end.

Definition potential (self : WordLadderGame) (start : word)
    (visited : gmap word Z) : nat :=
  sum_list_with (slack self start visited) (elements (universe self start)).

(** The [(cost, word, path)] part of an item of [a_star_search]. *)
Definition item_core (e : pynum * Z * word * list word) : Z * word * list word :=
  let '(_, c, w, p) := e in (c, w, p).

(** The shortest-path distance of the graph: some path has [d] edges and
    none has fewer. *)
Definition shortest_distance (self : WordLadderGame) (a b : word) (d : Z) : Prop :=
  (∃ q, ladder self a b q ∧ edges q = d)
  ∧ ∀ q, ladder self a b q → d ≤ edges q.

(** ** The search of section 4.4, for comparison

    The specification's table gives uniform-cost search the priority key
    [(path_cost_so_far, sequence)], the sequence number counting the pushes.
    This is that design, written next to [uniform_cost_search], which keys
    its items by [(cost, word, path)]. *)

Section sequence_keyed.
Variable set_iter : gset word → list word.
Variable self : WordLadderGame.

Definition seq_ucs_expand (cost : Z) (path : list word)
    (st : list (Z * Z * word * list word) * gmap word Z * Z)
    (neighbors : list word) :=
  foldl (λ '(frontier, visited, seq) neighbor,
    let new_cost := cost + 1 in
    if unseen_or_cheaper visited neighbor new_cost then
      (heappush frontier (new_cost, seq, neighbor, path ++ [neighbor]),
       <[neighbor := new_cost]> visited, seq + 1)
    else (frontier, visited, seq)) st neighbors.

Fixpoint seq_ucs_loop (fuel : nat) (target : word)
    (frontier : list (Z * Z * word * list word))
    (visited : gmap word Z) (seq : Z) : option (option (list word)) :=
  match fuel with
  | O => None
  | S fuel =>
      match heappop frontier with
      | None => Some None
      | Some ((cost, _, current, path), frontier) =>
          if bool_decide (current = target) then Some (Some path)
          else
            let '(frontier, visited, seq) :=
              seq_ucs_expand cost path (frontier, visited, seq)
                (set_iter (get_neighbors self current)) in
            seq_ucs_loop fuel target frontier visited seq
      end
  end.

Definition seq_uniform_cost_search (start target : word)
    : option (option (list word)) :=
  if negb (is_valid_word self start && is_valid_word self target)
  then Some None
  else seq_ucs_loop (search_fuel self start) target [(0, 0, start, [start])]
         {[ start := 0 ]} 1.
End sequence_keyed.

(** A corpus with two shortest paths from "cat" to "cob". *)
Definition fork_corpus : gset word :=
  list_to_set (str <$> ["cat"; "cot"; "cab"; "cob"]%string).

Definition fork : WordLadderGame := init fork_corpus.

(** ** Exceptions, floats, clock and randomness *)

Inductive pyexn :=
  TypeError | IndexError | ZeroDivisionError | OverflowError | ValueError.

(** What a method call does: it returns a value or raises (the state it
    leaves behind is kept).  [OutOfFuel] is the model's own third outcome,
    for a search loop that exhausts its fuel; [a_star_search_returns] shows
    that it never occurs. *)
Inductive result (A : Type) :=
  | Ok (a : A)
  | Raise (e : pyexn) (self : WordLadderGame)
  | OutOfFuel.
Arguments Ok {A} a.
Arguments Raise {A} e self.
Arguments OutOfFuel {A}.

(** The float nearest to the [int] [z], ties going to the even mantissa:
    exact below 2^53 in absolute value, and an infinity when [z] is beyond
    the range of the floats. *)
Definition Z_to_float (z : Z) : float :=
  SF2Prim (binary_normalize prec emax z 0 false).

(** The conversion of an [int] operand in arithmetic with a [float]:
    [OverflowError] ("int too large to convert to float") beyond the range
    of the floats. *)
Definition int_to_float (z : Z) : pyexn + float :=
  let x := Z_to_float z in
  match Prim2SF x with
  | S754_infinity _ => inl OverflowError
  | _ => inr x
  end.

(** [int(x)]: truncation toward zero; [OverflowError] on an infinity and
    [ValueError] on a NaN. *)
Definition py_int (x : float) : pyexn + Z :=
  match Prim2SF x with
  | S754_zero _ => inr 0
  | S754_infinity _ => inl OverflowError
  | S754_nan => inl ValueError
  | S754_finite s m e =>
      let mag := if 0 <=? e then Z.pos m * 2 ^ e else Z.pos m / 2 ^ (- e) in
      inr (if s then - mag else mag)
  end.

(** The [random] module draws from a tape; an exhausted tape yields 0. *)
Definition rng := list nat.

Definition draw (r : rng) : nat * rng :=
  match r with
  | [] => (0%nat, [])
  | x :: r' => (x, r')
  end.

(** [random.randint(a, b)] *)
Definition randint (a b : nat) (r : rng) : nat * rng :=
  let '(x, r) := draw r in ((a + x mod (b - a + 1))%nat, r).

(** [random.choice(seq)]; [None] stands for the [IndexError] on an empty
    sequence. *)
Definition choice {A} (l : list A) (r : rng) : option A * rng :=
  let '(x, r) := draw r in (l !! (x mod length l)%nat, r).

(** [random.sample(population, k)]: [k] items at distinct positions. *)
Fixpoint sample {A} (l : list A) (k : nat) (r : rng) : list A * rng :=
  match k with
  | O => ([], r)
  | S k =>
      let '(x, r) := draw r in
      let i := (x mod length l)%nat in
      match l !! i with
      | None => ([], r)
      | Some a => let '(rest, r) := sample (delete i l) k r in (a :: rest, r)
      end
  end.

(** ** GameSession *)

Section session.
Variable set_iter : gset word → list word.

Definition setup_difficulty (self : WordLadderGame) (d : difficulty_t)
    (r : rng) : WordLadderGame * rng :=
  let settings := DIFFICULTY_SETTINGS d in
  let '(banned, r) :=
    if bool_decide (d = challenge) then
      let '(lo, hi) := Settings.word_length_range settings in
      let '(word_length, r) := randint lo hi r in
      let potential_words :=
        filter (λ w, length w = word_length) (set_iter (word_set self)) in
      let '(chosen, r) :=
        sample potential_words (10 `min` length potential_words)%nat r in
      (list_to_set chosen, r)
    else (Settings.banned_words settings, r) in
  ({| word_set := word_set self;
      current_word := current_word self;
      target_word := target_word self;
      path_history := path_history self;
      start_time := start_time self;
      score := score self;
      difficulty := d;
      hints_remaining := PInt (Settings.hint_limit settings);
      time_limit := Settings.time_limit settings;
      banned_words := banned;
      base_score := Settings.base_score settings;
      hints_used := hints_used self;
      optimal_path_bonus := Some (Settings.optimal_path_bonus settings);
      time_factor := Some (Settings.time_factor settings);
      move_factor := Some (Settings.move_factor settings);
      hint_factor := Some (Settings.hint_factor settings) |}, r).

(** The range check of [start_game]: [True] when the pair is rejected. *)
Definition out_of_range (d : difficulty_t) (path_length : Z) : bool :=
  bool_decide (d = beginner) && (4 <? path_length)
  || bool_decide (d = advanced) && ((path_length <? 4) || (7 <? path_length))
  || bool_decide (d = challenge) && (path_length <? 7).

Definition start_game (self : WordLadderGame) (start_word target_word : word)
    (d : difficulty_t) (now : float) (r : rng)
    : result (bool * WordLadderGame * rng) :=
  let start_word := lower start_word in
  let target_word := lower target_word in
  let '(self, r) := setup_difficulty self d r in
  if bool_decide (length start_word ≠ length target_word) then Ok (false, self, r)
  else if negb (is_valid_word self start_word && is_valid_word self target_word)
  then Ok (false, self, r)
  else
    match a_star_search set_iter self start_word target_word with
    | None => OutOfFuel
    | Some None => Ok (false, self, r)
    | Some (Some []) => Ok (false, self, r)
    | Some (Some path) =>
        let path_length := edges path in
        if out_of_range d path_length then Ok (false, self, r)
        else
          Ok (true,
              {| word_set := word_set self;
                 current_word := start_word;
                 target_word := target_word;
                 path_history := [start_word];
                 start_time := Some now;
                 score := 0;
                 difficulty := difficulty self;
                 hints_remaining := hints_remaining self;
                 time_limit := time_limit self;
                 banned_words := banned_words self;
                 base_score := base_score self;
                 hints_used := 0;
                 optimal_path_bonus := optimal_path_bonus self;
                 time_factor := time_factor self;
                 move_factor := move_factor self;
                 hint_factor := hint_factor self |}, r)
    end.

(** *** ScoringEngine *)

(** The path bonus: [score] after the "optimal or near-optimal" step. *)
Definition add_path_bonus (score optimal_path_bonus extra_moves : Z)
    : pyexn + Z :=
  if extra_moves =? 0 then inr (score + optimal_path_bonus)
  else if extra_moves <=? 2 then
    match py_int (Z_to_float optimal_path_bonus
                  * (Z_to_float 1 - Z_to_float extra_moves / Z_to_float 5))%float with
    | inl e => inl e
    | inr b => inr (score + b)
    end
  else inr score.

(** The time component. *)
Definition add_time_component (score base_score time_factor : Z)
    (time_limit : pynum) (time_taken : float) : pyexn + Z :=
  match time_limit with
  | PInt limit =>
      match int_to_float limit with
      | inl e => inl e
      | inr limit_float =>
          if limit =? 0 then inl ZeroDivisionError
          else
            let time_percentage := (time_taken / limit_float)%float in
            if (time_percentage <? 0.5)%float then
              match py_int ((0.5 - time_percentage) * Z_to_float base_score * 0.5)%float with
              | inl e => inl e
              | inr time_bonus => inr (score + time_bonus)
              end
            else if (0.8 <? time_percentage)%float then
              match py_int ((time_percentage - 0.8) * Z_to_float base_score * 0.5)%float with
              | inl e => inl e
              | inr time_penalty => inr (score - time_penalty)
              end
            else inr score
      end
  | PInf =>
      match py_int (time_taken * Z_to_float time_factor)%float with
      | inl e => inl e
      | inr a =>
          match py_int (Z_to_float base_score * 0.3)%float with
          | inl e => inl e
          | inr b => inr (score - a `min` b)
          end
      end
  end.

(** [for i in range(1, hints_used + 1): hint_penalty += hint_factor * i] *)
Definition hint_penalty (hint_factor hints_used : Z) : Z :=
  foldl (λ hint_penalty i, hint_penalty + hint_factor * Z.of_nat i) 0
    (seq 1 (Z.to_nat hints_used)).

Definition set_score (self : WordLadderGame) (v : Z) : WordLadderGame :=
  {| word_set := word_set self;
     current_word := current_word self;
     target_word := target_word self;
     path_history := path_history self;
     start_time := start_time self;
     score := v;
     difficulty := difficulty self;
     hints_remaining := hints_remaining self;
     time_limit := time_limit self;
     banned_words := banned_words self;
     base_score := base_score self;
     hints_used := hints_used self;
     optimal_path_bonus := optimal_path_bonus self;
     time_factor := time_factor self;
     move_factor := move_factor self;
     hint_factor := hint_factor self |}.

Definition calculate_score (self : WordLadderGame) (now : float)
    : result (Z * WordLadderGame) :=
  match start_time self with
  | None => Raise TypeError self
  | Some t0 =>
      let time_taken := (now - t0)%float in
      match path_history self with
      | [] => Raise IndexError self
      | first :: _ =>
          match a_star_search set_iter self first (target_word self) with
          | None => OutOfFuel
          | Some None => Raise TypeError self
          | Some (Some optimal_path) =>
              let optimal_path_length := edges optimal_path in
              let user_path_length := edges (path_history self) in
              let settings := DIFFICULTY_SETTINGS (difficulty self) in
              let base_score := Settings.base_score settings in
              let optimal_path_bonus := Settings.optimal_path_bonus settings in
              let time_factor := Settings.time_factor settings in
              let move_factor := Settings.move_factor settings in
              let hint_factor := Settings.hint_factor settings in
              let score := base_score in
              let extra_moves := 0 `max` (user_path_length - optimal_path_length) in
              match add_path_bonus score optimal_path_bonus extra_moves with
              | inl e => Raise e self
              | inr score =>
                  match add_time_component score base_score time_factor
                          (time_limit self) time_taken with
                  | inl e => Raise e self
                  | inr score =>
                      let score :=
                        if 0 <? extra_moves then score - extra_moves * move_factor
                        else score in
                      let score :=
                        if 0 <? hints_used self
                        then score - hint_penalty hint_factor (hints_used self)
                        else score in
                      let v := 0 `max` score in
                      Ok (v, set_score self v)
                  end
              end
          end
      end
  end.

(** [sum(1 for a, b in zip(new_word, current) if a != b)] *)
Definition letters_changed (a b : word) : nat :=
  length (filter (λ ab, ab.1 ≠ ab.2) (zip a b)).

Definition make_move (self : WordLadderGame) (new_word : word) (now : float)
    : result (bool * WordLadderGame) :=
  let new_word := lower new_word in
  if negb (is_valid_word self new_word) then Ok (false, self)
  else if bool_decide (length new_word ≠ length (current_word self))
  then Ok (false, self)
  else if bool_decide (letters_changed new_word (current_word self) ≠ 1%nat)
  then Ok (false, self)
  else
    let self :=
      {| word_set := word_set self;
         current_word := new_word;
         target_word := target_word self;
         path_history := path_history self ++ [new_word];
         start_time := start_time self;
         score := score self;
         difficulty := difficulty self;
         hints_remaining := hints_remaining self;
         time_limit := time_limit self;
         banned_words := banned_words self;
         base_score := base_score self;
         hints_used := hints_used self;
         optimal_path_bonus := optimal_path_bonus self;
         time_factor := time_factor self;
         move_factor := move_factor self;
         hint_factor := hint_factor self |} in
    if bool_decide (new_word = target_word self) then
      match calculate_score self now with
      | Ok (_, self) => Ok (true, self)
      | Raise e self => Raise e self
      | OutOfFuel => OutOfFuel
      end
    else Ok (true, self).

End session.

(** ** Session states reached by play *)

(** The states reached by a successful [start_game] followed by successful
    [make_move] calls; [start] is the start word of the session. *)
Inductive reachable (set_iter : gset word → list word) (start : word)
    : WordLadderGame → Prop :=
  | reach_start self0 start_word target_word d now r self r' :
      start_game set_iter self0 start_word target_word d now r
        = Ok (true, self, r') →
      start = lower start_word →
      reachable set_iter start self
  | reach_move self new_word now self' :
      reachable set_iter start self →
      make_move set_iter self new_word now = Ok (true, self') →
      reachable set_iter start self'.

(** Every pair of consecutive words of [p] has equal length and differs in
    exactly one letter position. *)
Definition one_letter_steps (p : list word) : Prop :=
  ∀ (i : nat) (a b : word), p !! i = Some a → p !! S i = Some b →
    length a = length b ∧ letters_changed a b = 1%nat.

(** The path-history invariant of a session whose start word is [start]. *)
Definition session_ok (self : WordLadderGame) (start : word) : Prop :=
  path_history self ≠ []
  ∧ head (path_history self) = Some start
  ∧ last (path_history self) = Some (current_word self)
  ∧ (∀ w, w ∈ path_history self → w ∈ word_set self ∧ w ∉ banned_words self)
  ∧ one_letter_steps (path_history self).


(** The time component of the score can be computed: no [int()] of an
    infinite or NaN float, no division by a zero time limit, no time limit
    too large for a float. *)
Definition time_component_defined (self : WordLadderGame) (time_taken : float)
    : Prop :=
  let settings := DIFFICULTY_SETTINGS (difficulty self) in
  ∃ z, add_time_component 0 (Settings.base_score settings)
         (Settings.time_factor settings) (time_limit self) time_taken = inr z.

(** ** PairSuggester *)

(** The acceptance test of [suggest_word_pair]. *)
Definition in_range (d : difficulty_t) (path_length : Z) : bool :=
  bool_decide (d = beginner) && ((2 <=? path_length) && (path_length <=? 4))
  || bool_decide (d = advanced) && ((4 <=? path_length) && (path_length <=? 7))
  || bool_decide (d = challenge) && (7 <=? path_length).

(** "Set word length based on difficulty" *)
Definition draw_word_length (d : difficulty_t) (r : rng) : nat * rng :=
  match d with
  | beginner => randint 3 4 r
  | advanced => randint 5 6 r
  | challenge => randint 6 8 r
  end.

(** The [target_distance] of one attempt. *)
Definition draw_target_distance (d : difficulty_t) (r : rng) : nat * rng :=
  match d with
  | beginner => randint 2 4 r
  | advanced => randint 4 7 r
  | challenge => randint 7 10 r
  end.

Section suggester.
Variable set_iter : gset word → list word.
Variable self : WordLadderGame.

(** One pass of the loop "BFS to find words at target distance": the next
    level, and the visited set extended by it. *)
Definition expand_level (word_length : nat) (current_level visited : gset word)
    : gset word * gset word :=
  foldl (λ '(next_level, visited) w,
    foldl (λ '(next_level, visited) neighbor,
      if bool_decide (neighbor ∉ visited)
         && bool_decide (length neighbor = word_length)
      then (next_level ∪ {[ neighbor ]}, visited ∪ {[ neighbor ]})
      else (next_level, visited))
      (next_level, visited) (set_iter (get_neighbors self w)))
    (∅, visited) (set_iter current_level).

(** [for _ in range(target_distance): ...], leaving on an empty level. *)
Fixpoint levels (word_length : nat) (target_distance : nat)
    (current_level visited : gset word) : gset word :=
  match target_distance with
  | O => current_level
  | S n =>
      let '(next_level, visited) := expand_level word_length current_level visited in
      if bool_decide (next_level = ∅) then next_level
      else levels word_length n next_level visited
  end.

(** One attempt: the body of [for _ in range(max_attempts)]. *)
Definition suggest_attempt (d : difficulty_t) (word_length : nat)
    (valid_words : list word) (r : rng) : result (option (word * word) * rng) :=
  let '(start_word, r) := choice valid_words r in
  match start_word with
  | None => Raise IndexError self
  | Some start_word =>
      let '(target_distance, r) := draw_target_distance d r in
      let current_level :=
        levels word_length target_distance {[ start_word ]} {[ start_word ]} in
      if bool_decide (current_level = ∅) then Ok (None, r)
      else
        let potential_targets :=
          filter (λ w, w ≠ start_word) (set_iter current_level) in
        match potential_targets with
        | [] => Ok (None, r)
        | _ =>
            let '(target_word, r) := choice potential_targets r in
            match target_word with
            | None => Raise IndexError self
            | Some target_word =>
                match a_star_search set_iter self start_word target_word with
                | None => OutOfFuel
                | Some None => Ok (None, r)
                | Some (Some []) => Ok (None, r)
                | Some (Some path) =>
                    let path_length := edges path in
                    if in_range d path_length
                    then Ok (Some (start_word, target_word), r)
                    else Ok (None, r)
                end
            end
        end
  end.

Fixpoint suggest_attempts (max_attempts : nat) (d : difficulty_t)
    (word_length : nat) (valid_words : list word) (r : rng)
    : result (option (word * word) * rng) :=
  match max_attempts with
  | O => Ok (None, r)
  | S n =>
      match suggest_attempt d word_length valid_words r with
      | Ok (None, r) => suggest_attempts n d word_length valid_words r
      | other => other
      end
  end.

(** [[word for word in self.word_set if len(word) == word_length and word
    not in self.banned_words and all(c in ascii_lowercase for c in word)]] *)
Definition words_of_length (word_length : nat) : list word :=
  filter (λ w, length w = word_length ∧ (w ∉ banned_words self)
               ∧ is_word w = true)
    (set_iter (word_set self)).

(** [(None, None)] is [None]. *)
Definition suggest_word_pair (d : difficulty_t) (r : rng)
    : result (option (word * word) * rng) :=
  let '(word_length, r) := draw_word_length d r in
  let valid_words := words_of_length word_length in
  if bool_decide (length valid_words < 2)%nat then Ok (None, r)
  else suggest_attempts 50 d word_length valid_words r.

(** [n] attempts in a row fail, taking the tape from [r] to [r']. *)
Inductive attempts_fail (d : difficulty_t) (word_length : nat)
    (valid_words : list word) : nat → rng → rng → Prop :=
  | attempts_fail_O r : attempts_fail d word_length valid_words 0 r r
  | attempts_fail_S n r r1 r2 :
      suggest_attempt d word_length valid_words r = Ok (None, r1) →
      attempts_fail d word_length valid_words n r1 r2 →
      attempts_fail d word_length valid_words (S n) r r2.

End suggester.

(** ** Example sessions *)

(** The session that [start_game("cat", "dog", "beginner")] opens on the
    example corpus. *)
Definition demo_session : WordLadderGame :=
  {| word_set := demo_corpus;
     current_word := str "cat";
     target_word := str "dog";
     path_history := [str "cat"];
     start_time := Some 0%float;
     score := 0;
     difficulty := beginner;
     hints_remaining := PInt 5;
     time_limit := PInf;
     banned_words := ∅;
     base_score := 1000;
     hints_used := 0;
     optimal_path_bonus := Some 300;
     time_factor := Some 2;
     move_factor := Some 25;
     hint_factor := Some 50 |}.

(** The same session once the player has gone cat, cot, cog, dog. *)
Definition demo_won : WordLadderGame :=
  {| word_set := demo_corpus;
     current_word := str "dog";
     target_word := str "dog";
     path_history := str <$> ["cat"; "cot"; "cog"; "dog"]%string;
     start_time := Some 0%float;
     score := 0;
     difficulty := beginner;
     hints_remaining := PInt 5;
     time_limit := PInf;
     banned_words := ∅;
     base_score := 1000;
     hints_used := 0;
     optimal_path_bonus := Some 300;
     time_factor := Some 2;
     move_factor := Some 25;
     hint_factor := Some 50 |}.

(** A corpus with six-letter words, for challenge mode. *)
Definition long_corpus : gset word :=
  list_to_set (str <$> ["planet"; "planes"; "cat"]%string).

(** ** The remaining methods of the class *)

(** A number that is an [int] or a [float]: what [get_time_remaining]
    returns. *)
Inductive pyval := VInt (z : Z) | VFloat (x : float).

(** [v <= 0] *)
Definition pyval_nonpos (v : pyval) : bool :=
  match v with
  | VInt z => z <=? 0
  | VFloat x => (x <=? 0)%float
  end.

(** The float that an [int] or [float('inf')] becomes in arithmetic with a
    float. *)
Definition pynum_to_float (n : pynum) : pyexn + float :=
  match n with
  | PInt z => int_to_float z
  | PInf => inr infinity
  end.

(** [networkx.Graph]: the nodes and the adjacency, which holds an
    undirected edge in both directions. *)
Module nx.
Record Graph := {
  nodes : gset word;
  adj : gset (word * word)
}.

Definition add_nodes_from (ws : gset word) : Graph :=
  {| nodes := ws; adj := ∅ |}.

Definition add_edge (g : Graph) (u v : word) : Graph :=
  {| nodes := nodes g ∪ {[ u ]} ∪ {[ v ]};
     adj := adj g ∪ {[ (u, v) ]} ∪ {[ (v, u) ]} |}.

Definition has_edge (g : Graph) (u v : word) : Prop := (u, v) ∈ adj g.
End nx.

Section methods.
Variable set_iter : gset word → list word.

Definition get_random_word (self : WordLadderGame) (len : nat) (r : rng)
    : result (option word * rng) :=
  let valid_words := words_of_length set_iter self len in
  match valid_words with
  | [] => Ok (None, r)
  | _ =>
      let '(chosen_word, r) := choice valid_words r in
      match chosen_word with
      | None => Raise IndexError self
      | Some chosen_word => Ok (Some chosen_word, r)
      end
  end.

(** [algorithm] is the string the caller passes; any string other than
    "greedy" and "uniform" selects A*. *)
Definition get_hint (self : WordLadderGame) (algorithm : word)
    : result (option word * WordLadderGame) :=
  if bool_decide (current_word self = target_word self)
     || bool_decide (cmp (hints_remaining self) (PInt 0) ≠ Gt)
  then Ok (None, self)
  else
    let self :=
      {| word_set := word_set self;
         current_word := current_word self;
         target_word := target_word self;
         path_history := path_history self;
         start_time := start_time self;
         score := score self;
         difficulty := difficulty self;
         hints_remaining := pynum_add (hints_remaining self) (PInt (-1));
         time_limit := time_limit self;
         banned_words := banned_words self;
         base_score := base_score self;
         hints_used := hints_used self + 1;
         optimal_path_bonus := optimal_path_bonus self;
         time_factor := time_factor self;
         move_factor := move_factor self;
         hint_factor := hint_factor self |} in
    let path :=
      if bool_decide (algorithm = str "greedy") then
        greedy_best_first_search set_iter self (current_word self) (target_word self)
      else if bool_decide (algorithm = str "uniform") then
        uniform_cost_search set_iter self (current_word self) (target_word self)
      else a_star_search set_iter self (current_word self) (target_word self) in
    match path with
    | None => OutOfFuel
    | Some (Some (_ :: hint :: _)) => Ok (Some hint, self)
    | Some _ => Ok (None, self)
    end.

(** [max(0, x)] keeps the [int] 0 unless [x > 0]. *)
Definition get_time_remaining (self : WordLadderGame) (now : float)
    : pyexn + pyval :=
  match start_time self with
  | None =>
      match time_limit self with
      | PInt z => inr (VInt z)
      | PInf => inr (VFloat infinity)
      end
  | Some t0 =>
      let elapsed := (now - t0)%float in
      match pynum_to_float (time_limit self) with
      | inl e => inl e
      | inr time_limit =>
          let remaining := (time_limit - elapsed)%float in
          inr (if (0 <? remaining)%float then VFloat remaining else VInt 0)
      end
  end.

(** [or] does not evaluate its second operand when the first is true. *)
Definition is_game_over (self : WordLadderGame) (now : float) : pyexn + bool :=
  if bool_decide (current_word self = target_word self) then inr true
  else
    match get_time_remaining self now with
    | inl e => inl e
    | inr remaining => inr (pyval_nonpos remaining)
    end.

(** The value [build_graph] leaves in [self.graph]. *)
Definition build_graph (self : WordLadderGame) (word_length : nat) : nx.Graph :=
  let words_of_length : gset word :=
    filter (λ w, length w = word_length) (word_set self) in
  foldl (λ graph w,
    foldl (λ graph neighbor,
      if bool_decide (neighbor ∈ words_of_length)
      then nx.add_edge graph w neighbor else graph)
      graph (set_iter (get_neighbors self w)))
    (nx.add_nodes_from words_of_length) (set_iter words_of_length).

(** [WordLadderGUI.prepare_algorithm_paths], on the dictionary
    [graph_paths] of the window; [None] is "out of fuel". *)
Definition prepare_algorithm_paths (game : WordLadderGame)
    (graph_paths : gmap string (list word)) : option (gmap string (list word)) :=
  match path_history game with
  | [] => Some graph_paths
  | start_word :: _ =>
      let target_word := target_word game in
      let graph_paths := <["user"%string := path_history game]> graph_paths in
      a_star_path ← a_star_search set_iter game start_word target_word;
      let graph_paths := <["a_star"%string := default [] a_star_path]> graph_paths in
      greedy_path ← greedy_best_first_search set_iter game start_word target_word;
      let graph_paths := <["greedy"%string := default [] greedy_path]> graph_paths in
      uniform_path ← uniform_cost_search set_iter game start_word target_word;
      Some (<["uniform"%string := default [] uniform_path]> graph_paths)
  end.

End methods.

(** ** Play with hints *)

(** The states reached by a successful [start_game] followed by calls of
    [make_move], [get_hint] and [calculate_score] that return. *)
Inductive played (set_iter : gset word → list word) : WordLadderGame → Prop :=
  | played_start self0 start_word target_word d now r self r' :
      start_game set_iter self0 start_word target_word d now r
        = Ok (true, self, r') →
      played set_iter self
  | played_move self new_word now b self' :
      played set_iter self →
      make_move set_iter self new_word now = Ok (b, self') →
      played set_iter self'
  | played_hint self algorithm hint self' :
      played set_iter self →
      get_hint set_iter self algorithm = Ok (hint, self') →
      played set_iter self'
  | played_score self now v self' :
      played set_iter self →
      calculate_score set_iter self now = Ok (v, self') →
      played set_iter self'.

(** The corpus as [__init__] loads it: lowercase letters only. *)
Definition corpus_ok (self : WordLadderGame) : Prop :=
  ∀ w, w ∈ word_set self → is_word w = true.

(** A float that is neither an infinity nor a NaN. *)
Definition float_finite (x : float) : bool :=
  match Prim2SF x with
  | S754_zero _ | S754_finite _ _ _ => true
  | _ => false
  end.

(** The session with another path history, everything else fixed. *)
Definition with_path_history (self : WordLadderGame) (p : list word)
    : WordLadderGame :=
  {| word_set := word_set self;
     current_word := current_word self;
     target_word := target_word self;
     path_history := p;
     start_time := start_time self;
     score := score self;
     difficulty := difficulty self;
     hints_remaining := hints_remaining self;
     time_limit := time_limit self;
     banned_words := banned_words self;
     base_score := base_score self;
     hints_used := hints_used self;
     optimal_path_bonus := optimal_path_bonus self;
     time_factor := time_factor self;
     move_factor := move_factor self;
     hint_factor := hint_factor self |}.

(** A corpus in which the two-step path from "azz" to "zaz" goes through
    "zzz", the word with the largest letter sum. *)
Definition detour_corpus : gset word :=
  list_to_set (str <$> ["azz"; "zzz"; "zaz"; "abz"; "zbz"]%string).

Definition detour : WordLadderGame := init detour_corpus.

(** The invariant of [greedy_best_first_search]. *)
Record greedy_inv (self : WordLadderGame) (start target : word)
    (frontier : list (pynum * word * list word)) (visited : gset word) : Prop := {
  ginv_items : ∀ prio w p, (prio, w, p) ∈ frontier →
    ladder self start w p ∧ NoDup p ∧ ∀ x, x ∈ p → x ∈ visited;
  ginv_visited : ∀ w, w ∈ visited →
    (w ≠ target ∧ ∀ n, n ∈ get_neighbors self w → n ∈ visited)
    ∨ ∃ prio p, (prio, w, p) ∈ frontier;
  ginv_start : start ∈ visited
}.

(** Sessions that agree on everything [make_move], [get_hint] and
    [calculate_score] leave alone. *)
Definition same_profile (s1 s2 : WordLadderGame) : Prop :=
  word_set s2 = word_set s1 ∧ banned_words s2 = banned_words s1
  ∧ target_word s2 = target_word s1 ∧ difficulty s2 = difficulty s1
  ∧ time_limit s2 = time_limit s1 ∧ start_time s2 = start_time s1.

(** * Proofs *)

(** ** Characters and words *)

Lemma chr_lower_lowercase c : c ∈ ascii_lowercase → chr_lower c = c.
Proof.
  intros Hc. apply list_elem_of_In in Hc. simpl in Hc.
  repeat (destruct Hc as [<- | Hc]; [reflexivity |]). destruct Hc.
Qed.

Lemma is_word_spec w : is_word w = true ↔ ∀ c, c ∈ w → c ∈ ascii_lowercase.
Proof.
  unfold is_word. rewrite forallb_forall. split; intros H c Hc.
  - apply list_elem_of_In, H in Hc. by apply bool_decide_eq_true in Hc.
  - apply bool_decide_eq_true, H. by apply list_elem_of_In.
Qed.

Lemma lower_word w : is_word w = true → lower w = w.
Proof.
  rewrite is_word_spec. unfold lower. induction w as [| c w IH]; intros H.
  - reflexivity.
  - rewrite fmap_cons, chr_lower_lowercase, IH; [done | |]; set_solver.
Qed.

Lemma chr_lower_idemp c : chr_lower (chr_lower c) = chr_lower c.
Proof. destruct c as [[] [] [] [] [] [] [] []]; reflexivity. Qed.

Lemma lower_idemp w : lower (lower w) = lower w.
Proof.
  unfold lower. rewrite <- list_fmap_compose. apply list_fmap_ext.
  intros _ c _. apply chr_lower_idemp.
Qed.

Lemma substitute_insert (w : word) i c :
  (i < length w)%nat → substitute w i c = <[i:=c]> w.
Proof. intros Hi. unfold substitute. by rewrite insert_take_drop. Qed.

Lemma length_substitute (w : word) i c :
  (i < length w)%nat → length (substitute w i c) = length w.
Proof. intros Hi. rewrite substitute_insert by done. apply length_insert. Qed.

Lemma is_word_substitute (w : word) i c :
  (i < length w)%nat → is_word w = true → c ∈ ascii_lowercase →
  is_word (substitute w i c) = true.
Proof.
  intros Hi Hw Hc. rewrite substitute_insert by done.
  rewrite is_word_spec in *. intros x Hx.
  apply list_elem_of_lookup in Hx as [j Hj].
  destruct (decide (i = j)) as [-> | Hne].
  - rewrite list_lookup_insert_eq in Hj by done. by simplify_eq.
  - rewrite list_lookup_insert_ne in Hj by done.
    apply Hw. by eapply list_elem_of_lookup_2.
Qed.

(** ** get_neighbors *)

Section neighbors.
Context (self : WordLadderGame).

Lemma elem_of_inner_fold (w : word) (i : nat) (acc : gset word)
    (cs : list ascii) (n : word) :
  n ∈ foldl (λ neighbors c,
        let new_word := substitute w i c in
        if bool_decide (new_word ≠ w) && is_valid_word self new_word
           && bool_decide (new_word ∉ banned_words self)
        then neighbors ∪ {[ new_word ]} else neighbors) acc cs
  ↔ n ∈ acc ∨ ∃ c, c ∈ cs ∧ n = substitute w i c ∧ n ≠ w
      ∧ is_valid_word self n = true ∧ n ∉ banned_words self.
Proof.
  revert acc. induction cs as [| c cs IH]; intros acc; simpl.
  - split; [by left | intros [? | (c & Hc & _)]; [done | by inversion Hc]].
  - rewrite IH. clear IH.
    destruct (bool_decide (substitute w i c ≠ w)) eqn:E1;
      destruct (is_valid_word self (substitute w i c)) eqn:E2;
      destruct (bool_decide (substitute w i c ∉ banned_words self)) eqn:E3;
      simpl;
      try apply bool_decide_eq_true in E1; try apply bool_decide_eq_false in E1;
      try apply bool_decide_eq_true in E3; try apply bool_decide_eq_false in E3.
    1: { split.
         - intros [[H | H]%elem_of_union | (c' & Hc' & H)]; [by left | |].
           + apply elem_of_singleton in H as ->. right. exists c.
             repeat split; [left | done..].
           + right. exists c'. split; [by right | done].
         - intros [H | (c' & [-> | Hc']%elem_of_cons & H)].
           + left. set_solver.
           + left. destruct H as (-> & _). set_solver.
           + right. by exists c'. }
    all: split;
      [ intros [H | (c' & Hc' & H)]; [by left | right; exists c'; split; [by right | done]]
      | intros [H | (c' & [-> | Hc']%elem_of_cons & H)];
        [ by left
        | exfalso; destruct H as (-> & H1 & H2 & H3); first [congruence | by apply E1 | by apply E3]
        | right; by exists c' ] ].
Qed.

Lemma elem_of_outer_fold (w : word) (acc : gset word) (ixs : list nat)
    (cs : list ascii) (n : word) :
  n ∈ foldl (λ neighbors i,
        foldl (λ neighbors c,
          let new_word := substitute w i c in
          if bool_decide (new_word ≠ w) && is_valid_word self new_word
             && bool_decide (new_word ∉ banned_words self)
          then neighbors ∪ {[ new_word ]} else neighbors)
          neighbors cs) acc ixs
  ↔ n ∈ acc ∨ ∃ i c, i ∈ ixs ∧ c ∈ cs ∧ n = substitute w i c
      ∧ n ≠ w ∧ is_valid_word self n = true ∧ n ∉ banned_words self.
Proof.
  revert acc. induction ixs as [| i ixs IH]; intros acc.
  - split; [by left | intros [? | (i & c & Hi & _)]; [done | by inversion Hi]].
  - cbn [foldl]. rewrite IH, elem_of_inner_fold. clear IH. split.
    + intros [[H | (c & Hc & H)] | (i' & c & Hi' & H)].
      * by left.
      * right. exists i, c. split; [left | done].
      * right. exists i', c. split; [by right | done].
    + intros [H | (i' & c & [-> | Hi']%elem_of_cons & Hc & H)].
      * left. by left.
      * left. right. by exists c.
      * right. by exists i', c.
Qed.

Lemma elem_of_get_neighbors (w n : word) :
  n ∈ get_neighbors self w
  ↔ ∃ i c, (i < length w)%nat ∧ c ∈ ascii_lowercase ∧ n = substitute w i c
      ∧ n ≠ w ∧ is_valid_word self n = true ∧ n ∉ banned_words self.
Proof.
  unfold get_neighbors. rewrite elem_of_outer_fold. split.
  - intros [H | (i & c & Hi & H)]; [set_solver |].
    exists i, c. split; [| done]. apply elem_of_seq in Hi. lia.
  - intros (i & c & Hi & H). right. exists i, c. split; [| done].
    apply elem_of_seq. lia.
Qed.

Lemma get_neighbors_length (w n : word) :
  n ∈ get_neighbors self w → length n = length w.
Proof.
  rewrite elem_of_get_neighbors. intros (i & c & Hi & _ & -> & _).
  by apply length_substitute.
Qed.

Lemma get_neighbors_is_word (w n : word) :
  is_word w = true → n ∈ get_neighbors self w → is_word n = true.
Proof.
  rewrite elem_of_get_neighbors. intros Hw (i & c & Hi & Hc & -> & _).
  by apply is_word_substitute.
Qed.

Lemma get_neighbors_valid (w n : word) :
  n ∈ get_neighbors self w → is_valid_word self n = true.
Proof.
  rewrite elem_of_get_neighbors. by intros (i & c & _ & _ & _ & _ & H & _).
Qed.

Lemma get_neighbors_irrefl (w : word) : w ∉ get_neighbors self w.
Proof.
  rewrite elem_of_get_neighbors. by intros (i & c & _ & _ & _ & H & _).
Qed.

Lemma is_valid_word_elem (w : word) :
  lower w = w → is_valid_word self w = true →
  w ∈ word_set self ∧ w ∉ banned_words self.
Proof.
  unfold is_valid_word. intros -> [H1 H2]%andb_true_iff.
  by apply bool_decide_eq_true in H1, H2.
Qed.

Lemma get_neighbors_sym_1 (a b : word) :
  is_word a = true → is_valid_word self a = true →
  b ∈ get_neighbors self a → a ∈ get_neighbors self b.
Proof.
  intros Ha Hva. rewrite !elem_of_get_neighbors.
  intros (i & c & Hi & Hc & -> & Hne & Hvb & Hb).
  destruct (lookup_lt_is_Some_2 a i Hi) as [x Hx].
  exists i, x. rewrite length_substitute by done.
  split; [done |]. split.
  { apply is_word_spec with (w := a); [done |]. by eapply list_elem_of_lookup_2. }
  split.
  { rewrite (substitute_insert a) by done.
    rewrite substitute_insert by (by rewrite length_insert).
    rewrite list_insert_insert_eq. by rewrite list_insert_id. }
  split; [done |]. split; [done |].
  unfold is_valid_word in Hva. rewrite lower_word in Hva by done.
  apply andb_true_iff in Hva as [_ Hva]. by apply bool_decide_eq_true in Hva.
Qed.
End neighbors.

(** C3 — for valid, unbanned words [a] and [b] (sequences of lowercase
    letters that [is_valid_word] accepts), [b] is a neighbor of [a] exactly
    when [a] is a neighbor of [b]. *)
Theorem get_neighbors_symmetric (self : WordLadderGame) (a b : word) :
  is_word a = true → is_word b = true →
  is_valid_word self a = true → is_valid_word self b = true →
  (b ∈ get_neighbors self a ↔ a ∈ get_neighbors self b).
Proof.
  intros Ha Hb Hva Hvb. split; by apply get_neighbors_sym_1.
Qed.

(** The hypothesis that [a] and [b] are words of the data model is needed:
    [is_valid_word] lower-cases its argument and so accepts "Cat" as well,
    from which "cat" is one substitution away, while no substitution of a
    lowercase letter leads back to "Cat". *)
Remark get_neighbors_capital_letter :
  is_valid_word demo (str "Cat") = true
  ∧ str "cat" ∈ get_neighbors demo (str "Cat")
  ∧ str "Cat" ∉ get_neighbors demo (str "cat").
Proof.
  split; [vm_compute; reflexivity |]. split.
  - apply (bool_decide_unpack (str "cat" ∈ get_neighbors demo (str "Cat"))).
    vm_compute. exact I.
  - apply (bool_decide_unpack (str "Cat" ∉ get_neighbors demo (str "cat"))).
    vm_compute. exact I.
Qed.

(** ** heuristic *)

Lemma alphabet_position_letter c :
  is_letter c = true → ord (chr_lower c) - ord "a" + 1 = alphabet_position c.
Proof.
  destruct c as [[] [] [] [] [] [] [] []]; vm_compute; congruence.
Qed.

Lemma heuristic_fold_sum (w : word) (a : Z) :
  forallb is_letter w = true →
  foldl (λ acc c, acc + (ord (chr_lower c) - ord "a" + 1)) a w = a + letter_sum w.
Proof.
  revert a. induction w as [| c w IH]; intros a Hw; simpl in *.
  - lia.
  - apply andb_true_iff in Hw as [Hc Hw].
    rewrite IH by done. rewrite alphabet_position_letter by done. lia.
Qed.

(** C8 (as amended) — when [current] and [target] have the same length,
    [heuristic] is the sum of the alphabetic positions (a=1 ... z=26) of the
    letters of [current], whatever [target] is; when their lengths differ it
    is [float('inf')]. *)
Theorem heuristic_letter_sum (self : WordLadderGame) (current target : word) :
  forallb is_letter current = true →
  (length current = length target →
     heuristic self current target = PInt (letter_sum current))
  ∧ (length current ≠ length target → heuristic self current target = PInf).
Proof.
  intros Hw. unfold heuristic. split; intros Hlen.
  - rewrite bool_decide_eq_false_2 by (intros ?; done).
    by rewrite heuristic_fold_sum.
  - by rewrite bool_decide_eq_true_2.
Qed.

(** C8, as stated, fails: against a target of another length the value
    is not the letter sum, and it changes with the target. *)
Lemma heuristic_depends_on_target :
  heuristic (init ∅) (str "cat") (str "at") ≠ PInt (letter_sum (str "cat"))
  ∧ heuristic (init ∅) (str "cat") (str "at")
    ≠ heuristic (init ∅) (str "cat") (str "dog").
Proof. split; vm_compute; discriminate. Qed.

Lemma heuristic_letter_sum_witness :
  heuristic (init ∅) (str "cat") (str "dog") = PInt 24.
Proof.
  assert (H : forallb is_letter (str "cat") = true) by reflexivity.
  destruct (heuristic_letter_sum (init ∅) (str "cat") (str "dog") H) as [H1 _].
  rewrite H1 by reflexivity. reflexivity.
Defined.

Lemma get_neighbors_symmetric_witness :
  str "cot" ∈ get_neighbors demo (str "cat")
  ↔ str "cat" ∈ get_neighbors demo (str "cot").
Proof.
  apply (get_neighbors_symmetric demo (str "cat") (str "cot"));
    vm_compute; reflexivity.
Defined.

(** ** The tuple order is a total order *)

Global Instance Z_cmp_order : CmpOrder Z.
Proof.
  split; unfold cmp, Z_cmp.
  - intros x y. apply Z.compare_eq_iff.
  - intros x y. apply Z.compare_antisym.
  - intros x y z. rewrite !Z.compare_lt_iff. lia.
Qed.

Global Instance ascii_cmp_order : CmpOrder ascii.
Proof.
  split; unfold cmp, ascii_cmp, Ascii.compare.
  - intros x y. rewrite N.compare_eq_iff. split; [| by intros ->].
    intros Hxy. rewrite <- (ascii_N_embedding x), <- (ascii_N_embedding y).
    by rewrite Hxy.
  - intros x y. apply N.compare_antisym.
  - intros x y z. rewrite !N.compare_lt_iff. lia.
Qed.

Global Instance pynum_cmp_order : CmpOrder pynum.
Proof.
  split.
  - intros [x |] [y |]; unfold cmp; simpl; try (split; congruence).
    rewrite Z.compare_eq_iff. split; congruence.
  - intros [x |] [y |]; unfold cmp; simpl; try done. apply Z.compare_antisym.
  - intros [x |] [y |] [z |]; unfold cmp; simpl; try done.
    rewrite !Z.compare_lt_iff. lia.
Qed.

Section cmp_order.
Context {A : Type} `{CmpOrder A}.

Lemma cmp_refl (x : A) : cmp x x = Eq.
Proof. by apply cmp_eq. Qed.

Lemma cmp_gt_lt (x y : A) : cmp x y = Gt ↔ cmp y x = Lt.
Proof. rewrite (cmp_antisym x y). destruct (cmp x y); simpl; split; congruence. Qed.

Lemma cmp_le_trans (x y z : A) : cmp x y ≠ Gt → cmp y z ≠ Gt → cmp x z ≠ Gt.
Proof.
  intros Hxy Hyz.
  destruct (cmp x y) eqn:E1; [| | done].
  - apply cmp_eq in E1 as ->. done.
  - destruct (cmp y z) eqn:E2; [| | done].
    + apply cmp_eq in E2 as ->. by rewrite E1.
    + by rewrite (cmp_trans x y z).
Qed.

Lemma cmp_le_antisym (x y : A) : cmp x y ≠ Gt → cmp y x ≠ Gt → x = y.
Proof.
  intros Hxy Hyx. apply cmp_eq. rewrite (cmp_antisym x y) in Hyx.
  destruct (cmp x y); simpl in *; done.
Qed.

Lemma list_cmp_eq (l1 l2 : list A) : list_cmp l1 l2 = Eq ↔ l1 = l2.
Proof.
  revert l2. induction l1 as [| x l1 IH]; intros [| y l2]; simpl;
    try (split; congruence).
  destruct (cmp x y) eqn:E.
  - apply cmp_eq in E as ->. rewrite IH. split; congruence.
  - split; [done |]. intros [= -> _]. by rewrite cmp_refl in E.
  - split; [done |]. intros [= -> _]. by rewrite cmp_refl in E.
Qed.

Lemma list_cmp_antisym (l1 l2 : list A) :
  list_cmp l2 l1 = CompOpp (list_cmp l1 l2).
Proof.
  revert l2. induction l1 as [| x l1 IH]; intros [| y l2]; simpl; try done.
  rewrite (cmp_antisym x y). destruct (cmp x y); simpl; [apply IH | done..].
Qed.

Lemma list_cmp_trans (l1 l2 l3 : list A) :
  list_cmp l1 l2 = Lt → list_cmp l2 l3 = Lt → list_cmp l1 l3 = Lt.
Proof.
  revert l2 l3. induction l1 as [| x l1 IH]; intros [| y l2] [| z l3]; simpl;
    try done.
  destruct (cmp x y) eqn:E1; [| | done].
  - apply cmp_eq in E1 as ->. destruct (cmp y z); [apply IH | done..].
  - destruct (cmp y z) eqn:E2; [| | done].
    + apply cmp_eq in E2 as ->. by rewrite E1.
    + by rewrite (cmp_trans x y z).
Qed.

Global Instance list_cmp_order : CmpOrder (list A).
Proof.
  split; [apply list_cmp_eq | apply list_cmp_antisym | apply list_cmp_trans].
Qed.

Context {B : Type} `{CmpOrder B}.

Global Instance prod_cmp_order : CmpOrder (A * B).
Proof.
  split; unfold cmp, prod_cmp.
  - intros [x1 x2] [y1 y2]. simpl. destruct (cmp x1 y1) eqn:E.
    + apply cmp_eq in E as ->. rewrite cmp_eq. split; congruence.
    + split; [done |]. intros [= -> _]. by rewrite cmp_refl in E.
    + split; [done |]. intros [= -> _]. by rewrite cmp_refl in E.
  - intros [x1 x2] [y1 y2]. simpl. rewrite (cmp_antisym x1 y1).
    destruct (cmp x1 y1); simpl; [apply cmp_antisym | done..].
  - intros [x1 x2] [y1 y2] [z1 z2]. simpl.
    destruct (cmp x1 y1) eqn:E1; [| | done].
    + apply cmp_eq in E1 as ->. destruct (cmp y1 z1); [apply cmp_trans | done..].
    + destruct (cmp y1 z1) eqn:E2; [| | done].
      * apply cmp_eq in E2 as ->. by rewrite E1.
      * by rewrite (cmp_trans x1 y1 z1).
Qed.

Lemma prod_cmp_fst (x y : A * B) : cmp x y ≠ Gt → cmp x.1 y.1 ≠ Gt.
Proof.
  unfold cmp at 1, prod_cmp. destruct (cmp x.1 y.1); done.
Qed.
End cmp_order.

(** ** heappop returns the least item *)

Section heapq_facts.
Context {A : Type} `{CmpOrder A, EqDecision A}.

Lemma least_elem_of (x : A) l : least x l ∈ x :: l.
Proof.
  revert x. induction l as [| y l IH]; intros x; simpl; [by left |].
  specialize (IH (match cmp y x with Lt => y | _ => x end)).
  apply elem_of_cons in IH as [-> | IH]; [| by do 2 right].
  destruct (cmp y x); [by left | right; by left | by left].
Qed.

Lemma least_le (x : A) l y : y ∈ x :: l → cmp (least x l) y ≠ Gt.
Proof.
  revert x y. induction l as [| z l IH]; intros x y Hy; simpl.
  - apply list_elem_of_singleton in Hy as ->. by rewrite cmp_refl.
  - set (x' := match cmp z x with Lt => z | _ => x end).
    assert (Hx : cmp x' x ≠ Gt).
    { subst x'. destruct (cmp z x) eqn:E; rewrite ?cmp_refl; congruence. }
    assert (Hz : cmp x' z ≠ Gt).
    { subst x'. destruct (cmp z x) eqn:E; rewrite ?cmp_refl; try done.
      - apply cmp_eq in E as ->. by rewrite cmp_refl.
      - apply cmp_gt_lt in E. by rewrite E. }
    apply elem_of_cons in Hy as [-> | [-> | Hy]%elem_of_cons].
    + eapply cmp_le_trans; [apply IH; by left | done].
    + eapply cmp_le_trans; [apply IH; by left | done].
    + apply IH. by right.
Qed.

Lemma remove_first_perm (x : A) l : x ∈ l → l ≡ₚ x :: remove_first x l.
Proof.
  induction l as [| y l IH]; intros Hx; [by inversion Hx |]. simpl.
  destruct (decide (x = y)) as [-> | Hne]; [done |].
  apply elem_of_cons in Hx as [-> | Hx]; [done |].
  rewrite (IH Hx) at 1. apply Permutation_swap.
Qed.

Lemma heappop_None (heap : list A) : heappop heap = None ↔ heap = [].
Proof. destruct heap; simpl; split; congruence. Qed.

Lemma heappop_Some (heap : list A) m rest :
  heappop heap = Some (m, rest) →
  m ∈ heap ∧ heap ≡ₚ m :: rest ∧ ∀ y, y ∈ heap → cmp m y ≠ Gt.
Proof.
  destruct heap as [| x l]; [done |]. unfold heappop. intros [= <- <-].
  split; [apply least_elem_of |]. split.
  - apply remove_first_perm, least_elem_of.
  - intros y Hy. by apply least_le.
Qed.

Lemma heappop_perm (h1 h2 : list A) m r1 :
  h1 ≡ₚ h2 → heappop h1 = Some (m, r1) →
  ∃ r2, heappop h2 = Some (m, r2) ∧ r1 ≡ₚ r2.
Proof.
  intros Hp H1. destruct (heappop h2) as [[m2 r2] |] eqn:H2.
  - apply heappop_Some in H1 as (Hm1 & Hp1 & Hle1).
    apply heappop_Some in H2 as (Hm2 & Hp2 & Hle2).
    assert (m = m2) as <-.
    { apply cmp_le_antisym.
      - apply Hle1. by rewrite Hp.
      - apply Hle2. by rewrite <- Hp. }
    exists r2. split; [done |].
    apply (Permutation_cons_inv (a := m)).
    by rewrite <- Hp1, <- Hp2.
  - apply heappop_None in H2 as ->. apply Permutation_nil_r in Hp as ->. done.
Qed.
End heapq_facts.

(** ** One expansion of a node *)

Lemma lookup_record_costs (visited : gmap word Z) c ns w :
  record_costs visited c ns !! w
  = if decide (w ∈ ns) then Some c else visited !! w.
Proof.
  unfold record_costs. revert visited.
  induction ns as [| n ns IH]; intros visited; cbn [foldl].
  - rewrite decide_False; [done | by intros ?%elem_of_nil].
  - rewrite IH. destruct (decide (w ∈ ns)) as [Hin | Hnin].
    + rewrite decide_True; [done | by right].
    + destruct (decide (w = n)) as [-> | Hne].
      * rewrite decide_True by left. apply lookup_insert_eq.
      * rewrite decide_False by (intros [?|?]%elem_of_cons; done).
        by apply lookup_insert_ne.
Qed.

Lemma improved_insert (visited : gmap word Z) n c c' ns :
  n ∉ ns → improved (<[n := c]> visited) c' ns = improved visited c' ns.
Proof.
  intros Hn. unfold improved. induction ns as [| m ns IH]; [done |].
  apply not_elem_of_cons in Hn as [Hne Hn].
  rewrite !filter_cons, (IH Hn). unfold unseen_or_cheaper.
  by rewrite lookup_insert_ne.
Qed.

Lemma elem_of_improved visited c ns n :
  n ∈ improved visited c ns ↔ unseen_or_cheaper visited n c = true ∧ n ∈ ns.
Proof. unfold improved. by rewrite list_elem_of_filter. Qed.

Lemma NoDup_improved visited c ns : NoDup ns → NoDup (improved visited c ns).
Proof. apply NoDup_filter. Qed.

Lemma filter_unvisited_insert (visited : gset word) (n : word)
    (ns : list word) :
  n ∉ ns →
  filter (λ m, m ∉ visited ∪ {[n]}) ns = filter (λ m, m ∉ visited) ns.
Proof.
  induction ns as [| m ns IH]; intros Hn; [done |].
  apply not_elem_of_cons in Hn as [Hne Hn]. rewrite !filter_cons, (IH Hn).
  destruct (decide (m ∉ visited)) as [Hm | Hm].
  - rewrite decide_True; [done |].
    intros [? | ?%elem_of_singleton]%elem_of_union; [done | congruence].
  - rewrite decide_False; [done |].
    intros Hm'. apply Hm. intros ?. apply Hm'. by apply elem_of_union_l.
Qed.

Section expand.
Context (self : WordLadderGame).

Lemma ucs_expand_spec cost path frontier visited ns :
  NoDup ns →
  ucs_expand cost path (frontier, visited) ns
  = (frontier ++ ((λ n, (cost + 1, n, path ++ [n])) <$> improved visited (cost + 1) ns),
     record_costs visited (cost + 1) (improved visited (cost + 1) ns)).
Proof.
  unfold ucs_expand, record_costs. revert frontier visited.
  induction ns as [| n ns IH]; intros frontier visited Hnd.
  - by rewrite app_nil_r.
  - apply NoDup_cons in Hnd as [Hn Hnd]. cbn [foldl].
    unfold improved at 1 2. rewrite filter_cons. fold (improved visited (cost + 1) ns).
    destruct (unseen_or_cheaper visited n (cost + 1)) eqn:E.
    + rewrite decide_True by done. rewrite IH by done.
      rewrite improved_insert by done. unfold heappush.
      by rewrite fmap_cons, <- app_assoc.
    + rewrite decide_False by done. by rewrite IH.
Qed.

Lemma a_star_expand_spec target cost path frontier visited ns :
  NoDup ns →
  a_star_expand self target cost path (frontier, visited) ns
  = (frontier ++ ((λ n, (pynum_add (PInt (cost + 1)) (heuristic self n target),
                         cost + 1, n, path ++ [n]))
                  <$> improved visited (cost + 1) ns),
     record_costs visited (cost + 1) (improved visited (cost + 1) ns)).
Proof.
  unfold a_star_expand, record_costs. revert frontier visited.
  induction ns as [| n ns IH]; intros frontier visited Hnd.
  - by rewrite app_nil_r.
  - apply NoDup_cons in Hnd as [Hn Hnd]. cbn [foldl].
    unfold improved at 1 2. rewrite filter_cons. fold (improved visited (cost + 1) ns).
    destruct (unseen_or_cheaper visited n (cost + 1)) eqn:E.
    + rewrite decide_True by done. rewrite IH by done.
      rewrite improved_insert by done. unfold heappush.
      by rewrite fmap_cons, <- app_assoc.
    + rewrite decide_False by done. by rewrite IH.
Qed.

Lemma greedy_expand_spec (target : word) (path : list word)
    (frontier : list (pynum * word * list word)) (visited : gset word)
    (ns : list word) :
  NoDup ns →
  greedy_expand self target path (frontier, visited) ns
  = (frontier ++ ((λ n, (heuristic self n target, n, path ++ [n]))
                  <$> filter (λ n, n ∉ visited) ns),
     visited ∪ list_to_set (filter (λ n, n ∉ visited) ns)).
Proof.
  unfold greedy_expand. revert frontier visited.
  induction ns as [| n ns IH]; intros frontier visited Hnd.
  - simpl. rewrite app_nil_r. f_equal. by rewrite union_empty_r_L.
  - apply NoDup_cons in Hnd as [Hn Hnd]. cbn [foldl]. rewrite filter_cons.
    destruct (decide (n ∉ visited)) as [Hv | Hv].
    + rewrite bool_decide_eq_true_2 by done. rewrite IH by done.
      rewrite filter_unvisited_insert by done.
      unfold heappush. rewrite fmap_cons, <- app_assoc. simpl.
      f_equal. by rewrite <- union_assoc_L.
    + rewrite bool_decide_eq_false_2 by done. by rewrite IH.
Qed.
End expand.

(** ** The searches do not depend on the order of set iteration *)

Lemma record_costs_perm (visited : gmap word Z) c (l1 l2 : list word) :
  l1 ≡ₚ l2 → record_costs visited c l1 = record_costs visited c l2.
Proof.
  intros Hp. apply map_eq. intros w. rewrite !lookup_record_costs.
  destruct (decide (w ∈ l1)) as [H1 | H1].
  - rewrite decide_True; [done | by rewrite <- Hp].
  - rewrite decide_False; [done | by rewrite <- Hp].
Qed.

Lemma improved_perm (visited : gmap word Z) c (l1 l2 : list word) :
  l1 ≡ₚ l2 → improved visited c l1 ≡ₚ improved visited c l2.
Proof. intros Hp. unfold improved. by rewrite Hp. Qed.

Section determinism.
Context (iter1 iter2 : gset word → list word).
Hypothesis iter1_ok : ∀ X, iter1 X ≡ₚ elements X.
Hypothesis iter2_ok : ∀ X, iter2 X ≡ₚ elements X.
Context (self : WordLadderGame).

Lemma iter_NoDup (iter : gset word → list word) (X : gset word) :
  iter X ≡ₚ elements X → NoDup (iter X).
Proof. intros ->. apply NoDup_elements. Qed.

Lemma iter_perm X : iter1 X ≡ₚ iter2 X.
Proof. by rewrite iter1_ok, iter2_ok. Qed.

Lemma ucs_loop_perm fuel target fr1 fr2 visited :
  fr1 ≡ₚ fr2 →
  ucs_loop iter1 self fuel target fr1 visited
  = ucs_loop iter2 self fuel target fr2 visited.
Proof.
  revert fr1 fr2 visited. induction fuel as [| fuel IH]; intros fr1 fr2 visited Hp.
  { done. }
  cbn [ucs_loop]. destruct (heappop fr1) as [[[[cost current] path] r1] |] eqn:E1.
  - destruct (heappop_perm _ _ _ _ Hp E1) as (r2 & -> & Hr).
    case_bool_decide; [done |].
    rewrite !ucs_expand_spec by (by apply iter_NoDup).
    rewrite (record_costs_perm _ _ _ _ (improved_perm _ _ _ _ (iter_perm _))).
    apply IH. by rewrite Hr, (improved_perm _ _ _ _ (iter_perm _)).
  - apply heappop_None in E1 as ->. apply Permutation_nil_l in Hp as <-. done.
Qed.

Lemma a_star_loop_perm fuel target fr1 fr2 visited :
  fr1 ≡ₚ fr2 →
  a_star_loop iter1 self fuel target fr1 visited
  = a_star_loop iter2 self fuel target fr2 visited.
Proof.
  revert fr1 fr2 visited. induction fuel as [| fuel IH]; intros fr1 fr2 visited Hp.
  { done. }
  cbn [a_star_loop].
  destruct (heappop fr1) as [[[[[prio cost] current] path] r1] |] eqn:E1.
  - destruct (heappop_perm _ _ _ _ Hp E1) as (r2 & -> & Hr).
    case_bool_decide; [done |].
    rewrite !a_star_expand_spec by (by apply iter_NoDup).
    rewrite (record_costs_perm _ _ _ _ (improved_perm _ _ _ _ (iter_perm _))).
    apply IH. by rewrite Hr, (improved_perm _ _ _ _ (iter_perm _)).
  - apply heappop_None in E1 as ->. apply Permutation_nil_l in Hp as <-. done.
Qed.

Lemma greedy_loop_perm fuel target fr1 fr2 visited :
  fr1 ≡ₚ fr2 →
  greedy_loop iter1 self fuel target fr1 visited
  = greedy_loop iter2 self fuel target fr2 visited.
Proof.
  revert fr1 fr2 visited. induction fuel as [| fuel IH]; intros fr1 fr2 visited Hp.
  { done. }
  cbn [greedy_loop].
  destruct (heappop fr1) as [[[[prio current] path] r1] |] eqn:E1.
  - destruct (heappop_perm _ _ _ _ Hp E1) as (r2 & -> & Hr).
    case_bool_decide; [done |].
    rewrite !greedy_expand_spec by (by apply iter_NoDup).
    assert (Hf : filter (λ n, n ∉ visited) (iter1 (get_neighbors self current))
                 ≡ₚ filter (λ n, n ∉ visited) (iter2 (get_neighbors self current))).
    { by rewrite (iter_perm _). }
    rewrite (list_to_set_perm_L _ _ Hf).
    apply IH. by rewrite Hr, Hf.
  - apply heappop_None in E1 as ->. apply Permutation_nil_l in Hp as <-. done.
Qed.
End determinism.

(** ** Ladders *)

Lemma chain_lookup self (p : list word) (i : nat) (x y : word) :
  chain self p → p !! i = Some x → p !! S i = Some y → y ∈ get_neighbors self x.
Proof.
  revert i. induction p as [| a p IH]; intros i Hc Hx Hy; [done |].
  destruct p as [| b p]; [done |]. destruct Hc as [Hab Hc].
  destruct i as [| i]; simpl in *.
  - by simplify_eq.
  - by eapply IH.
Qed.

Lemma chain_snoc self (p : list word) (w n : word) :
  chain self p → last p = Some w → n ∈ get_neighbors self w →
  chain self (p ++ [n]).
Proof.
  induction p as [| a p IH]; intros Hc Hl Hn; [done |].
  destruct p as [| b p].
  - simpl in *. by simplify_eq.
  - destruct Hc as [Hab Hc]. split; [done |]. by apply IH.
Qed.

Lemma ladder_snoc self (a w n : word) (p : list word) :
  ladder self a w p → n ∈ get_neighbors self w → ladder self a n (p ++ [n]).
Proof.
  intros (Hh & Hl & Hc) Hn. split; [| split].
  - destruct p; [done | by simpl in *].
  - apply last_snoc.
  - by eapply chain_snoc.
Qed.

Lemma ladder_singleton self (a : word) : ladder self a a [a].
Proof. by repeat split. Qed.

Lemma NoDup_length_le_size (l : list word) (X : gset word) :
  NoDup l → (∀ x, x ∈ l → x ∈ X) → (length l ≤ size X)%nat.
Proof.
  intros Hnd Hsub. rewrite <- (size_list_to_set (C := gset word) l) by done.
  apply subseteq_size. intros x Hx. apply elem_of_list_to_set in Hx. auto.
Qed.

(** ** Sums over a list without duplicates *)

Lemma sum_list_with_ext_notin {A} (f g : A → nat) (l : list A) :
  (∀ y, y ∈ l → f y = g y) → sum_list_with f l = sum_list_with g l.
Proof.
  induction l as [| y l IH]; intros Hfg; [done |]. simpl.
  rewrite (Hfg y) by left. rewrite IH; [done |]. intros z Hz. apply Hfg. by right.
Qed.

Lemma sum_list_with_lt {A} (f g : A → nat) (l : list A) (x : A) :
  NoDup l → x ∈ l → (∀ y, y ≠ x → g y = f y) → (g x < f x)%nat →
  (sum_list_with g l < sum_list_with f l)%nat.
Proof.
  induction l as [| y l IH]; intros Hnd Hx Hfg Hlt; [by inversion Hx |].
  apply NoDup_cons in Hnd as [Hy Hnd]. simpl.
  apply elem_of_cons in Hx as [-> | Hx].
  - rewrite (sum_list_with_ext_notin g f l); [lia |].
    intros z Hz. apply Hfg. intros ->. done.
  - rewrite (Hfg y) by (intros ->; done). specialize (IH Hnd Hx Hfg Hlt). lia.
Qed.

Lemma sum_list_with_bound {A} (f : A → nat) (l : list A) (b : nat) :
  (∀ y, y ∈ l → (f y ≤ b)%nat) → (sum_list_with f l ≤ length l * b)%nat.
Proof.
  induction l as [| y l IH]; intros Hb; simpl; [lia |].
  specialize (Hb y (list_elem_of_here _ _)) as Hy.
  assert (sum_list_with f l ≤ length l * b)%nat; [| lia].
  apply IH. intros z Hz. apply Hb. by right.
Qed.

(** ** The universe of a search *)

Lemma length_variants (s w : word) : (length (variants s w) ≤ 2 ^ length s)%nat.
Proof.
  revert w. induction s as [| cs s IH]; intros w.
  - by destruct w.
  - destruct w as [| cw w].
    + cbn. pose proof (Nat.pow_nonzero 2 (length s)). lia.
    + cbn [variants length]. cbv zeta.
      rewrite length_app, !length_fmap. specialize (IH w).
      rewrite Nat.pow_succ_r'. lia.
Qed.

Lemma elem_of_variants (s n : word) : node_ok s n → n ∈ variants s (lower n).
Proof.
  unfold node_ok. revert s. induction n as [| cn n IH]; intros s Hok.
  - apply Forall2_nil_inv_l in Hok as ->. simpl. by left.
  - apply Forall2_cons_inv_l in Hok as (cs & s' & Hc & Hok & ->). simpl.
    apply elem_of_app. destruct Hc as [-> | Hc].
    + right. apply list_elem_of_fmap. exists n. split; [done | by apply IH].
    + left. apply list_elem_of_fmap. exists n. rewrite Hc. split; [done | by apply IH].
Qed.

Lemma length_bind_bound {A B} (f : A → list B) (l : list A) (b : nat) :
  (∀ x, length (f x) ≤ b)%nat → (length (l ≫= f) ≤ length l * b)%nat.
Proof.
  intros Hf. induction l as [| x l IH]; [simpl; lia |].
  rewrite bind_cons, length_app. specialize (Hf x). simpl. lia.
Qed.

Lemma size_list_to_set_le (l : list word) :
  (size (list_to_set (C := gset word) l) ≤ length l)%nat.
Proof.
  unfold size, set_size. simpl. apply submseteq_length, NoDup_submseteq.
  - apply NoDup_elements.
  - intros x Hx. by apply elem_of_elements, elem_of_list_to_set in Hx.
Qed.

Section universe.
Context (self : WordLadderGame) (start : word).

Lemma size_universe :
  (size (universe self start) ≤ size (word_set self) * 2 ^ length start)%nat.
Proof.
  unfold universe. etransitivity; [apply size_list_to_set_le |].
  apply (length_bind_bound (variants start) (elements (word_set self))).
  intros w. apply length_variants.
Qed.

Lemma elem_of_universe (n : word) :
  node_ok start n → lower n ∈ word_set self → n ∈ universe self start.
Proof.
  intros Hok Hn. unfold universe. apply elem_of_list_to_set, list_elem_of_bind.
  exists (lower n). split; [by apply elem_of_variants | by apply elem_of_elements].
Qed.

Lemma node_ok_start : node_ok start start.
Proof. unfold node_ok. apply Forall2_lookup. intros i.
  destruct (start !! i); constructor. by left. Qed.

Lemma node_ok_neighbor (w n : word) :
  node_ok start w → n ∈ get_neighbors self w → node_ok start n.
Proof.
  unfold node_ok. intros Hok (i & c & Hi & Hc & -> & _)%elem_of_get_neighbors.
  rewrite substitute_insert by done.
  apply Forall2_same_length_lookup. apply Forall2_same_length_lookup in Hok as [Hlen Hok].
  split; [by rewrite length_insert |].
  intros j x y Hx Hy. destruct (decide (i = j)) as [-> | Hne].
  - rewrite list_lookup_insert_eq in Hx by done. injection Hx as <-.
    right. by apply chr_lower_lowercase.
  - rewrite list_lookup_insert_ne in Hx by done. by eapply Hok.
Qed.

Lemma is_valid_word_lower_in (n : word) :
  is_valid_word self n = true → lower n ∈ word_set self.
Proof.
  unfold is_valid_word. intros [H1 _]%andb_true_iff.
  by apply bool_decide_eq_true in H1.
Qed.

Lemma neighbor_in_universe (w n : word) :
  node_ok start w → n ∈ get_neighbors self w → n ∈ universe self start.
Proof.
  intros Hok Hn. apply elem_of_universe; [by eapply node_ok_neighbor |].
  by eapply is_valid_word_lower_in, get_neighbors_valid.
Qed.

Lemma start_in_universe :
  is_valid_word self start = true →
  start ∈ universe self start ∧ (0 < size (universe self start))%nat.
Proof.
  intros Hv.
  assert (Hin : start ∈ universe self start).
  { apply elem_of_universe; [apply node_ok_start | by apply is_valid_word_lower_in]. }
  split; [done |].
  destruct (decide (size (universe self start) = 0%nat)) as [Hz | ?]; [| lia].
  apply size_empty_inv in Hz. rewrite (leibniz_equiv _ _ Hz) in Hin.
  by apply not_elem_of_empty in Hin.
Qed.

Lemma potential_insert (visited : gmap word Z) (n : word) (c : Z) :
  n ∈ universe self start → 0 ≤ c →
  (Z.to_nat c < slack self start visited n)%nat →
  (potential self start (<[n := c]> visited) + 1
   ≤ potential self start visited)%nat.
Proof.
  intros Hn Hc Hlt. unfold potential.
  assert (sum_list_with (slack self start (<[n := c]> visited))
            (elements (universe self start))
          < sum_list_with (slack self start visited)
              (elements (universe self start)))%nat;
    [| lia].
  apply (sum_list_with_lt _ _ _ n).
  - apply NoDup_elements.
  - by apply elem_of_elements.
  - intros y Hy. unfold slack. by rewrite lookup_insert_ne.
  - unfold slack at 1. by rewrite lookup_insert_eq.
Qed.

Lemma potential_record_costs (visited : gmap word Z) (c : Z) (ns : list word) :
  NoDup ns → 0 ≤ c →
  (∀ n, n ∈ ns →
     n ∈ universe self start ∧ (Z.to_nat c < slack self start visited n)%nat) →
  (potential self start (record_costs visited c ns) + length ns
   ≤ potential self start visited)%nat.
Proof.
  intros Hnd Hc. unfold record_costs. revert visited.
  induction Hnd as [| n ns Hn Hnd IH]; intros visited Hns; simpl; [lia |].
  destruct (Hns n) as [Hnw Hlt]; [left |].
  pose proof (potential_insert visited n c Hnw Hc Hlt).
  assert (potential self start (foldl (λ v m, <[m := c]> v) (<[n := c]> visited) ns)
          + length ns ≤ potential self start (<[n := c]> visited))%nat; [| lia].
  apply IH. intros m Hm. destruct (Hns m) as [Hmw Hmlt]; [by right |].
  split; [done |]. unfold slack in *. rewrite lookup_insert_ne; [done |].
  intros ->. done.
Qed.

Lemma potential_bound (visited : gmap word Z) :
  (∀ w c, visited !! w = Some c → c < Z.of_nat (size (universe self start))) →
  (potential self start visited
   ≤ size (universe self start) * size (universe self start))%nat.
Proof.
  intros Hb. unfold potential.
  etransitivity; [apply (sum_list_with_bound _ _ (size (universe self start))) |].
  - intros w _. unfold slack. destruct (visited !! w) as [c |] eqn:E; [| lia].
    apply Hb in E. lia.
  - done.
Qed.
End universe.

(** ** The invariant is kept by one iteration of the loop *)

Section invariant.
Context (self : WordLadderGame) (start target : word).

Lemma search_inv_perm fr1 fr2 visited :
  fr1 ≡ₚ fr2 → search_inv self start target fr1 visited →
  search_inv self start target fr2 visited.
Proof.
  intros Hp [H1 H2 H3]. split; [done | |].
  - intros e He. apply H2. by rewrite Hp.
  - intros w c Hw. destruct (H3 w c Hw) as (? & ? & ? & [Hs | [p Hin]]).
    + do 3 (split; [done |]). by left.
    + do 3 (split; [done |]). right. exists p. by rewrite <- Hp.
Qed.

Lemma item_ok_cost_nonneg visited c w p :
  item_ok self start visited (c, w, p) → 0 ≤ c ∧ p !! Z.to_nat c = Some w.
Proof.
  intros ((_ & Hl & _) & He & _). unfold edges in He.
  rewrite last_lookup in Hl. destruct p as [| a p]; [done |].
  simpl in *. split; [lia |]. replace (Z.to_nat c) with (length p) by lia. done.
Qed.

Lemma search_inv_step c w p rest visited ns :
  search_inv self start target ((c, w, p) :: rest) visited →
  w ≠ target → NoDup ns → (∀ n, n ∈ ns ↔ n ∈ get_neighbors self w) →
  search_inv self start target
    (rest ++ ((λ n, (c + 1, n, p ++ [n])) <$> improved visited (c + 1) ns))
    (record_costs visited (c + 1) (improved visited (c + 1) ns))
  ∧ (potential self start
       (record_costs visited (c + 1) (improved visited (c + 1) ns))
     + length (improved visited (c + 1) ns) ≤ potential self start visited)%nat.
Proof.
  intros [Hstart Hitems Hvis] Hwt Hnd Hns.
  set (imp := improved visited (c + 1) ns).
  set (visited' := record_costs visited (c + 1) imp).
  assert (Hpop : item_ok self start visited (c, w, p)) by (apply Hitems; left).
  destruct (item_ok_cost_nonneg _ _ _ _ Hpop) as [Hc0 Hlast].
  destruct Hpop as (Hlad & Hedges & Hndp & Hpath).
  destruct (Hpath _ _ Hlast) as (cw & Hcw & Hcwle).
  destruct (Hvis _ _ Hcw) as (_ & _ & Hwok & _).
  (* costs only go down *)
  assert (Hmono : ∀ x cx, visited !! x = Some cx →
            ∃ cx', visited' !! x = Some cx' ∧ cx' ≤ cx).
  { intros x cx Hx. subst visited'. rewrite lookup_record_costs.
    destruct (decide (x ∈ imp)) as [Hin | Hnin]; [| by exists cx].
    apply elem_of_improved in Hin as [Hu _]. unfold unseen_or_cheaper in Hu.
    rewrite Hx in Hu. exists (c + 1). split; [done | lia]. }
  (* what is known of a pushed neighbor *)
  assert (Himp : ∀ n, n ∈ imp →
            n ∈ get_neighbors self w ∧ (n ∉ p) ∧ n ∈ universe self start
            ∧ node_ok start n
            ∧ c + 1 < Z.of_nat (size (universe self start))).
  { intros n [Hu Hn]%elem_of_improved. apply Hns in Hn.
    assert (Hnp : n ∉ p).
    { intros [i Hi]%list_elem_of_lookup.
      destruct (Hpath _ _ Hi) as (cx & Hcx & Hle).
      apply lookup_lt_Some in Hi. unfold unseen_or_cheaper in Hu.
      rewrite Hcx in Hu. unfold edges in Hedges. lia. }
    pose proof (node_ok_neighbor self start w n Hwok Hn) as Hnok.
    pose proof (neighbor_in_universe self start w n Hwok Hn) as Hnw.
    do 4 (split; [done |]).
    assert (length (p ++ [n]) ≤ size (universe self start))%nat.
    { apply NoDup_length_le_size.
      - apply NoDup_app. repeat split; [done | | apply NoDup_singleton].
        intros x Hx ->%list_elem_of_singleton. done.
      - intros x [Hx | ->%list_elem_of_singleton]%elem_of_app; [| done].
        apply list_elem_of_lookup in Hx as [i Hi].
        destruct (Hpath _ _ Hi) as (cx & Hcx & _).
        by destruct (Hvis _ _ Hcx) as (_ & ? & _). }
    rewrite length_app in *. simpl in *. unfold edges in Hedges. lia. }
  split.
  - split.
    + (* the start word keeps cost 0 *)
      destruct (Hmono _ _ Hstart) as (c0 & Hc0' & Hle).
      subst visited'. rewrite lookup_record_costs in *.
      destruct (decide (start ∈ imp)); [simplify_eq; lia | done].
    + (* items *)
      intros e [He | He]%elem_of_app.
      * assert (Hok : item_ok self start visited e) by (apply Hitems; by right).
        destruct e as [[ce we] pe]. destruct Hok as (? & ? & ? & Hpe).
        do 3 (split; [done |]). intros i x Hi.
        destruct (Hpe _ _ Hi) as (cx & Hcx & Hle).
        destruct (Hmono _ _ Hcx) as (cx' & ? & ?). exists cx'. split; [done | lia].
      * apply list_elem_of_fmap in He as (n & -> & Hn).
        destruct (Himp n Hn) as (Hnw & Hnp & _).
        split; [by eapply ladder_snoc |]. split.
        { unfold edges in *. rewrite length_app. simpl. lia. }
        split.
        { apply NoDup_app. repeat split; [done | | apply NoDup_singleton].
          intros x Hx ->%list_elem_of_singleton. done. }
        intros i x Hi. apply lookup_app_Some in Hi as [Hi | [Hge Hi]].
        -- destruct (Hpath _ _ Hi) as (cx & Hcx & Hle).
           destruct (Hmono _ _ Hcx) as (cx' & ? & ?). exists cx'. split; [done | lia].
        -- apply list_lookup_singleton_Some in Hi as [Hi <-].
           exists (c + 1). split.
           ++ subst visited'. rewrite lookup_record_costs. by rewrite decide_True.
           ++ unfold edges in Hedges. lia.
    + (* visited words *)
      intros x cx Hx. subst visited'. rewrite lookup_record_costs in Hx.
      destruct (decide (x ∈ imp)) as [Hin | Hnin].
      * simplify_eq. destruct (Himp x Hin) as (_ & _ & Hxw & Hlx & Hlt).
        split; [lia |]. do 2 (split; [done |]). right. exists (p ++ [x]).
        apply elem_of_app. right. apply list_elem_of_fmap. by exists x.
      * destruct (Hvis _ _ Hx) as (Hb & Hlx & Hxw & Hcase).
        do 3 (split; [done |]).
        assert (Hkeep : ∀ y cy, settled self target visited y cy →
                  settled self target (record_costs visited (c + 1) imp) y cy).
        { intros y cy [Hyt Hy]. split; [done |]. intros n Hn.
          destruct (Hy n Hn) as (cn & Hcn & Hle).
          destruct (Hmono _ _ Hcn) as (cn' & ? & ?). exists cn'. split; [done | lia]. }
        destruct Hcase as [Hs | [px Hin]]; [left; by apply Hkeep |].
        apply elem_of_cons in Hin as [Heq | Hin].
        -- (* the word just expanded *)
           injection Heq as -> -> ->. left. split; [done |]. intros n Hn.
           rewrite lookup_record_costs.
           destruct (decide (n ∈ imp)) as [Hni | Hni]; [by exists (c + 1) |].
           assert (Hu : unseen_or_cheaper visited n (c + 1) = false).
           { apply not_true_is_false. intros Hu. apply Hni.
             apply elem_of_improved. split; [done | by apply Hns]. }
           unfold unseen_or_cheaper in Hu.
           destruct (visited !! n) as [cn |]; [| done].
           exists cn. split; [done | lia].
        -- right. exists px. apply elem_of_app. by left.
  - apply potential_record_costs; [by apply NoDup_improved | lia |].
    intros n Hn. destruct (Himp n Hn) as (_ & _ & Hnw & _ & Hlt).
    split; [done |]. apply elem_of_improved in Hn as [Hu _].
    unfold unseen_or_cheaper in Hu. unfold slack.
    destruct (visited !! n) as [cn |]; lia.
Qed.

Lemma search_inv_init :
  is_valid_word self start = true →
  search_inv self start target [(0, start, [start])] {[ start := 0 ]}.
Proof.
  intros Hv. destruct (start_in_universe self start Hv) as [Hin Hpos].
  pose proof (node_ok_start start) as Hok.
  split.
  - apply lookup_singleton_eq.
  - intros e ->%list_elem_of_singleton. split; [apply ladder_singleton |].
    split; [done |]. split; [apply NoDup_singleton |].
    intros i x Hi. apply list_lookup_singleton_Some in Hi as [-> <-].
    exists 0. split; [apply lookup_singleton_eq | done].
  - intros w c [<- <-]%lookup_singleton_Some.
    split; [lia |]. do 2 (split; [done |]). right. exists [start]. by left.
Qed.
End invariant.

(** ** What the invariant says about paths *)

Section reach.
Context (self : WordLadderGame) (start target : word).

Lemma visited_along frontier visited (k : Z) (q : list word) :
  search_inv self start target frontier visited →
  (∀ c w p, (c, w, p) ∈ frontier → k ≤ c) →
  head q = Some start → chain self q →
  ∀ (i : nat) (x : word), q !! i = Some x → Z.of_nat i < k →
    ∃ cx, visited !! x = Some cx ∧ cx ≤ Z.of_nat i.
Proof.
  intros [Hstart Hitems Hvis] Hk Hh Hc. induction i as [| i IH]; intros x Hx Hi.
  - rewrite head_lookup in Hh. exists 0. split; [congruence | done].
  - destruct (lookup_lt_is_Some_2 q i) as [y Hy].
    { apply lookup_lt_Some in Hx. lia. }
    destruct (IH y Hy) as (cy & Hcy & Hle); [lia |].
    destruct (Hvis _ _ Hcy) as (_ & _ & _ & [[_ Hs] | [p Hin]]).
    + destruct (Hs x) as (cx & Hcx & Hle'); [by eapply chain_lookup |].
      exists cx. split; [done | lia].
    + apply Hk in Hin. lia.
Qed.

(** No path to the target is shorter than the cheapest item of the
    frontier. *)
Lemma no_shorter_ladder frontier visited (k : Z) (q : list word) :
  search_inv self start target frontier visited →
  (∀ c w p, (c, w, p) ∈ frontier → k ≤ c) →
  ladder self start target q → k ≤ edges q.
Proof.
  intros Hinv Hk (Hh & Hl & Hc).
  destruct (decide (k ≤ edges q)) as [| Hlt]; [done | exfalso].
  rewrite last_lookup in Hl.
  destruct (visited_along _ _ k q Hinv Hk Hh Hc _ _ Hl) as (ct & Hct & Hle).
  { unfold edges in Hlt. destruct q; [done | simpl in *; lia]. }
  destruct Hinv as [_ _ Hvis].
  destruct (Hvis _ _ Hct) as (_ & _ & _ & [[Hne _] | [p Hin]]); [done |].
  apply Hk in Hin. unfold edges in Hlt. destruct q; [done | simpl in *; lia].
Qed.
End reach.

(** ** The loops return, and what they return *)

Section loops.
Context (set_iter : gset word → list word).
Hypothesis set_iter_ok : ∀ X, set_iter X ≡ₚ elements X.
Context (self : WordLadderGame) (start target : word).

Lemma set_iter_neighbors (w : word) :
  NoDup (set_iter (get_neighbors self w))
  ∧ ∀ n, n ∈ set_iter (get_neighbors self w) ↔ n ∈ get_neighbors self w.
Proof.
  split.
  - rewrite set_iter_ok. apply NoDup_elements.
  - intros n. rewrite set_iter_ok. apply elem_of_elements.
Qed.

Lemma ucs_loop_correct (fuel : nat) frontier visited :
  search_inv self start target frontier visited →
  (length frontier + 2 * potential self start visited < fuel)%nat →
  ∃ r, ucs_loop set_iter self fuel target frontier visited = Some r
    ∧ match r with
      | Some p => ladder self start target p
                  ∧ ∀ q, ladder self start target q → edges p ≤ edges q
      | None => ∀ q, ¬ ladder self start target q
      end.
Proof.
  revert frontier visited.
  induction fuel as [| fuel IH]; intros frontier visited Hinv Hfuel; [lia |].
  cbn [ucs_loop].
  destruct (heappop frontier) as [[[[c w] p] rest] |] eqn:Hpop.
  - apply heappop_Some in Hpop as (Hin & Hperm & Hmin).
    assert (Hk : ∀ c' w' p', (c', w', p') ∈ frontier → c ≤ c').
    { intros c' w' p' Hin'. apply Hmin in Hin'.
      apply prod_cmp_fst, prod_cmp_fst in Hin'. simpl in Hin'.
      unfold cmp, Z_cmp in Hin'. by apply Z.compare_le_iff. }
    case_bool_decide as Hw.
    + subst w. eexists; split; [done |]. simpl.
      destruct (inv_items _ _ _ _ _ Hinv _ Hin) as (Hlad & Hedges & _).
      split; [done |]. intros q Hq. rewrite Hedges.
      by eapply no_shorter_ladder.
    + destruct (set_iter_neighbors w) as [Hnd Hns].
      rewrite ucs_expand_spec by done.
      apply (search_inv_perm _ _ _ _ _ _ Hperm) in Hinv.
      destruct (search_inv_step _ _ _ _ _ _ _ _ _ Hinv Hw Hnd Hns) as [Hinv' Hpot].
      apply IH; [done |].
      apply Permutation_length in Hperm. rewrite length_app, length_fmap.
      simpl in Hperm. lia.
  - apply heappop_None in Hpop as ->. eexists; split; [done |]. simpl.
    intros q Hq.
    pose proof (no_shorter_ladder _ _ _ _ _ (edges q + 1) q Hinv) as Hk.
    assert (edges q + 1 ≤ edges q); [| lia].
    apply Hk; [| done]. intros ??? Hin. by apply elem_of_nil in Hin.
Qed.

Lemma a_star_loop_correct (fuel : nat) frontier visited :
  search_inv self start target (item_core <$> frontier) visited →
  (length frontier + 2 * potential self start visited < fuel)%nat →
  ∃ r, a_star_loop set_iter self fuel target frontier visited = Some r
    ∧ match r with
      | Some p => ladder self start target p
      | None => ∀ q, ¬ ladder self start target q
      end.
Proof.
  revert frontier visited.
  induction fuel as [| fuel IH]; intros frontier visited Hinv Hfuel; [lia |].
  cbn [a_star_loop].
  destruct (heappop frontier) as [[[[[prio c] w] p] rest] |] eqn:Hpop.
  - apply heappop_Some in Hpop as (Hin & Hperm & _).
    case_bool_decide as Hw.
    + subst w. eexists; split; [done |]. simpl.
      apply (list_elem_of_fmap_2 item_core) in Hin.
      by destruct (inv_items _ _ _ _ _ Hinv _ Hin) as (Hlad & _).
    + destruct (set_iter_neighbors w) as [Hnd Hns].
      rewrite a_star_expand_spec by done.
      apply (search_inv_perm _ _ _ _ (item_core <$> (prio, c, w, p) :: rest)) in Hinv;
        [| by rewrite Hperm].
      rewrite fmap_cons in Hinv. simpl in Hinv.
      destruct (search_inv_step _ _ _ _ _ _ _ _ _ Hinv Hw Hnd Hns) as [Hinv' Hpot].
      apply IH.
      * rewrite fmap_app, <- list_fmap_compose. exact Hinv'.
      * apply Permutation_length in Hperm. rewrite length_app, length_fmap.
        simpl in Hperm. lia.
  - apply heappop_None in Hpop as ->. eexists; split; [done |]. simpl.
    intros q Hq.
    pose proof (no_shorter_ladder _ _ _ _ _ (edges q + 1) q Hinv) as Hk.
    assert (edges q + 1 ≤ edges q); [| lia].
    apply Hk; [| done]. intros ??? Hin. by apply elem_of_nil in Hin.
Qed.

Lemma search_fuel_enough :
  is_valid_word self start = true →
  (1 + 2 * potential self start {[ start := 0%Z ]} < search_fuel self start)%nat.
Proof.
  intros Hv. unfold search_fuel.
  destruct (start_in_universe self start Hv) as [_ Hpos].
  pose proof (size_universe self start) as Hsize.
  assert (potential self start {[ start := 0%Z ]}
          ≤ size (universe self start) * size (universe self start))%nat.
  { apply potential_bound. intros w c [<- <-]%lookup_singleton_Some. lia. }
  nia.
Qed.

Lemma uniform_cost_search_correct :
  is_valid_word self start = true → is_valid_word self target = true →
  ∃ r, uniform_cost_search set_iter self start target = Some r
    ∧ match r with
      | Some p => ladder self start target p
                  ∧ ∀ q, ladder self start target q → edges p ≤ edges q
      | None => ∀ q, ¬ ladder self start target q
      end.
Proof.
  intros Hs Ht. unfold uniform_cost_search. rewrite Hs, Ht. simpl.
  apply ucs_loop_correct.
  - by apply search_inv_init.
  - simpl. by apply search_fuel_enough.
Qed.

Lemma a_star_search_correct :
  is_valid_word self start = true → is_valid_word self target = true →
  ∃ r, a_star_search set_iter self start target = Some r
    ∧ match r with
      | Some p => ladder self start target p
      | None => ∀ q, ¬ ladder self start target q
      end.
Proof.
  intros Hs Ht. unfold a_star_search. rewrite Hs, Ht. simpl.
  apply a_star_loop_correct.
  - simpl. by apply search_inv_init.
  - simpl. by apply search_fuel_enough.
Qed.
End loops.

(** ** greedy_best_first_search returns *)

Section greedy.
Context (set_iter : gset word → list word).
Hypothesis set_iter_ok : ∀ X, set_iter X ≡ₚ elements X.
Context (self : WordLadderGame) (start target : word).

Lemma size_unvisited (visited : gset word) (ns : list word) :
  NoDup ns → (∀ n, n ∈ ns → n ∈ universe self start ∧ n ∉ visited) →
  (size (universe self start ∖ (visited ∪ list_to_set ns)) + length ns
   = size (universe self start ∖ visited))%nat.
Proof.
  intros Hnd Hns.
  rewrite <- (size_list_to_set (C := gset word) ns) by done.
  rewrite <- size_union.
  - f_equal. apply set_eq. intros x.
    rewrite elem_of_union, !elem_of_difference, elem_of_union, elem_of_list_to_set.
    split.
    + intros [[? Hx] | Hx]; [split; [done |]; intros ?; apply Hx; by left |].
      by apply Hns.
    + intros [Hx Hv]. destruct (decide (x ∈ ns)) as [? | Hn]; [by right |].
      left. split; [done |]. by intros [? | ?].
  - intros x. rewrite elem_of_difference, elem_of_union, elem_of_list_to_set.
    intros [_ Hx] ?. apply Hx. by right.
Qed.

Lemma greedy_loop_returns (fuel : nat)
    (frontier : list (pynum * word * list word)) (visited : gset word) :
  (∀ e, e ∈ frontier → node_ok start e.1.2) →
  (length frontier + 2 * size (universe self start ∖ visited) < fuel)%nat →
  ∃ r, greedy_loop set_iter self fuel target frontier visited = Some r.
Proof.
  revert frontier visited.
  induction fuel as [| fuel IH]; intros frontier visited Hlow Hfuel; [lia |].
  cbn [greedy_loop].
  destruct (heappop frontier) as [[[[prio w] p] rest] |] eqn:Hpop; [| by eexists].
  apply heappop_Some in Hpop as (Hin & Hperm & _).
  case_bool_decide; [by eexists |].
  destruct (set_iter_neighbors set_iter set_iter_ok self w) as [Hnd Hns].
  rewrite greedy_expand_spec by done.
  assert (Hw : node_ok start w) by apply (Hlow _ Hin).
  set (imp := filter (λ n, n ∉ visited) (set_iter (get_neighbors self w))).
  assert (Himp : ∀ n, n ∈ imp → n ∈ get_neighbors self w ∧ n ∉ visited).
  { intros n [? ?%Hns]%list_elem_of_filter. done. }
  apply IH.
  - intros e [He | He]%elem_of_app.
    + apply Hlow. rewrite Hperm. by right.
    + apply list_elem_of_fmap in He as (n & -> & Hn). simpl.
      eapply node_ok_neighbor; [done | by apply Himp].
  - pose proof (size_unvisited visited imp) as Hsize.
    rewrite length_app, length_fmap.
    apply Permutation_length in Hperm. simpl in Hperm.
    assert (size (universe self start ∖ (visited ∪ list_to_set imp)) + length imp
            = size (universe self start ∖ visited))%nat; [| lia].
    apply Hsize; [by apply NoDup_filter |].
    intros n Hn. destruct (Himp n Hn) as [Hnb Hnv]. split; [| done].
    by eapply neighbor_in_universe.
Qed.

Lemma greedy_best_first_search_returns :
  ∃ r, greedy_best_first_search set_iter self start target = Some r.
Proof.
  unfold greedy_best_first_search.
  destruct (negb _); [by eexists |].
  apply greedy_loop_returns.
  - intros e ->%list_elem_of_singleton. apply node_ok_start.
  - unfold search_fuel. simpl.
    pose proof (size_universe self start) as Hsize.
    pose proof (subseteq_size (universe self start ∖ {[start]})
                  (universe self start)) as Hs.
    assert (size (universe self start ∖ {[start]}) ≤ size (universe self start))%nat.
    { apply Hs. by intros x [? _]%elem_of_difference. }
    nia.
Qed.
End greedy.

Section returns.
Context (set_iter : gset word → list word).
Hypothesis set_iter_ok : ∀ X, set_iter X ≡ₚ elements X.
Context (self : WordLadderGame) (start target : word).

Lemma a_star_search_returns :
  ∃ r, a_star_search set_iter self start target = Some r.
Proof.
  destruct (is_valid_word self start) eqn:Hv1;
    [| unfold a_star_search; rewrite Hv1; by eexists].
  destruct (is_valid_word self target) eqn:Hv2;
    [| unfold a_star_search; rewrite Hv1, Hv2; by eexists].
  destruct (a_star_search_correct set_iter set_iter_ok self start target Hv1 Hv2)
    as (r & Hr & _).
  by exists r.
Qed.

Lemma uniform_cost_search_returns :
  ∃ r, uniform_cost_search set_iter self start target = Some r.
Proof.
  destruct (is_valid_word self start) eqn:Hv1;
    [| unfold uniform_cost_search; rewrite Hv1; by eexists].
  destruct (is_valid_word self target) eqn:Hv2;
    [| unfold uniform_cost_search; rewrite Hv1, Hv2; by eexists].
  destruct (uniform_cost_search_correct set_iter set_iter_ok self start target
              Hv1 Hv2) as (r & Hr & _).
  by exists r.
Qed.
End returns.

(** C2 (as amended) — each of the three searches is deterministic for a
    fixed dictionary and banned set: frontier items are tuples ordered
    lexicographically, whose last fields are the word and the path (there is
    no sequence number), so two runs that walk the neighbor sets in different
    orders both return, and return the same result. *)
Theorem searches_deterministic (iter1 iter2 : gset word → list word)
    (self : WordLadderGame) (start target : word) :
  (∀ X, iter1 X ≡ₚ elements X) → (∀ X, iter2 X ≡ₚ elements X) →
  ∃ ra rg ru,
    a_star_search iter1 self start target = Some ra
    ∧ a_star_search iter2 self start target = Some ra
    ∧ greedy_best_first_search iter1 self start target = Some rg
    ∧ greedy_best_first_search iter2 self start target = Some rg
    ∧ uniform_cost_search iter1 self start target = Some ru
    ∧ uniform_cost_search iter2 self start target = Some ru.
Proof.
  intros H1 H2.
  destruct (a_star_search_returns iter1 H1 self start target) as [ra Ha].
  destruct (greedy_best_first_search_returns iter1 H1 self start target)
    as [rg Hg].
  destruct (uniform_cost_search_returns iter1 H1 self start target) as [ru Hu].
  assert (Hsame :
    a_star_search iter2 self start target = a_star_search iter1 self start target
    ∧ greedy_best_first_search iter2 self start target
      = greedy_best_first_search iter1 self start target
    ∧ uniform_cost_search iter2 self start target
      = uniform_cost_search iter1 self start target).
  { unfold a_star_search, greedy_best_first_search, uniform_cost_search.
    destruct (negb _); [done |]. split; [| split].
    - by apply a_star_loop_perm.
    - by apply greedy_loop_perm.
    - by apply ucs_loop_perm. }
  destruct Hsame as (-> & -> & ->). by exists ra, rg, ru.
Qed.

(** C1 — for valid, unbanned words [start] and [target]: when [target] is
    reachable from [start] in the one-letter-substitution graph,
    [uniform_cost_search] returns a path from [start] to [target] whose
    number of edges is the shortest-path distance between them; when no
    path exists it returns [None]. *)
Theorem uniform_cost_search_shortest (set_iter : gset word → list word)
    (self : WordLadderGame) (start target : word) :
  (∀ X, set_iter X ≡ₚ elements X) →
  is_valid_word self start = true → is_valid_word self target = true →
  ((∃ q, ladder self start target q) →
     ∃ p, uniform_cost_search set_iter self start target = Some (Some p)
       ∧ ladder self start target p
       ∧ shortest_distance self start target (edges p))
  ∧ ((∀ q, ¬ ladder self start target q) →
       uniform_cost_search set_iter self start target = Some None).
Proof.
  intros Hiter Hs Ht.
  destruct (uniform_cost_search_correct set_iter Hiter self start target Hs Ht)
    as (r & Hr & Hpost).
  split.
  - intros [q Hq]. destruct r as [p |]; [| by destruct (Hpost q)].
    destruct Hpost as [Hp Hmin]. exists p. split; [done |]. split; [done |].
    split; [by exists p | done].
  - intros Hno. destruct r as [p |]; [| done].
    destruct Hpost as [Hp _]. by destruct (Hno p).
Qed.

(** ** make_move *)

Lemma letters_changed_sym (a b : word) : letters_changed a b = letters_changed b a.
Proof.
  unfold letters_changed. revert b.
  induction a as [| x a IH]; intros [| y b]; try done.
  simpl. rewrite !filter_cons. simpl.
  destruct (decide (x ≠ y)) as [Hxy | Hxy].
  - rewrite decide_True by (intros ->; done). simpl. by rewrite IH.
  - rewrite decide_False; [apply IH |]. intros Hyx. apply Hxy. by intros ->.
Qed.

Section session_facts.
Context (set_iter : gset word → list word).

Lemma calculate_score_Ok self now v self' :
  calculate_score set_iter self now = Ok (v, self') →
  self' = set_score self v ∧ 0 ≤ v.
Proof.
  unfold calculate_score. intros Hc.
  destruct (start_time self) as [t0 |]; [| done].
  destruct (path_history self) as [| first rest]; [done |].
  destruct (a_star_search _ _ _ _) as [[optimal_path |] |]; [| done..].
  destruct (add_path_bonus _ _ _) as [e | s1]; [done |].
  destruct (add_time_component _ _ _ _ _) as [e | s2]; [done |].
  injection Hc as <- <-. split; [done | lia].
Qed.

Lemma is_valid_word_lower self (w : word) :
  is_valid_word self (lower w)
  = bool_decide (lower w ∈ word_set self)
    && bool_decide (lower w ∉ banned_words self).
Proof. unfold is_valid_word. by rewrite lower_idemp. Qed.

(** C7 — [make_move] returns false when the lower-cased word is absent from
    the corpus or banned, when its length differs from the current word's,
    or when it differs from the current word in a number of positions other
    than 1; when it returns true, the lower-cased word has been appended to
    the path history and is the current word. *)
Theorem make_move_validation (self : WordLadderGame) (new_word : word)
    (now : float) :
  (lower new_word ∉ word_set self ∨ lower new_word ∈ banned_words self
   ∨ length (lower new_word) ≠ length (current_word self)
   ∨ letters_changed (lower new_word) (current_word self) ≠ 1%nat →
   make_move set_iter self new_word now = Ok (false, self))
  ∧ (∀ self', make_move set_iter self new_word now = Ok (true, self') →
       current_word self' = lower new_word
       ∧ path_history self' = path_history self ++ [lower new_word]).
Proof.
  unfold make_move. rewrite is_valid_word_lower. split.
  - intros Hbad.
    destruct (decide (lower new_word ∈ word_set self)) as [Hin | Hin];
      [| by rewrite (bool_decide_eq_false_2 _ Hin)].
    rewrite (bool_decide_eq_true_2 _ Hin).
    destruct (decide (lower new_word ∈ banned_words self)) as [Hb | Hb];
      [by rewrite bool_decide_eq_false_2 by (intros ?; done) |].
    rewrite (bool_decide_eq_true_2 _ Hb). simpl.
    case_bool_decide as Hlen; [done |].
    case_bool_decide as Hdiff; [done |].
    destruct Hbad as [? | [? | [? | ?]]]; done.
  - intros self'. destruct (_ && _); simpl; [| done].
    case_bool_decide; [done |]. case_bool_decide; [done |].
    case_bool_decide.
    + destruct (calculate_score _ _ _) as [[v s] | |] eqn:Hc; [| done..].
      intros [= <-]. by apply calculate_score_Ok in Hc as [-> _].
    + by intros [= <-].
Qed.
End session_facts.

(** ** The path history of a session *)

Section history.
Context (set_iter : gset word → list word).

Lemma is_valid_word_lower_elem self (w : word) :
  is_valid_word self (lower w) = true →
  lower w ∈ word_set self ∧ lower w ∉ banned_words self.
Proof. apply is_valid_word_elem, lower_idemp. Qed.

Lemma make_move_true self new_word now self' :
  make_move set_iter self new_word now = Ok (true, self') →
  is_valid_word self (lower new_word) = true
  ∧ length (lower new_word) = length (current_word self)
  ∧ letters_changed (lower new_word) (current_word self) = 1%nat
  ∧ current_word self' = lower new_word
  ∧ path_history self' = path_history self ++ [lower new_word]
  ∧ word_set self' = word_set self
  ∧ banned_words self' = banned_words self.
Proof.
  unfold make_move. destruct (is_valid_word self (lower new_word)); [| done].
  simpl. case_bool_decide as Hlen; [done |]. case_bool_decide as Hdiff; [done |].
  try apply dec_stable in Hlen. try apply dec_stable in Hdiff.
  case_bool_decide.
  - destruct (calculate_score _ _ _) as [[v s] | |] eqn:Hc; [| done..].
    intros [= <-]. by apply calculate_score_Ok in Hc as [-> _].
  - by intros [= <-].
Qed.

Lemma start_game_true self0 (sw tw : word) d now r self r' :
  start_game set_iter self0 sw tw d now r = Ok (true, self, r') →
  current_word self = lower sw
  ∧ target_word self = lower tw
  ∧ path_history self = [lower sw]
  ∧ start_time self = Some now
  ∧ hints_used self = 0
  ∧ is_valid_word self (lower sw) = true
  ∧ is_valid_word self (lower tw) = true.
Proof.
  unfold start_game. destruct (setup_difficulty _ _ _ _) as [s1 r1].
  case_bool_decide; [done |].
  destruct (is_valid_word s1 (lower sw)) eqn:Hs; [| done].
  destruct (is_valid_word s1 (lower tw)) eqn:Ht; [| done]. simpl.
  destruct (a_star_search _ _ _ _) as [[[| a path] |] |]; [done | | done..].
  destruct (out_of_range _ _); [done |]. intros [= <- <-].
  unfold is_valid_word in *. simpl. done.
Qed.

Lemma one_letter_steps_snoc (p : list word) (cur new_word : word) :
  one_letter_steps p → last p = Some cur →
  length cur = length new_word → letters_changed cur new_word = 1%nat →
  one_letter_steps (p ++ [new_word]).
Proof.
  intros Hp Hl Hlen Hdiff i a b Ha Hb.
  apply lookup_app_Some in Hb as [Hb | [Hge Hb]].
  - rewrite lookup_app_l in Ha by (apply lookup_lt_Some in Hb; lia).
    by eapply Hp.
  - apply list_lookup_singleton_Some in Hb as [Hi <-].
    rewrite last_lookup in Hl.
    rewrite lookup_app_l in Ha by lia.
    replace (pred (length p)) with i in Hl by lia. by simplify_eq.
Qed.

(** C9 — in every state reached by a successful [start_game] followed by
    successful [make_move] calls, the path history is non-empty, begins
    with the session's start word, ends with the current word, holds only
    valid unbanned dictionary words, and each pair of consecutive elements
    has equal length and differs in exactly one letter position. *)
Theorem reachable_session_ok (start : word) (self : WordLadderGame) :
  reachable set_iter start self → session_ok self start.
Proof.
  induction 1 as [self0 sw tw d now r self r' Hstart -> | self w now self' Hr IH Hmove].
  - apply start_game_true in Hstart as (Hc & _ & Hp & _ & _ & Hv & _).
    apply is_valid_word_lower_elem in Hv.
    unfold session_ok. rewrite Hp, Hc. split; [done |]. do 2 (split; [done |]).
    split.
    + by intros w ->%list_elem_of_singleton.
    + intros i a b Ha Hb. by destruct i.
  - apply make_move_true in Hmove as (Hv & Hlen & Hdiff & Hc & Hp & Hws & Hb).
    apply is_valid_word_lower_elem in Hv.
    destruct IH as (Hne & Hh & Hl & Hall & Hsteps).
    unfold session_ok. rewrite Hp, Hc, Hws, Hb. split; [by destruct (path_history self) |].
    split; [by destruct (path_history self) |].
    split; [apply last_snoc |]. split.
    + intros x [Hx | ->%list_elem_of_singleton]%elem_of_app; [by apply Hall | done].
    + eapply one_letter_steps_snoc; [done.. | by rewrite letters_changed_sym].
Qed.
End history.

(** ** start_game configures the session before it validates *)

Section setup.
Context (set_iter : gset word → list word).

Lemma start_game_false self (sw tw : word) d now r self' r' :
  start_game set_iter self sw tw d now r = Ok (false, self', r') →
  (self', r') = setup_difficulty set_iter self d r.
Proof.
  unfold start_game. destruct (setup_difficulty _ _ _ _) as [s1 r1].
  case_bool_decide; [by intros [= <- <-] |].
  destruct (negb _); [by intros [= <- <-] |].
  destruct (a_star_search _ _ _ _) as [[[| a path] |] |];
    [by intros [= <- <-] | | by intros [= <- <-] | done].
  destruct (out_of_range _ _); [by intros [= <- <-] | done].
Qed.

Lemma setup_difficulty_fields self d r :
  let self' := (setup_difficulty set_iter self d r).1 in
  difficulty self' = d
  ∧ hints_remaining self' = PInt (Settings.hint_limit (DIFFICULTY_SETTINGS d))
  ∧ time_limit self' = Settings.time_limit (DIFFICULTY_SETTINGS d)
  ∧ base_score self' = Settings.base_score (DIFFICULTY_SETTINGS d)
  ∧ optimal_path_bonus self' = Some (Settings.optimal_path_bonus (DIFFICULTY_SETTINGS d))
  ∧ time_factor self' = Some (Settings.time_factor (DIFFICULTY_SETTINGS d))
  ∧ move_factor self' = Some (Settings.move_factor (DIFFICULTY_SETTINGS d))
  ∧ hint_factor self' = Some (Settings.hint_factor (DIFFICULTY_SETTINGS d)).
Proof.
  unfold setup_difficulty. destruct (if bool_decide (d = challenge) then _ else _).
  simpl. done.
Qed.

Lemma setup_difficulty_banned self d r :
  let self' := (setup_difficulty set_iter self d r).1 in
  (d ≠ challenge → banned_words self' = ∅)
  ∧ (d = challenge →
     ∃ word_length r1,
       randint 6 8 r = (word_length, r1)
       ∧ let potential_words :=
           filter (λ w, length w = word_length) (set_iter (word_set self)) in
         banned_words self'
         = list_to_set
             (sample potential_words (10 `min` length potential_words)%nat r1).1).
Proof.
  unfold setup_difficulty. split.
  - intros Hd. rewrite bool_decide_eq_false_2 by done. by destruct d.
  - intros ->. rewrite bool_decide_eq_true_2 by done. simpl.
    destruct (randint 6 8 r) as [word_length r1]. exists word_length, r1.
    split; [done |]. simpl. by destruct (sample _ _ _).
Qed.
End setup.

(** [start_game] always returns: the search it runs never lacks fuel. *)
Lemma start_game_returns (set_iter : gset word → list word) self (sw tw : word)
    d now r :
  (∀ X, set_iter X ≡ₚ elements X) →
  ∃ b self' r', start_game set_iter self sw tw d now r = Ok (b, self', r').
Proof.
  intros Hiter. unfold start_game.
  destruct (setup_difficulty _ _ _ _) as [s1 r1].
  case_bool_decide; [by eexists _, _, _ |].
  destruct (negb _); [by eexists _, _, _ |].
  destruct (a_star_search_returns set_iter Hiter s1 (lower sw) (lower tw))
    as [res ->].
  destruct res as [[| a path] |]; [by eexists _, _, _ | | by eexists _, _, _].
  destruct (out_of_range _ _); by eexists _, _, _.
Qed.

(** C10 — [start_game] applies [setup_difficulty] before any validation:
    whenever it returns false, the session is left exactly as
    [setup_difficulty] made it, with the hints, time limit, base score,
    scoring factors and banned set of the requested difficulty (a freshly
    sampled banned set in challenge mode); a failed call does change the
    session. *)
Theorem start_game_failure_not_atomic (set_iter : gset word → list word) :
  (∀ self (sw tw : word) d now r self' r',
     start_game set_iter self sw tw d now r = Ok (false, self', r') →
     (self', r') = setup_difficulty set_iter self d r
     ∧ hints_remaining self' = PInt (Settings.hint_limit (DIFFICULTY_SETTINGS d))
     ∧ time_limit self' = Settings.time_limit (DIFFICULTY_SETTINGS d)
     ∧ base_score self' = Settings.base_score (DIFFICULTY_SETTINGS d)
     ∧ optimal_path_bonus self' = Some (Settings.optimal_path_bonus (DIFFICULTY_SETTINGS d))
     ∧ time_factor self' = Some (Settings.time_factor (DIFFICULTY_SETTINGS d))
     ∧ move_factor self' = Some (Settings.move_factor (DIFFICULTY_SETTINGS d))
     ∧ hint_factor self' = Some (Settings.hint_factor (DIFFICULTY_SETTINGS d))
     ∧ (d ≠ challenge → banned_words self' = ∅)
     ∧ (d = challenge →
        ∃ word_length r1,
          randint 6 8 r = (word_length, r1)
          ∧ let potential_words :=
              filter (λ w, length w = word_length) (set_iter (word_set self)) in
            banned_words self'
            = list_to_set
                (sample potential_words (10 `min` length potential_words)%nat r1).1))
  ∧ (∃ self (sw tw : word) d now r self' r',
       start_game set_iter self sw tw d now r = Ok (false, self', r')
       ∧ hints_remaining self' ≠ hints_remaining self
       ∧ time_limit self' ≠ time_limit self).
Proof.
  split.
  - intros self sw tw d now r self' r' Hfalse.
    apply start_game_false in Hfalse.
    pose proof (setup_difficulty_fields set_iter self d r) as Hf.
    pose proof (setup_difficulty_banned set_iter self d r) as Hb.
    rewrite <- Hfalse in Hf, Hb. simpl in Hf, Hb.
    destruct Hf as (_ & ? & ? & ? & ? & ? & ? & ?). destruct Hb as [? ?].
    repeat (split; [done |]). done.
  - exists (init ∅), (str "a"), (str "bc"), advanced, 0%float, [].
    eexists _, _. split; [reflexivity |]. simpl. split; discriminate.
Qed.

(** ** The searches read only the corpus and the banned set *)

Section same_index.
Context (set_iter : gset word → list word) (s1 s2 : WordLadderGame).
Hypothesis same_words : word_set s1 = word_set s2.
Hypothesis same_banned : banned_words s1 = banned_words s2.

Lemma is_valid_word_same (w : word) : is_valid_word s1 w = is_valid_word s2 w.
Proof. unfold is_valid_word. by rewrite same_words, same_banned. Qed.

Lemma get_neighbors_same (w : word) : get_neighbors s1 w = get_neighbors s2 w.
Proof. unfold get_neighbors, is_valid_word. by rewrite same_words, same_banned. Qed.

Lemma a_star_loop_same fuel target frontier visited :
  a_star_loop set_iter s1 fuel target frontier visited
  = a_star_loop set_iter s2 fuel target frontier visited.
Proof.
  revert frontier visited. induction fuel as [| fuel IH]; intros frontier visited;
    [done |].
  cbn [a_star_loop]. destruct (heappop frontier) as [[[[[prio c] w] p] rest] |];
    [| done].
  case_bool_decide; [done |]. rewrite get_neighbors_same.
  change (a_star_expand s1) with (a_star_expand s2).
  destruct (a_star_expand s2 _ _ _ _ _). apply IH.
Qed.

Lemma a_star_search_same (start target : word) :
  a_star_search set_iter s1 start target = a_star_search set_iter s2 start target.
Proof.
  unfold a_star_search, search_fuel.
  rewrite !is_valid_word_same, same_words. destruct (negb _); [done |].
  apply a_star_loop_same.
Qed.
End same_index.

Lemma ladder_valid_end self (a b : word) (q : list word) :
  is_valid_word self a = true → ladder self a b q → is_valid_word self b = true.
Proof.
  intros Ha (Hh & Hl & Hc). rewrite last_lookup in Hl.
  destruct q as [| x q]; [done |]. simpl in Hh, Hl.
  destruct q as [| y q _] using rev_ind; [simpl in *; congruence |].
  rewrite length_app in Hl. simpl in Hl.
  replace (length q + 1)%nat with (S (length q)) in Hl by lia.
  destruct (lookup_lt_is_Some_2 (x :: q ++ [y]) (length q)) as [z Hz].
  { simpl. rewrite length_app. simpl. lia. }
  eapply get_neighbors_valid, (chain_lookup _ _ (length q) z b); done.
Qed.

(** ** calculate_score *)


Lemma hint_penalty_nonpos (hf h : Z) : h ≤ 0 → hint_penalty hf h = 0.
Proof.
  intros Hh. unfold hint_penalty. by replace (Z.to_nat h) with 0%nat by lia.
Qed.



Lemma hint_penalty_guard (hf h s : Z) :
  (if 0 <? h then s - hint_penalty hf h else s) = s - hint_penalty hf h.
Proof.
  destruct (Z.ltb_spec 0 h); [done |]. rewrite hint_penalty_nonpos by done. lia.
Qed.


Lemma add_path_bonus_defined (d : difficulty_t) (s e : Z) :
  0 ≤ e →
  ∃ z, add_path_bonus s (Settings.optimal_path_bonus (DIFFICULTY_SETTINGS d)) e
       = inr z.
Proof.
  intros He. unfold add_path_bonus.
  destruct (Z.eqb_spec e 0); [by eexists |].
  destruct (Z.leb_spec e 2); [| by eexists].
  assert (e = 1 ∨ e = 2) as [-> | ->] by lia; destruct d; by eexists.
Qed.

Lemma add_time_component_shift (s b tf : Z) (tl : pynum) (t : float) :
  add_time_component s b tf tl t
  = match add_time_component 0 b tf tl t with
    | inl e => inl e
    | inr z => inr (s + z)
    end.
Proof.
  unfold add_time_component. destruct tl as [limit |].
  - destruct (int_to_float limit) as [e | limit_float]; [done |].
    destruct (limit =? 0); [done |].
    destruct (_ <? 0.5)%float.
    + destruct (py_int _); [done | f_equal; lia].
    + destruct (0.8 <? _)%float; [| f_equal; lia].
      destruct (py_int _); [done | f_equal; lia].
  - destruct (py_int _); [done |]. destruct (py_int _); [done | f_equal; lia].
Qed.

(** C5 — whenever [calculate_score] returns, the score it returns (and
    stores) is an integer greater than or equal to 0; and it does return in
    a session whose start time is recorded, whose path history is non-empty
    and begins with a valid word from which a path to the target exists. *)
Theorem calculate_score_nonneg (set_iter : gset word → list word)
    (self : WordLadderGame) (now : float) :
  (∀ v self', calculate_score set_iter self now = Ok (v, self') →
     0 ≤ v ∧ score self' = v)
  ∧ ((∀ X, set_iter X ≡ₚ elements X) →
     ∀ t0 first rest,
       start_time self = Some t0 →
       path_history self = first :: rest →
       is_valid_word self first = true →
       (∃ q, ladder self first (target_word self) q) →
       time_component_defined self (now - t0)%float →
       ∃ v, calculate_score set_iter self now = Ok (v, set_score self v) ∧ 0 ≤ v).
Proof.
  split.
  - intros v self' Hc. apply calculate_score_Ok in Hc as [-> Hv]. done.
  - intros Hiter t0 first rest Ht0 Hpath Hv [q Hq] [z Hz].
    unfold calculate_score. rewrite Ht0, Hpath.
    destruct (a_star_search_correct set_iter Hiter self first (target_word self)
                Hv (ladder_valid_end _ _ _ _ Hv Hq)) as (r & -> & Hpost).
    destruct r as [p |]; [| by destruct (Hpost q)].
    rewrite <- Hpath.
    destruct (add_path_bonus_defined (difficulty self)
                (Settings.base_score (DIFFICULTY_SETTINGS (difficulty self)))
                (0 `max` (edges (path_history self) - edges p)))
      as [s1 ->]; [lia |].
    rewrite add_time_component_shift, Hz.
    eexists. split; [reflexivity | lia].
Qed.


(** ** suggest_word_pair *)

Lemma choice_elem_of {A} (l : list A) (r r' : rng) (x : A) :
  choice l r = (Some x, r') → x ∈ l.
Proof.
  unfold choice. destruct (draw r) as [n r1]. intros [= Hx _].
  by eapply list_elem_of_lookup_2.
Qed.

Lemma choice_nonempty {A} (l : list A) (r : rng) :
  l ≠ [] → ∃ x r', choice l r = (Some x, r').
Proof.
  intros Hne. unfold choice. destruct (draw r) as [n r1].
  destruct (lookup_lt_is_Some_2 l (n mod length l)) as [x Hx].
  { apply Nat.mod_upper_bound. by destruct l. }
  exists x, r1. by rewrite Hx.
Qed.

Lemma in_range_spec (d : difficulty_t) (n : Z) :
  in_range d n = true →
  match d with
  | beginner => 2 ≤ n ≤ 4
  | advanced => 4 ≤ n ≤ 7
  | challenge => 7 ≤ n
  end.
Proof. unfold in_range. destruct d; simpl; lia. Qed.

Section suggester_facts.
Context (set_iter : gset word → list word) (self : WordLadderGame).

Lemma a_star_search_ladder (start target : word) (path : list word) :
  (∀ X, set_iter X ≡ₚ elements X) →
  a_star_search set_iter self start target = Some (Some path) →
  ladder self start target path.
Proof.
  intros Hiter Hs.
  destruct (is_valid_word self start) eqn:Hv1;
    [| by unfold a_star_search in Hs; rewrite Hv1 in Hs].
  destruct (is_valid_word self target) eqn:Hv2;
    [| by unfold a_star_search in Hs; rewrite Hv1, Hv2 in Hs].
  destruct (a_star_search_correct set_iter Hiter self start target Hv1 Hv2)
    as (r & Hr & Hpost).
  rewrite Hs in Hr. by injection Hr as <-.
Qed.

Lemma suggest_attempt_Some d word_length valid_words r (s t : word) r' :
  suggest_attempt set_iter self d word_length valid_words r = Ok (Some (s, t), r') →
  s ∈ valid_words
  ∧ ∃ path, a_star_search set_iter self s t = Some (Some path)
      ∧ in_range d (edges path) = true.
Proof.
  unfold suggest_attempt.
  destruct (choice valid_words r) as [[start_word |] r1] eqn:Hc; [| done].
  destruct (draw_target_distance d r1) as [target_distance r2].
  case_bool_decide; [done |].
  destruct (filter _ _) as [| x l]; [done |].
  destruct (choice (x :: l) r2) as [[target |] r3]; [| done].
  destruct (a_star_search set_iter self start_word target)
    as [[[| a path] |] |] eqn:Hs; [done | | done..].
  destruct (in_range d (edges (a :: path))) eqn:Hr; [| done].
  intros [= <- <- <-]. split; [by eapply choice_elem_of |].
  by exists (a :: path).
Qed.

Lemma suggest_attempts_Some n d word_length valid_words r (s t : word) r' :
  suggest_attempts set_iter self n d word_length valid_words r
    = Ok (Some (s, t), r') →
  s ∈ valid_words
  ∧ ∃ path, a_star_search set_iter self s t = Some (Some path)
      ∧ in_range d (edges path) = true.
Proof.
  revert r. induction n as [| n IH]; intros r; [done |]. cbn [suggest_attempts].
  destruct (suggest_attempt _ _ _ _ _ _) as [[[[s1 t1] |] r1] | |] eqn:Ha;
    [| by apply IH | done..].
  intros [= <- <- <-]. by eapply suggest_attempt_Some.
Qed.

Lemma suggest_attempts_None n d word_length valid_words r r' :
  suggest_attempts set_iter self n d word_length valid_words r = Ok (None, r')
  ↔ attempts_fail set_iter self d word_length valid_words n r r'.
Proof.
  revert r. induction n as [| n IH]; intros r; cbn [suggest_attempts].
  - split; [intros [= <-]; constructor | by inversion 1].
  - destruct (suggest_attempt _ _ _ _ _ _) as [[[[s1 t1] |] r1] | |] eqn:Ha.
    + split; [done |]. inversion 1; congruence.
    + rewrite IH. split; [by econstructor |].
      intros Hf. inversion Hf as [| n' r0 r2 r3 Hatt Hrest]; subst.
      rewrite Ha in Hatt. by injection Hatt as <-.
    + split; [done |]. inversion 1; congruence.
    + split; [done |]. inversion 1; congruence.
Qed.

Hypothesis set_iter_ok : ∀ X, set_iter X ≡ₚ elements X.

Lemma suggest_attempt_returns d word_length (valid_words : list word) r :
  valid_words ≠ [] →
  ∃ res r', suggest_attempt set_iter self d word_length valid_words r
            = Ok (res, r').
Proof.
  intros Hne. unfold suggest_attempt.
  destruct (choice valid_words r) as [[start_word |] r1] eqn:Hc.
  2: { destruct (choice_nonempty valid_words r Hne) as (x & r2 & Hx). congruence. }
  destruct (draw_target_distance d r1) as [target_distance r2].
  case_bool_decide; [by eexists _, _ |].
  destruct (filter _ _) as [| x l] eqn:Hf; [by eexists _, _ |].
  destruct (choice (x :: l) r2) as [[target |] r3] eqn:Hc2.
  2: { destruct (choice_nonempty (x :: l) r2) as (y & r4 & Hy); [done | congruence]. }
  destruct (a_star_search_returns set_iter set_iter_ok self start_word target)
    as [res ->].
  destruct res as [[| a path] |]; [by eexists _, _ | | by eexists _, _].
  destruct (in_range _ _); by eexists _, _.
Qed.

Lemma suggest_attempts_returns n d word_length (valid_words : list word) r :
  valid_words ≠ [] →
  ∃ res r', suggest_attempts set_iter self n d word_length valid_words r
            = Ok (res, r').
Proof.
  intros Hne. revert r. induction n as [| n IH]; intros r; [by eexists _, _ |].
  cbn [suggest_attempts].
  destruct (suggest_attempt_returns d word_length valid_words r Hne)
    as (res & r' & ->).
  destruct res as [pair |]; [by eexists _, _ | apply IH].
Qed.
End suggester_facts.

(** C4 — whenever [suggest_word_pair] returns a pair, [a_star_search]
    returns a path between the two words whose number of edges lies in
    [2,4] for beginner, in [4,7] for advanced and is at least 7 for
    challenge; it returns [(None, None)] exactly when fewer than two words
    have the drawn length or when 50 attempts in a row have failed; and it
    always returns one or the other. *)
Theorem suggest_word_pair_bounds (set_iter : gset word → list word)
    (self : WordLadderGame) (d : difficulty_t) (r : rng) :
  (∀ (s t : word) r',
     suggest_word_pair set_iter self d r = Ok (Some (s, t), r') →
     ∃ path, a_star_search set_iter self s t = Some (Some path)
       ∧ match d with
         | beginner => 2 ≤ edges path ≤ 4
         | advanced => 4 ≤ edges path ≤ 7
         | challenge => 7 ≤ edges path
         end
       ∧ ((∀ X, set_iter X ≡ₚ elements X) → ladder self s t path))
  ∧ (∀ r',
       suggest_word_pair set_iter self d r = Ok (None, r') ↔
       let '(word_length, r1) := draw_word_length d r in
       let valid_words := words_of_length set_iter self word_length in
       ((length valid_words < 2)%nat ∧ r' = r1)
       ∨ ((2 ≤ length valid_words)%nat
          ∧ attempts_fail set_iter self d word_length valid_words 50 r1 r'))
  ∧ ((∀ X, set_iter X ≡ₚ elements X) →
     ∃ res r', suggest_word_pair set_iter self d r = Ok (res, r')).
Proof.
  unfold suggest_word_pair. destruct (draw_word_length d r) as [word_length r1].
  split; [| split].
  - intros s t r'. case_bool_decide; [done |]. intros Hs.
    apply suggest_attempts_Some in Hs as (Hin & path & Hp & Hr).
    exists path. split; [done |]. split; [by apply in_range_spec |].
    intros Hiter. by apply (a_star_search_ladder set_iter).
  - intros r'. case_bool_decide as Hlen.
    + split; [intros [= <-]; by left | intros [[_ ->] | [? _]]; [done | lia]].
    + rewrite suggest_attempts_None. split; [intros ?; right; split; [lia | done] |].
      intros [[? _] | [_ ?]]; [lia | done].
  - intros Hiter. case_bool_decide as Hlen; [by eexists _, _ |].
    apply suggest_attempts_returns; [done |].
    intros Hnil. rewrite Hnil in Hlen. simpl in Hlen. lia.
Qed.

(** ** The frontier is not keyed by a sequence number *)

(** On the fork corpus the neighbors of "cat" are walked "cot" first; the
    search pops "cab" first all the same, where a sequence-keyed frontier
    pops "cot". *)
Lemma fork_searches :
  elements (get_neighbors fork (str "cat")) = [str "cot"; str "cab"]
  ∧ uniform_cost_search elements fork (str "cat") (str "cob")
    = Some (Some (str <$> ["cat"; "cab"; "cob"]%string))
  ∧ seq_uniform_cost_search elements fork (str "cat") (str "cob")
    = Some (Some (str <$> ["cat"; "cot"; "cob"]%string)).
Proof. repeat split; vm_compute; reflexivity. Qed.

(** C2, as stated, fails: the items of the frontier carry no discovery
    sequence number, and [uniform_cost_search] is not the search keyed by
    [(path_cost_so_far, sequence)]. *)
Lemma uniform_cost_search_not_sequence_keyed :
  ¬ (∀ (set_iter : gset word → list word) (self : WordLadderGame)
       (start target : word),
       (∀ X, set_iter X ≡ₚ elements X) →
       uniform_cost_search set_iter self start target
       = seq_uniform_cost_search set_iter self start target).
Proof.
  intros Hseq.
  specialize (Hseq elements fork (str "cat") (str "cob") (λ X, reflexivity _)).
  destruct fork_searches as (_ & Hcode & Hspec).
  rewrite Hcode, Hspec in Hseq. discriminate Hseq.
Qed.

(** ** The theorems at work on the example corpus *)

Ltac neighbor_by_computation :=
  apply bool_decide_unpack; vm_compute; exact I.

Ltac ladder_by_computation :=
  split; [reflexivity |]; split; [reflexivity |];
  simpl; repeat split; neighbor_by_computation.

Lemma demo_ladder :
  ladder demo (str "cat") (str "dog") (str <$> ["cat"; "cot"; "cog"; "dog"]%string).
Proof. ladder_by_computation. Qed.

Lemma demo_won_ladder :
  ladder demo_won (str "cat") (str "dog")
    (str <$> ["cat"; "cot"; "cog"; "dog"]%string).
Proof. ladder_by_computation. Qed.

(** The end-to-end example of the specification: a shortest path from
    "cat" to "dog" has three edges, and playing cat, cot, cog, dog in ten
    seconds scores the base score plus the full bonus, less the time
    penalty. *)
Example uniform_cost_search_demo :
  uniform_cost_search elements demo (str "cat") (str "dog")
  = Some (Some (str <$> ["cat"; "cag"; "cog"; "dog"]%string)).
Proof. vm_compute. reflexivity. Qed.

Example start_game_demo :
  start_game elements demo (str "cat") (str "dog") beginner 0%float []
  = Ok (true, demo_session, []).
Proof. vm_compute. reflexivity. Qed.

Example play_demo :
  ∃ s1 s2 s3,
    make_move elements demo_session (str "cot") 3%float = Ok (true, s1)
    ∧ make_move elements s1 (str "cog") 6%float = Ok (true, s2)
    ∧ make_move elements s2 (str "dog") 10%float = Ok (true, s3)
    ∧ path_history s3 = str <$> ["cat"; "cot"; "cog"; "dog"]%string
    ∧ score s3 = 1280.
Proof.
  do 3 eexists. repeat split; vm_compute; reflexivity.
Qed.

Lemma uniform_cost_search_shortest_witness :
  ∃ p, uniform_cost_search elements demo (str "cat") (str "dog") = Some (Some p)
    ∧ ladder demo (str "cat") (str "dog") p
    ∧ shortest_distance demo (str "cat") (str "dog") (edges p).
Proof.
  apply (uniform_cost_search_shortest elements demo (str "cat") (str "dog")).
  - intros X. reflexivity.
  - vm_compute. reflexivity.
  - vm_compute. reflexivity.
  - eexists. apply demo_ladder.
Defined.

Lemma searches_deterministic_witness :
  a_star_search elements fork (str "cat") (str "cob")
  = a_star_search (λ X, reverse (elements X)) fork (str "cat") (str "cob")
  ∧ greedy_best_first_search elements fork (str "cat") (str "cob")
    = greedy_best_first_search (λ X, reverse (elements X)) fork (str "cat") (str "cob")
  ∧ uniform_cost_search elements fork (str "cat") (str "cob")
    = uniform_cost_search (λ X, reverse (elements X)) fork (str "cat") (str "cob").
Proof.
  destruct (searches_deterministic elements (λ X, reverse (elements X)) fork
              (str "cat") (str "cob"))
    as (ra & rg & ru & Ha1 & Ha2 & Hg1 & Hg2 & Hu1 & Hu2).
  - intros X. reflexivity.
  - intros X. apply reverse_Permutation.
  - split; [exact (eq_trans Ha1 (eq_sym Ha2)) |].
    split; [exact (eq_trans Hg1 (eq_sym Hg2)) | exact (eq_trans Hu1 (eq_sym Hu2))].
Defined.

Lemma suggest_word_pair_bounds_witness :
  ∃ path, a_star_search elements demo (str "cot") (str "dog") = Some (Some path)
    ∧ 2 ≤ edges path ≤ 4.
Proof.
  destruct (suggest_word_pair_bounds elements demo beginner [0; 1; 0; 0]%nat)
    as (Hpair & _ & _).
  destruct (Hpair (str "cot") (str "dog") []) as (path & Hp & Hr & _).
  { vm_compute. reflexivity. }
  exists path. split; [exact Hp | exact Hr].
Defined.

Lemma calculate_score_nonneg_witness :
  ∃ v, calculate_score elements demo_won 10%float = Ok (v, set_score demo_won v)
    ∧ 0 ≤ v.
Proof.
  destruct (calculate_score_nonneg elements demo_won 10%float) as [_ Hret].
  apply (Hret (λ X, reflexivity _) 0%float (str "cat")
           (str <$> ["cot"; "cog"; "dog"]%string)).
  - reflexivity.
  - reflexivity.
  - vm_compute. reflexivity.
  - eexists. apply demo_won_ladder.
  - eexists. vm_compute. reflexivity.
Defined.


Lemma make_move_validation_witness :
  make_move elements demo_session (str "dog") 1%float = Ok (false, demo_session).
Proof.
  destruct (make_move_validation elements demo_session (str "dog") 1%float)
    as [Hreject _].
  apply Hreject. do 3 right. vm_compute. discriminate.
Defined.

Lemma reachable_session_ok_witness :
  ∃ self, make_move elements demo_session (str "cot") 1%float = Ok (true, self)
    ∧ session_ok self (str "cat").
Proof.
  eexists. split; [vm_compute; reflexivity |].
  apply (reachable_session_ok elements).
  apply (reach_move elements (str "cat") demo_session (str "cot") 1%float).
  - apply (reach_start elements (str "cat") demo (str "cat") (str "dog")
             beginner 0%float [] demo_session []).
    + vm_compute. reflexivity.
    + reflexivity.
  - vm_compute. reflexivity.
Defined.

Lemma start_game_failure_not_atomic_witness :
  ∃ self r,
    start_game elements (init long_corpus) (str "cat") (str "dog") challenge
      0%float [0%nat] = Ok (false, self, r)
    ∧ hints_remaining self = PInt 1
    ∧ banned_words self = list_to_set (str <$> ["planet"; "planes"]%string).
Proof.
  destruct (start_game elements (init long_corpus) (str "cat") (str "dog")
              challenge 0%float [0%nat]) as [[[b self] r] | |] eqn:Hs;
    [| vm_compute in Hs; discriminate..].
  assert (b = false) as -> by (vm_compute in Hs; congruence).
  exists self, r. split; [done |].
  destruct (start_game_failure_not_atomic elements) as [Hfail _].
  destruct (Hfail _ _ _ _ _ _ _ _ Hs) as (_ & Hh & _ & _ & _ & _ & _ & _ & _ & Hb).
  split; [exact Hh |].
  destruct (Hb eq_refl) as (word_length & r1 & Hrand & ->).
  vm_compute in Hrand. injection Hrand as <- <-. vm_compute. reflexivity.
Defined.

(** * The rest of the engine *)

(** ** Letters changed and substitutions *)

Lemma letters_changed_cons (x y : ascii) (a b : word) :
  letters_changed (x :: a) (y :: b)
  = ((if decide (x = y) then 0 else 1) + letters_changed a b)%nat.
Proof.
  unfold letters_changed. simpl. rewrite filter_cons. simpl.
  destruct (decide (x = y)) as [-> | Hne].
  - by rewrite decide_False by (intros H; by apply H).
  - by rewrite decide_True.
Qed.

Lemma letters_changed_refl_iff (a b : word) :
  length a = length b → (letters_changed a b = 0%nat ↔ a = b).
Proof.
  revert b. induction a as [| x a IH]; intros [| y b] Hlen; try done.
  rewrite letters_changed_cons. simpl in Hlen. injection Hlen as Hlen.
  specialize (IH b Hlen). destruct (decide (x = y)) as [-> | Hne].
  - simpl. rewrite IH. split; [by intros -> | by intros [= ->]].
  - split; [lia | by intros [= -> ->]].
Qed.

(** One letter changed, read as a substitution. *)
Lemma letters_changed_one (a b : word) :
  length a = length b → letters_changed a b = 1%nat →
  ∃ i c, (i < length b)%nat ∧ a !! i = Some c ∧ a = substitute b i c ∧ a ≠ b.
Proof.
  revert b. induction a as [| x a IH]; intros [| y b] Hlen; try done.
  rewrite letters_changed_cons. simpl in Hlen. injection Hlen as Hlen.
  destruct (decide (x = y)) as [-> | Hne]; simpl.
  - intros Hd. destruct (IH b Hlen Hd) as (i & c & Hi & Hc & Hs & Hab).
    exists (S i), c. split; [lia |]. split; [done |]. split.
    + unfold substitute in *. simpl. by f_equal.
    + by intros [= ->].
  - intros Hd. assert (letters_changed a b = 0%nat) as H0 by lia.
    apply letters_changed_refl_iff in H0 as ->; [| done].
    exists 0%nat, x. split; [lia |]. split; [done |]. split.
    + unfold substitute. simpl. by rewrite drop_0.
    + by intros [= ->].
Qed.

Lemma letters_changed_substitute (b : word) (i : nat) (c : ascii) :
  (i < length b)%nat → substitute b i c ≠ b →
  letters_changed (substitute b i c) b = 1%nat.
Proof.
  revert i. induction b as [| y b IH]; intros i Hi Hne; [simpl in Hi; lia |].
  destruct i as [| i].
  - unfold substitute in *. simpl in *. rewrite drop_0 in *.
    rewrite letters_changed_cons. rewrite decide_False by (intros ->; done).
    assert (letters_changed b b = 0%nat) as -> by (by apply letters_changed_refl_iff).
    done.
  - unfold substitute in *. simpl in *. rewrite letters_changed_cons.
    rewrite decide_True by done. simpl. apply IH; [lia |]. congruence.
Qed.

(** ** greedy_best_first_search is sound and complete *)

Section greedy_correct.
Context (set_iter : gset word → list word).
Hypothesis set_iter_ok : ∀ X, set_iter X ≡ₚ elements X.
Context (self : WordLadderGame) (start target : word).

Lemma greedy_inv_perm fr1 fr2 visited :
  fr1 ≡ₚ fr2 → greedy_inv self start target fr1 visited →
  greedy_inv self start target fr2 visited.
Proof.
  intros Hp [Hi Hv Hs]. split; [| | done].
  - intros prio w p Hin. apply (Hi prio). by rewrite Hp.
  - intros w Hw. destruct (Hv w Hw) as [? | (prio & p & Hin)]; [by left |].
    right. exists prio, p. by rewrite <- Hp.
Qed.

Lemma greedy_inv_step prio w p rest visited ns :
  greedy_inv self start target ((prio, w, p) :: rest) visited →
  w ≠ target → NoDup ns → (∀ n, n ∈ ns ↔ n ∈ get_neighbors self w) →
  greedy_inv self start target
    (rest ++ ((λ n, (heuristic self n target, n, p ++ [n]))
              <$> filter (λ n, n ∉ visited) ns))
    (visited ∪ list_to_set (filter (λ n, n ∉ visited) ns)).
Proof.
  intros [Hi Hv Hs] Hwt Hnd Hns.
  destruct (Hi prio w p) as (Hlad & Hndp & Hpv); [left |].
  split.
  - intros prio' w' p' [Hin | Hin]%elem_of_app.
    + destruct (Hi prio' w' p') as (? & ? & Hsub); [by right |].
      split; [done |]. split; [done |]. intros x Hx. apply elem_of_union_l. auto.
    + apply list_elem_of_fmap in Hin as (n & [= -> -> ->] & Hn).
      apply list_elem_of_filter in Hn as [Hnv Hn]. apply Hns in Hn.
      split; [by eapply ladder_snoc |]. split.
      * apply NoDup_app. split; [done |]. split; [| apply NoDup_singleton].
        intros x Hx ->%list_elem_of_singleton. apply Hnv. by apply Hpv.
      * intros x [Hx | ->%list_elem_of_singleton]%elem_of_app.
        -- apply elem_of_union_l. by apply Hpv.
        -- apply elem_of_union_r, elem_of_list_to_set.
           apply list_elem_of_filter. split; [done | by apply Hns].
  - intros x [Hx | Hx]%elem_of_union.
    + destruct (decide (x = w)) as [-> | Hxw].
      * left. split; [done |]. intros n Hn.
        destruct (decide (n ∈ visited)) as [? | Hnv]; [by apply elem_of_union_l |].
        apply elem_of_union_r, elem_of_list_to_set, list_elem_of_filter.
        split; [done | by apply Hns].
      * destruct (Hv x Hx) as [[Hne Hcl] | (prio' & p' & Hin)].
        -- left. split; [done |]. intros n Hn. apply elem_of_union_l. by apply Hcl.
        -- right. apply elem_of_cons in Hin as [Heq | Hin]; [congruence |].
           exists prio', p'. apply elem_of_app. by left.
    + apply elem_of_list_to_set in Hx. right.
      exists (heuristic self x target), (p ++ [x]). apply elem_of_app. right.
      apply list_elem_of_fmap. by exists x.
  - by apply elem_of_union_l.
Qed.

Lemma greedy_closed_no_ladder visited :
  greedy_inv self start target [] visited → ∀ q, ¬ ladder self start target q.
Proof.
  intros [_ Hv Hs] q (Hh & Hl & Hc).
  assert (Hall : ∀ (i : nat) (x : word), q !! i = Some x → x ∈ visited).
  { induction i as [| i IH]; intros x Hx.
    - rewrite head_lookup in Hh. congruence.
    - destruct (lookup_lt_is_Some_2 q i) as [y Hy].
      { apply lookup_lt_Some in Hx. lia. }
      destruct (Hv y (IH y Hy)) as [[_ Hcl] | (prio & p & Hin)];
        [| by apply elem_of_nil in Hin].
      apply Hcl. by eapply chain_lookup. }
  rewrite last_lookup in Hl.
  destruct (Hv target (Hall _ _ Hl)) as [[Hne _] | (prio & p & Hin)];
    [done | by apply elem_of_nil in Hin].
Qed.

Lemma greedy_loop_post (fuel : nat) frontier visited r :
  greedy_inv self start target frontier visited →
  greedy_loop set_iter self fuel target frontier visited = Some r →
  match r with
  | Some p => ladder self start target p ∧ NoDup p
  | None => ∀ q, ¬ ladder self start target q
  end.
Proof.
  revert frontier visited.
  induction fuel as [| fuel IH]; intros frontier visited Hinv; [done |].
  cbn [greedy_loop].
  destruct (heappop frontier) as [[[[prio w] p] rest] |] eqn:Hpop.
  - apply heappop_Some in Hpop as (Hin & Hperm & _).
    case_bool_decide as Hw.
    + subst w. intros [= <-].
      by destruct (ginv_items _ _ _ _ _ Hinv _ _ _ Hin) as (? & ? & _).
    + destruct (set_iter_neighbors set_iter set_iter_ok self w) as [Hnd Hns].
      rewrite greedy_expand_spec by done.
      apply IH. apply (greedy_inv_step prio w); [| done..].
      by apply (greedy_inv_perm frontier).
  - apply heappop_None in Hpop as ->. intros [= <-].
    by eapply greedy_closed_no_ladder.
Qed.

Lemma greedy_best_first_search_correct :
  is_valid_word self start = true → is_valid_word self target = true →
  ∃ r, greedy_best_first_search set_iter self start target = Some r
    ∧ match r with
      | Some p => ladder self start target p ∧ NoDup p
      | None => ∀ q, ¬ ladder self start target q
      end.
Proof.
  intros Hs Ht.
  destruct (greedy_best_first_search_returns set_iter set_iter_ok self start target)
    as [r Hr].
  exists r. split; [done |].
  unfold greedy_best_first_search in Hr. rewrite Hs, Ht in Hr. simpl in Hr.
  eapply greedy_loop_post; [| exact Hr]. split.
  - intros prio w p [= -> -> ->]%list_elem_of_singleton.
    split; [apply ladder_singleton |]. split; [apply NoDup_singleton |].
    intros x ->%list_elem_of_singleton. by apply elem_of_singleton.
  - intros w ->%elem_of_singleton. right. eexists _, _. by left.
  - by apply elem_of_singleton.
Qed.

(** The paths of the cost-ordered searches repeat no word. *)
Lemma a_star_loop_NoDup (fuel : nat) frontier visited p :
  search_inv self start target (item_core <$> frontier) visited →
  a_star_loop set_iter self fuel target frontier visited = Some (Some p) →
  NoDup p.
Proof.
  revert frontier visited.
  induction fuel as [| fuel IH]; intros frontier visited Hinv; [done |].
  cbn [a_star_loop].
  destruct (heappop frontier) as [[[[[prio c] w] p'] rest] |] eqn:Hpop; [| done].
  apply heappop_Some in Hpop as (Hin & Hperm & _).
  case_bool_decide as Hw.
  - intros [= <-]. apply (list_elem_of_fmap_2 item_core) in Hin.
    by destruct (inv_items _ _ _ _ _ Hinv _ Hin) as (_ & _ & ? & _).
  - destruct (set_iter_neighbors set_iter set_iter_ok self w) as [Hnd Hns].
    rewrite a_star_expand_spec by done.
    apply (search_inv_perm _ _ _ _ (item_core <$> (prio, c, w, p') :: rest)) in Hinv;
      [| by rewrite Hperm].
    rewrite fmap_cons in Hinv. simpl in Hinv.
    destruct (search_inv_step _ _ _ _ _ _ _ _ _ Hinv Hw Hnd Hns) as [Hinv' _].
    apply IH. rewrite fmap_app, <- list_fmap_compose. exact Hinv'.
Qed.

Lemma ucs_loop_NoDup (fuel : nat) frontier visited p :
  search_inv self start target frontier visited →
  ucs_loop set_iter self fuel target frontier visited = Some (Some p) →
  NoDup p.
Proof.
  revert frontier visited.
  induction fuel as [| fuel IH]; intros frontier visited Hinv; [done |].
  cbn [ucs_loop].
  destruct (heappop frontier) as [[[[c w] p'] rest] |] eqn:Hpop; [| done].
  apply heappop_Some in Hpop as (Hin & Hperm & _).
  case_bool_decide as Hw.
  - intros [= <-].
    by destruct (inv_items _ _ _ _ _ Hinv _ Hin) as (_ & _ & ? & _).
  - destruct (set_iter_neighbors set_iter set_iter_ok self w) as [Hnd Hns].
    rewrite ucs_expand_spec by done.
    apply (search_inv_perm _ _ _ _ _ _ Hperm) in Hinv.
    destruct (search_inv_step _ _ _ _ _ _ _ _ _ Hinv Hw Hnd Hns) as [Hinv' _].
    by apply IH.
Qed.

Lemma a_star_search_NoDup p :
  a_star_search set_iter self start target = Some (Some p) → NoDup p.
Proof.
  unfold a_star_search.
  destruct (is_valid_word self start) eqn:Hs; [| done].
  destruct (is_valid_word self target); [| done]. simpl.
  apply a_star_loop_NoDup. simpl. by apply search_inv_init.
Qed.

Lemma uniform_cost_search_NoDup p :
  uniform_cost_search set_iter self start target = Some (Some p) → NoDup p.
Proof.
  unfold uniform_cost_search.
  destruct (is_valid_word self start) eqn:Hs; [| done].
  destruct (is_valid_word self target); [| done]. simpl.
  apply ucs_loop_NoDup. by apply search_inv_init.
Qed.
End greedy_correct.

(** ** The three searches, side by side *)

Section search_results.
Context (set_iter : gset word → list word).
Hypothesis set_iter_ok : ∀ X, set_iter X ≡ₚ elements X.
Context (self : WordLadderGame) (start target : word).

Lemma greedy_best_first_search_ladder (path : list word) :
  greedy_best_first_search set_iter self start target = Some (Some path) →
  is_valid_word self start = true ∧ is_valid_word self target = true
  ∧ ladder self start target path.
Proof.
  intros Hs.
  destruct (is_valid_word self start) eqn:Hv1;
    [| by unfold greedy_best_first_search in Hs; rewrite Hv1 in Hs].
  destruct (is_valid_word self target) eqn:Hv2;
    [| by unfold greedy_best_first_search in Hs; rewrite Hv1, Hv2 in Hs].
  destruct (greedy_best_first_search_correct set_iter set_iter_ok self start target
              Hv1 Hv2) as (r & Hr & Hpost).
  rewrite Hs in Hr. injection Hr as <-. by destruct Hpost.
Qed.

Lemma uniform_cost_search_ladder (path : list word) :
  uniform_cost_search set_iter self start target = Some (Some path) →
  is_valid_word self start = true ∧ is_valid_word self target = true
  ∧ ladder self start target path
  ∧ ∀ q, ladder self start target q → edges path ≤ edges q.
Proof.
  intros Hs.
  destruct (is_valid_word self start) eqn:Hv1;
    [| by unfold uniform_cost_search in Hs; rewrite Hv1 in Hs].
  destruct (is_valid_word self target) eqn:Hv2;
    [| by unfold uniform_cost_search in Hs; rewrite Hv1, Hv2 in Hs].
  destruct (uniform_cost_search_correct set_iter set_iter_ok self start target
              Hv1 Hv2) as (r & Hr & Hpost).
  rewrite Hs in Hr. injection Hr as <-. by destruct Hpost.
Qed.

Lemma a_star_search_valid (path : list word) :
  a_star_search set_iter self start target = Some (Some path) →
  is_valid_word self start = true ∧ is_valid_word self target = true.
Proof.
  unfold a_star_search.
  destruct (is_valid_word self start); [| done].
  by destruct (is_valid_word self target).
Qed.
End search_results.

Lemma a_star_search_iter (set_iter : gset word → list word) self (start target : word) :
  (∀ X, set_iter X ≡ₚ elements X) →
  a_star_search set_iter self start target = a_star_search elements self start target.
Proof.
  intros Hiter. unfold a_star_search. destruct (negb _); [done |].
  apply a_star_loop_perm; [done | by intros X | done].
Qed.

(** X1 — for valid words, [a_star_search] returns a path exactly when the
    target is reachable from the start: what it returns is a path of the
    one-letter graph from [start] to [target] that repeats no word, and it
    returns [None] only when no path exists.  The path need not be a
    shortest one: on the detour corpus it has three edges where a path of
    two exists. *)
Theorem a_star_search_sound_complete (set_iter : gset word → list word) :
  (∀ X, set_iter X ≡ₚ elements X) →
  (∀ self (start target : word),
     is_valid_word self start = true → is_valid_word self target = true →
     ∃ r, a_star_search set_iter self start target = Some r
       ∧ match r with
         | Some p => ladder self start target p ∧ NoDup p
         | None => ∀ q, ¬ ladder self start target q
         end)
  ∧ (∃ self (start target : word) p q,
       a_star_search set_iter self start target = Some (Some p)
       ∧ ladder self start target q ∧ edges q < edges p).
Proof.
  intros Hiter. split.
  - intros self start target Hs Ht.
    destruct (a_star_search_correct set_iter Hiter self start target Hs Ht)
      as (r & Hr & Hpost).
    exists r. split; [done |]. destruct r as [p |]; [| done].
    split; [done |]. by eapply a_star_search_NoDup.
  - exists detour, (str "azz"), (str "zaz"),
      (str <$> ["azz"; "abz"; "zbz"; "zaz"]%string),
      (str <$> ["azz"; "zzz"; "zaz"]%string).
    split; [| split].
    + rewrite a_star_search_iter by done. vm_compute. reflexivity.
    + ladder_by_computation.
    + vm_compute. reflexivity.
Qed.

Lemma a_star_search_sound_complete_witness :
  ∃ r, a_star_search elements demo (str "cat") (str "dog") = Some r
    ∧ match r with
      | Some p => ladder demo (str "cat") (str "dog") p ∧ NoDup p
      | None => ∀ q, ¬ ladder demo (str "cat") (str "dog") q
      end.
Proof.
  destruct (a_star_search_sound_complete elements) as [Hsound _].
  - intros X. reflexivity.
  - apply Hsound; vm_compute; reflexivity.
Defined.

(** X2 — for valid words, [greedy_best_first_search] returns a path from
    [start] to [target] that repeats no word when the target is reachable,
    and [None] exactly when it is not. *)
Theorem greedy_best_first_search_sound_complete
    (set_iter : gset word → list word) (self : WordLadderGame)
    (start target : word) :
  (∀ X, set_iter X ≡ₚ elements X) →
  is_valid_word self start = true → is_valid_word self target = true →
  ∃ r, greedy_best_first_search set_iter self start target = Some r
    ∧ match r with
      | Some p => ladder self start target p ∧ NoDup p
      | None => ∀ q, ¬ ladder self start target q
      end.
Proof. intros Hiter. by apply greedy_best_first_search_correct. Qed.

Lemma greedy_best_first_search_sound_complete_witness :
  ∃ r, greedy_best_first_search elements demo (str "cat") (str "dog") = Some r
    ∧ match r with
      | Some p => ladder demo (str "cat") (str "dog") p ∧ NoDup p
      | None => ∀ q, ¬ ladder demo (str "cat") (str "dog") q
      end.
Proof.
  apply (greedy_best_first_search_sound_complete elements demo).
  - intros X. reflexivity.
  - vm_compute. reflexivity.
  - vm_compute. reflexivity.
Defined.

(** X3 — [prepare_algorithm_paths] leaves the dictionary alone when the
    path history is empty; otherwise it stores the player's path under
    "user" and the result of each search from the first word of the history
    to the target under "a_star", "greedy" and "uniform".  The three
    searches agree on whether a path exists: either all three entries are
    the empty list, or all three are paths from the start to the target, and
    then the "uniform" path is no longer than the other two. *)
Theorem prepare_algorithm_paths_agree (set_iter : gset word → list word)
    (game : WordLadderGame) (graph_paths : gmap string (list word)) :
  (∀ X, set_iter X ≡ₚ elements X) →
  (path_history game = [] →
     prepare_algorithm_paths set_iter game graph_paths = Some graph_paths)
  ∧ (∀ first rest, path_history game = first :: rest →
     ∃ a g u,
       prepare_algorithm_paths set_iter game graph_paths
       = Some (<["uniform"%string := u]> (<["greedy"%string := g]>
                (<["a_star"%string := a]>
                  (<["user"%string := path_history game]> graph_paths))))
       ∧ ((a = [] ∧ g = [] ∧ u = [])
          ∨ (ladder game first (target_word game) a
             ∧ ladder game first (target_word game) g
             ∧ ladder game first (target_word game) u
             ∧ (length u ≤ length a)%nat ∧ (length u ≤ length g)%nat))).
Proof.
  intros Hiter. unfold prepare_algorithm_paths. split; [by intros -> |].
  intros first rest Hp. rewrite Hp. rewrite <- Hp.
  destruct (is_valid_word game first) eqn:Hv1.
  2: { unfold a_star_search, greedy_best_first_search, uniform_cost_search.
       rewrite Hv1. simpl. exists [], [], []. split; [done | by left]. }
  destruct (is_valid_word game (target_word game)) eqn:Hv2.
  2: { unfold a_star_search, greedy_best_first_search, uniform_cost_search.
       rewrite Hv1, Hv2. simpl. exists [], [], []. split; [done | by left]. }
  destruct (a_star_search_correct set_iter Hiter game first (target_word game)
              Hv1 Hv2) as (ra & -> & Ha).
  destruct (greedy_best_first_search_correct set_iter Hiter game first
              (target_word game) Hv1 Hv2) as (rg & -> & Hg).
  destruct (uniform_cost_search_correct set_iter Hiter game first
              (target_word game) Hv1 Hv2) as (ru & -> & Hu).
  simpl. exists (default [] ra), (default [] rg), (default [] ru).
  split; [done |].
  destruct ru as [u |].
  - destruct Hu as [Hu Hmin].
    destruct ra as [a |]; [| by destruct (Ha u)].
    destruct rg as [g |]; [| by destruct (Hg u)].
    destruct Hg as [Hg _]. right. simpl. do 3 (split; [done |]).
    pose proof (Hmin a Ha) as Hle1. pose proof (Hmin g Hg) as Hle2.
    unfold edges in Hle1, Hle2. lia.
  - destruct ra as [a |]; [by destruct (Hu a) |].
    destruct rg as [g |]; [destruct Hg as [Hg _]; by destruct (Hu g) |].
    by left.
Qed.

Lemma prepare_algorithm_paths_agree_witness :
  ∃ a g u,
    prepare_algorithm_paths elements demo_session ∅
    = Some (<["uniform"%string := u]> (<["greedy"%string := g]>
             (<["a_star"%string := a]>
               (<["user"%string := path_history demo_session]> ∅))))
    ∧ ((a = [] ∧ g = [] ∧ u = [])
       ∨ (ladder demo_session (str "cat") (target_word demo_session) a
          ∧ ladder demo_session (str "cat") (target_word demo_session) g
          ∧ ladder demo_session (str "cat") (target_word demo_session) u
          ∧ (length u ≤ length a)%nat ∧ (length u ≤ length g)%nat)).
Proof.
  destruct (prepare_algorithm_paths_agree elements demo_session ∅) as [_ H].
  - intros X. reflexivity.
  - apply (H (str "cat") []). reflexivity.
Defined.

(** ** More on ladders *)

Lemma ladder_cons self (a b t : word) (q : list word) :
  b ∈ get_neighbors self a → ladder self b t q → ladder self a t (a :: q).
Proof.
  intros Hab (Hh & Hl & Hc). destruct q as [| x q]; [done |].
  simpl in Hh. injection Hh as ->. split; [done |]. split; [| done].
  exact Hl.
Qed.

Lemma ladder_tail self (a t x b : word) (q : list word) :
  ladder self a t (x :: b :: q) →
  x = a ∧ b ∈ get_neighbors self a ∧ ladder self b t (b :: q).
Proof.
  intros (Hh & Hl & Hab & Hc). simpl in Hh. injection Hh as ->.
  split; [done |]. split; [done |]. split; [done |]. split; [| done].
  exact Hl.
Qed.

Lemma ladder_nonempty self (a t : word) (q : list word) :
  ladder self a t q → ∃ q', q = a :: q'.
Proof. intros (Hh & _). destruct q as [| x q]; [done |]. injection Hh as ->. by eexists. Qed.

Lemma ladder_two self (a t : word) (q : list word) :
  ladder self a t q → a ≠ t → ∃ b q', q = a :: b :: q'.
Proof.
  intros Hq Hne. destruct (ladder_nonempty _ _ _ _ Hq) as [q' ->].
  destruct q' as [| b q']; [| by eexists _, _].
  destruct Hq as (_ & Hl & _). simpl in Hl. congruence.
Qed.

Lemma chain_same (s1 s2 : WordLadderGame) (q : list word) :
  word_set s1 = word_set s2 → banned_words s1 = banned_words s2 →
  chain s1 q → chain s2 q.
Proof.
  intros Hw Hb. induction q as [| a q IH]; [done |].
  destruct q as [| b q]; [done |]. intros [Hab Hc]. split; [| by apply IH].
  by rewrite <- (get_neighbors_same s1 s2 Hw Hb).
Qed.

Lemma ladder_same (s1 s2 : WordLadderGame) (a b : word) (q : list word) :
  word_set s1 = word_set s2 → banned_words s1 = banned_words s2 →
  ladder s1 a b q → ladder s2 a b q.
Proof. intros Hw Hb (? & ? & ?). repeat split; [done.. |]. by eapply chain_same. Qed.

Lemma ladder_is_word self (a b : word) (q : list word) :
  is_word a = true → ladder self a b q → ∀ x, x ∈ q → is_word x = true.
Proof.
  intros Ha (Hh & _ & Hc) x Hx. apply list_elem_of_lookup in Hx as [i Hi].
  revert x Hi. induction i as [| i IH]; intros x Hi.
  - rewrite head_lookup in Hh. congruence.
  - destruct (lookup_lt_is_Some_2 q i) as [y Hy]; [apply lookup_lt_Some in Hi; lia |].
    eapply get_neighbors_is_word; [by apply IH |]. by eapply chain_lookup.
Qed.

Lemma ladder_length self (a b : word) (q : list word) :
  ladder self a b q → ∀ x, x ∈ q → length x = length a.
Proof.
  intros (Hh & _ & Hc) x Hx. apply list_elem_of_lookup in Hx as [i Hi].
  revert x Hi. induction i as [| i IH]; intros x Hi.
  - rewrite head_lookup in Hh. congruence.
  - destruct (lookup_lt_is_Some_2 q i) as [y Hy]; [apply lookup_lt_Some in Hi; lia |].
    rewrite <- (IH y Hy). eapply get_neighbors_length. by eapply chain_lookup.
Qed.

Lemma ladder_last_elem self (a b : word) (q : list word) :
  ladder self a b q → b ∈ q.
Proof.
  intros (_ & Hl & _). rewrite last_lookup in Hl. by eapply list_elem_of_lookup_2.
Qed.

(** ** make_move and the neighbor relation *)

Section moves.
Context (set_iter : gset word → list word).

Lemma make_move_neighbor self (new_word : word) :
  corpus_ok self →
  is_valid_word self (lower new_word) = true →
  length (lower new_word) = length (current_word self) →
  letters_changed (lower new_word) (current_word self) = 1%nat →
  lower new_word ∈ get_neighbors self (current_word self).
Proof.
  intros Hcorpus Hv Hlen Hd.
  destruct (letters_changed_one _ _ Hlen Hd) as (i & c & Hi & Hc & Hs & Hne).
  apply elem_of_get_neighbors. exists i, c. split; [done |].
  destruct (is_valid_word_lower_elem _ _ Hv) as [Hin Hnb].
  split; [| done].
  apply (proj1 (is_word_spec (lower new_word)) (Hcorpus _ Hin)).
  by eapply list_elem_of_lookup_2.
Qed.

Lemma neighbor_make_move self (n : word) :
  n ∈ get_neighbors self (current_word self) →
  is_valid_word self n = true
  ∧ length n = length (current_word self)
  ∧ letters_changed n (current_word self) = 1%nat.
Proof.
  intros Hn. split; [by eapply get_neighbors_valid |].
  split; [by eapply get_neighbors_length |].
  apply elem_of_get_neighbors in Hn as (i & c & Hi & _ & -> & Hne & _).
  by apply letters_changed_substitute.
Qed.

Lemma make_move_false self new_word now self' :
  make_move set_iter self new_word now = Ok (false, self') → self' = self.
Proof.
  unfold make_move. destruct (negb _); [by intros [= <-] |].
  case_bool_decide; [by intros [= <-] |]. case_bool_decide; [by intros [= <-] |].
  case_bool_decide; [| done].
  by destruct (calculate_score _ _ _) as [[v s] | |].
Qed.

Lemma make_move_profile self new_word now b self' :
  make_move set_iter self new_word now = Ok (b, self') →
  same_profile self self'
  ∧ hints_used self' = hints_used self
  ∧ hints_remaining self' = hints_remaining self.
Proof.
  unfold make_move, same_profile. destruct (negb _); [by intros [= <- <-] |].
  case_bool_decide; [by intros [= <- <-] |]. case_bool_decide; [by intros [= <- <-] |].
  case_bool_decide.
  - destruct (calculate_score _ _ _) as [[v s] | |] eqn:Hc; [| done..].
    intros [= <- <-]. by apply calculate_score_Ok in Hc as [-> _].
  - by intros [= <- <-].
Qed.
End moves.

Lemma corpus_ok_elements self :
  forallb is_word (elements (word_set self)) = true → corpus_ok self.
Proof.
  intros H w Hw. rewrite forallb_forall in H. apply H.
  by apply list_elem_of_In, elem_of_elements.
Qed.

Lemma make_move_of_neighbor (set_iter : gset word → list word)
    (self : WordLadderGame) (new_word : word) (now : float) :
  lower new_word ∈ get_neighbors self (current_word self) →
  (∀ s, make_move set_iter self new_word now ≠ Ok (false, s))
  ∧ (lower new_word ≠ target_word self →
     ∃ s, make_move set_iter self new_word now = Ok (true, s)
       ∧ current_word s = lower new_word
       ∧ path_history s = path_history self ++ [lower new_word]).
Proof.
  intros Hn. destruct (neighbor_make_move _ _ Hn) as (Hv & Hlen & Hd).
  unfold make_move. rewrite Hv. simpl.
  rewrite bool_decide_eq_false_2 by (intros H; by apply H).
  rewrite bool_decide_eq_false_2 by (intros H; by apply H).
  split.
  - intros s. case_bool_decide; [| done].
    by destruct (calculate_score _ _ _) as [[v s'] | |].
  - intros Hne. rewrite bool_decide_eq_false_2 by done. by eexists.
Qed.

(** X4 — on a corpus of lowercase words, [make_move] accepts exactly the
    neighbors of the current word: it returns false, leaving the session
    as it is, when the lower-cased word is not in [get_neighbors] of the
    current word; for a neighbor it never returns false, and for one that
    is not the target it returns true with the word appended to the path. *)
Theorem make_move_accepts_neighbors (set_iter : gset word → list word)
    (self : WordLadderGame) (new_word : word) (now : float) :
  corpus_ok self →
  (lower new_word ∉ get_neighbors self (current_word self) →
     make_move set_iter self new_word now = Ok (false, self))
  ∧ (lower new_word ∈ get_neighbors self (current_word self) →
     (∀ s, make_move set_iter self new_word now ≠ Ok (false, s))
     ∧ (lower new_word ≠ target_word self →
        ∃ s, make_move set_iter self new_word now = Ok (true, s)
          ∧ current_word s = lower new_word
          ∧ path_history s = path_history self ++ [lower new_word])).
Proof.
  intros Hcorpus. split.
  - intros Hn. unfold make_move.
    destruct (is_valid_word self (lower new_word)) eqn:Hv; [| done]. simpl.
    case_bool_decide as Hlen; [done |]. case_bool_decide as Hd; [done |].
    destruct Hn. apply make_move_neighbor; [done.. | |].
    + by destruct (decide (length (lower new_word) = length (current_word self))).
    + by destruct (decide (letters_changed (lower new_word) (current_word self) = 1%nat)).
  - apply make_move_of_neighbor.
Qed.

Lemma demo_session_corpus_ok : corpus_ok demo_session.
Proof. apply corpus_ok_elements. vm_compute. reflexivity. Qed.

Lemma make_move_accepts_neighbors_witness :
  make_move elements demo_session (str "dog") 1%float = Ok (false, demo_session)
  ∧ ∃ s, make_move elements demo_session (str "COT") 1%float = Ok (true, s)
      ∧ current_word s = str "cot"
      ∧ path_history s = [str "cat"; str "cot"].
Proof.
  split.
  - destruct (make_move_accepts_neighbors elements demo_session (str "dog") 1%float
                demo_session_corpus_ok) as [Hrej _].
    apply Hrej. apply (bool_decide_unpack
      (lower (str "dog") ∉ get_neighbors demo_session (current_word demo_session))).
    vm_compute. exact I.
  - destruct (make_move_accepts_neighbors elements demo_session (str "COT") 1%float
                demo_session_corpus_ok) as [_ Hacc].
    destruct Hacc as [_ Hacc].
    + apply (bool_decide_unpack
        (lower (str "COT") ∈ get_neighbors demo_session (current_word demo_session))).
      vm_compute. exact I.
    + apply Hacc. vm_compute. discriminate.
Defined.

(** ** What a successful start_game leaves *)

Section start.
Context (set_iter : gset word → list word).

Lemma start_game_true_search self0 (sw tw : word) d now r self r' :
  start_game set_iter self0 sw tw d now r = Ok (true, self, r') →
  length (lower sw) = length (lower tw)
  ∧ (∃ path, a_star_search set_iter self (lower sw) (lower tw) = Some (Some path)
       ∧ out_of_range d (edges path) = false)
  ∧ word_set self = word_set self0
  ∧ banned_words self = banned_words (setup_difficulty set_iter self0 d r).1
  ∧ difficulty self = d
  ∧ hints_remaining self = PInt (Settings.hint_limit (DIFFICULTY_SETTINGS d))
  ∧ time_limit self = Settings.time_limit (DIFFICULTY_SETTINGS d)
  ∧ score self = 0.
Proof.
  unfold start_game.
  pose proof (setup_difficulty_fields set_iter self0 d r) as Hf.
  assert (Hws : word_set (setup_difficulty set_iter self0 d r).1 = word_set self0).
  { unfold setup_difficulty. by destruct (if bool_decide (d = challenge) then _ else _). }
  destruct (setup_difficulty _ _ _ _) as [s1 r1]. simpl in Hf, Hws.
  destruct Hf as (Hd & Hh & Ht & _).
  case_bool_decide as Hlen; [done |].
  destruct (negb _); [done |].
  destruct (a_star_search set_iter s1 (lower sw) (lower tw))
    as [[[| a path] |] |] eqn:Hs; [done | | done..].
  destruct (out_of_range d (edges (a :: path))) eqn:Hr; [done |].
  intros [= <- <-]. simpl.
  split; [by destruct (decide (length (lower sw) = length (lower tw))) |].
  split; [| done].
  exists (a :: path). split; [| done]. rewrite <- Hs.
  by apply a_star_search_same.
Qed.
End start.

(** ** get_hint *)

Section hints.
Context (set_iter : gset word → list word).

Lemma get_hint_no_hint self algorithm :
  current_word self = target_word self ∨ cmp (hints_remaining self) (PInt 0) ≠ Gt →
  get_hint set_iter self algorithm = Ok (None, self).
Proof.
  intros H. unfold get_hint.
  destruct H as [H | H].
  - by rewrite (bool_decide_eq_true_2 _ H).
  - rewrite (bool_decide_eq_true_2 _ H). by rewrite orb_true_r.
Qed.

(** A hint is charged before the search runs. *)
Lemma get_hint_charged self algorithm hint self' :
  current_word self ≠ target_word self →
  cmp (hints_remaining self) (PInt 0) = Gt →
  get_hint set_iter self algorithm = Ok (hint, self') →
  same_profile self self'
  ∧ current_word self' = current_word self
  ∧ path_history self' = path_history self
  ∧ score self' = score self
  ∧ hints_used self' = hints_used self + 1
  ∧ hints_remaining self' = pynum_add (hints_remaining self) (PInt (-1)).
Proof.
  intros Hne Hgt. unfold get_hint, same_profile.
  rewrite (bool_decide_eq_false_2 _ Hne).
  rewrite bool_decide_eq_false_2 by (intros H; by apply H). simpl.
  destruct (if bool_decide (algorithm = str "greedy") then _ else _)
    as [[[| x [| h path]] |] |]; [| | | | done]; by intros [= <- <-].
Qed.

Lemma get_hint_profile self algorithm hint self' :
  get_hint set_iter self algorithm = Ok (hint, self') →
  same_profile self self'
  ∧ current_word self' = current_word self
  ∧ path_history self' = path_history self.
Proof.
  intros Hg.
  destruct (decide (current_word self = target_word self)) as [He | Hne].
  { rewrite get_hint_no_hint in Hg by (by left). by injection Hg as <- <-. }
  destruct (decide (cmp (hints_remaining self) (PInt 0) = Gt)) as [Hgt | Hle].
  - by destruct (get_hint_charged _ _ _ _ Hne Hgt Hg) as (? & ? & ? & _).
  - rewrite get_hint_no_hint in Hg by (by right). by injection Hg as <- <-.
Qed.

Hypothesis set_iter_ok : ∀ X, set_iter X ≡ₚ elements X.

(** The word handed out is the second word of a path from the current word
    to the target; for "uniform", of a shortest one. *)
Lemma get_hint_Some self algorithm (hint : word) self' :
  get_hint set_iter self algorithm = Ok (Some hint, self') →
  is_valid_word self (current_word self) = true
  ∧ ∃ path, ladder self (current_word self) (target_word self)
              (current_word self :: hint :: path)
      ∧ (algorithm = str "uniform" →
         ∀ q, ladder self (current_word self) (target_word self) q →
           edges (current_word self :: hint :: path) ≤ edges q).
Proof.
  unfold get_hint. destruct (_ || _); [done |].
  set (s := {| word_set := word_set self; hints_used := hints_used self + 1 |}).
  assert (Hw : word_set s = word_set self) by done.
  assert (Hb : banned_words s = banned_words self) by done.
  change (current_word s) with (current_word self).
  change (target_word s) with (target_word self).
  rewrite <- (is_valid_word_same s self Hw Hb).
  assert (Hgoal : ∀ x path,
    is_valid_word s (current_word self) = true →
    ladder s (current_word self) (target_word self) (x :: hint :: path) →
    (algorithm = str "uniform" →
       ∀ q, ladder s (current_word self) (target_word self) q →
         edges (x :: hint :: path) ≤ edges q) →
    is_valid_word s (current_word self) = true
    ∧ ∃ path, ladder self (current_word self) (target_word self)
                (current_word self :: hint :: path)
        ∧ (algorithm = str "uniform" →
           ∀ q, ladder self (current_word self) (target_word self) q →
             edges (current_word self :: hint :: path) ≤ edges q)).
  { intros x path Hv Hl Hmin. split; [done |]. exists path.
    destruct (ladder_tail _ _ _ _ _ _ Hl) as (-> & _).
    split; [by apply (ladder_same s self) |].
    intros Ha q Hq. apply (Hmin Ha). by apply (ladder_same self s). }
  case_bool_decide as Hg; [| case_bool_decide as Hu].
  - destruct (greedy_best_first_search _ _ _ _) as [[[| x [| h path]] |] |] eqn:Hs;
      try done.
    intros [= -> <-].
    apply greedy_best_first_search_ladder in Hs as (Hv & _ & Hl); [| done].
    apply (Hgoal x path Hv Hl). intros ->. done.
  - destruct (uniform_cost_search _ _ _ _) as [[[| x [| h path]] |] |] eqn:Hs;
      try done.
    intros [= -> <-].
    apply uniform_cost_search_ladder in Hs as (Hv & _ & Hl & Hmin); [| done].
    by apply (Hgoal x path Hv Hl).
  - destruct (a_star_search _ _ _ _) as [[[| x [| h path]] |] |] eqn:Hs;
      try done.
    intros [= -> <-].
    pose proof (a_star_search_valid _ _ _ _ _ Hs) as [Hv _].
    apply a_star_search_ladder in Hs; [| done].
    apply (Hgoal x path Hv Hs). intros ->. done.
Qed.

Lemma get_hint_returns self algorithm :
  ∃ hint self', get_hint set_iter self algorithm = Ok (hint, self').
Proof.
  unfold get_hint. destruct (_ || _); [by eexists _, _ |].
  set (s := {| word_set := word_set self; hints_used := hints_used self + 1 |}).
  case_bool_decide; [| case_bool_decide].
  - destruct (greedy_best_first_search_returns set_iter set_iter_ok s
                (current_word s) (target_word s)) as [res ->].
    destruct res as [[| x [| h path]] |]; by eexists _, _.
  - destruct (uniform_cost_search_returns set_iter set_iter_ok s
                (current_word s) (target_word s)) as [res ->].
    destruct res as [[| x [| h path]] |]; by eexists _, _.
  - destruct (a_star_search_returns set_iter set_iter_ok s
                (current_word s) (target_word s)) as [res ->].
    destruct res as [[| x [| h path]] |]; by eexists _, _.
Qed.

(** When a path exists, a word is handed out. *)
Lemma get_hint_available self algorithm (q : list word) :
  current_word self ≠ target_word self →
  cmp (hints_remaining self) (PInt 0) = Gt →
  is_valid_word self (current_word self) = true →
  ladder self (current_word self) (target_word self) q →
  ∃ hint self', get_hint set_iter self algorithm = Ok (Some hint, self').
Proof.
  intros Hne Hgt Hv Hq. unfold get_hint.
  rewrite (bool_decide_eq_false_2 _ Hne).
  rewrite bool_decide_eq_false_2 by (intros H; by apply H). simpl.
  set (s := {| word_set := word_set self; hints_used := hints_used self + 1 |}).
  assert (Hw : word_set self = word_set s) by done.
  assert (Hb : banned_words self = banned_words s) by done.
  assert (Hvs : is_valid_word s (current_word self) = true).
  { by rewrite <- (is_valid_word_same self s Hw Hb). }
  assert (Hqs : ladder s (current_word self) (target_word self) q).
  { by apply (ladder_same self s). }
  pose proof (ladder_valid_end _ _ _ _ Hvs Hqs) as Hvt.
  assert (Hpath : ∀ p, ladder s (current_word self) (target_word self) p →
            ∃ x h path, p = x :: h :: path).
  { intros p Hp. destruct (ladder_two _ _ _ _ Hp Hne) as (h & path & ->).
    by eexists _, _, _. }
  case_bool_decide; [| case_bool_decide].
  - destruct (greedy_best_first_search_correct set_iter set_iter_ok s _ _ Hvs Hvt)
      as (res & -> & Hpost).
    destruct res as [p |]; [| by destruct (Hpost q)].
    destruct Hpost as [Hp _]. destruct (Hpath p Hp) as (x & h & path & ->).
    by eexists _, _.
  - destruct (uniform_cost_search_correct set_iter set_iter_ok s _ _ Hvs Hvt)
      as (res & -> & Hpost).
    destruct res as [p |]; [| by destruct (Hpost q)].
    destruct Hpost as [Hp _]. destruct (Hpath p Hp) as (x & h & path & ->).
    by eexists _, _.
  - destruct (a_star_search_correct set_iter set_iter_ok s _ _ Hvs Hvt)
      as (res & -> & Hpost).
    destruct res as [p |]; [| by destruct (Hpost q)].
    destruct (Hpath p Hpost) as (x & h & path & ->).
    by eexists _, _.
Qed.
End hints.

(** ** Invariants of play *)

Section play.
Context (set_iter : gset word → list word).

Lemma played_budget self :
  played set_iter self →
  let limit := Settings.hint_limit (DIFFICULTY_SETTINGS (difficulty self)) in
  0 ≤ hints_used self ≤ limit
  ∧ hints_remaining self = PInt (limit - hints_used self)
  ∧ time_limit self = Settings.time_limit (DIFFICULTY_SETTINGS (difficulty self)).
Proof.
  induction 1 as [self0 sw tw d now r self r' Hstart
                 | self w now b self' Hp IH Hmove
                 | self alg hint self' Hp IH Hhint
                 | self now v self' Hp IH Hscore]; simpl in *.
  - pose proof (start_game_true _ _ _ _ _ _ _ _ _ Hstart) as (_ & _ & _ & _ & Hu & _).
    apply start_game_true_search in Hstart as (_ & _ & _ & _ & -> & -> & -> & _).
    rewrite Hu. split; [by destruct d |]. split; [f_equal; lia | done].
  - apply make_move_profile in Hmove as ((_ & _ & _ & -> & -> & _) & -> & ->).
    exact IH.
  - destruct IH as (Hrange & Hrem & Htl).
    destruct (decide (current_word self = target_word self)) as [He | Hne].
    { rewrite get_hint_no_hint in Hhint by (by left). by injection Hhint as <- <-. }
    destruct (decide (cmp (hints_remaining self) (PInt 0) = Gt)) as [Hgt | Hle].
    2: { rewrite get_hint_no_hint in Hhint by (by right). by injection Hhint as <- <-. }
    apply (get_hint_charged _ _ _ _ _ Hne Hgt) in Hhint
      as ((_ & _ & _ & -> & -> & _) & _ & _ & _ & -> & ->).
    rewrite Hrem in Hgt |- *. unfold cmp, pynum_cmp in Hgt.
    apply Z.compare_gt_iff in Hgt. simpl.
    split; [lia |]. split; [f_equal; lia | done].
  - apply calculate_score_Ok in Hscore as [-> _]. exact IH.
Qed.

Hypothesis set_iter_ok : ∀ X, set_iter X ≡ₚ elements X.

Lemma played_connected self :
  played set_iter self → corpus_ok self →
  is_word (current_word self) = true
  ∧ is_valid_word self (current_word self) = true
  ∧ ∃ q, ladder self (current_word self) (target_word self) q.
Proof.
  induction 1 as [self0 sw tw d now r self r' Hstart
                 | self w now b self' Hp IH Hmove
                 | self alg hint self' Hp IH Hhint
                 | self now v self' Hp IH Hscore]; intros Hcorpus.
  - pose proof (start_game_true _ _ _ _ _ _ _ _ _ Hstart)
      as (-> & -> & _ & _ & _ & Hv & _).
    apply start_game_true_search in Hstart as (_ & (path & Hs & _) & _).
    split; [| split; [done |]].
    + apply Hcorpus. by apply is_valid_word_lower_elem.
    + exists path. by apply (a_star_search_ladder set_iter).
  - destruct b.
    2: { apply make_move_false in Hmove as ->. by apply IH. }
    pose proof (make_move_profile _ _ _ _ _ _ Hmove) as ((_ & _ & Ht & _) & _).
    apply make_move_true in Hmove as (Hv & Hlen & Hd & Hc & _ & Hws & Hb).
    assert (Hcorpus0 : corpus_ok self).
    { intros x Hx. apply Hcorpus. by rewrite Hws. }
    destruct (IH Hcorpus0) as (Hw & Hvc & q & Hq).
    pose proof (make_move_neighbor _ _ Hcorpus0 Hv Hlen Hd) as Hn.
    rewrite Hc, Ht. split; [| split].
    + apply Hcorpus0. by apply is_valid_word_lower_elem.
    + by rewrite (is_valid_word_same self' self Hws Hb).
    + exists (lower w :: q). apply (ladder_same self self'); [done.. |].
      eapply ladder_cons; [| done]. by apply get_neighbors_sym_1.
  - apply get_hint_profile in Hhint as ((Hws & Hb & Ht & _) & Hc & _).
    assert (Hcorpus0 : corpus_ok self).
    { intros x Hx. apply Hcorpus. by rewrite Hws. }
    destruct (IH Hcorpus0) as (Hw & Hvc & q & Hq).
    rewrite Hc, Ht. split; [done |]. split.
    + by rewrite (is_valid_word_same self' self Hws Hb).
    + exists q. by apply (ladder_same self self').
  - apply calculate_score_Ok in Hscore as [-> _].
    destruct (IH Hcorpus) as (Hw & Hvc & q & Hq).
    split; [done |]. split; [done |]. exists q.
    by apply (ladder_same self (set_score self v)).
Qed.
End play.

(** X5 — [get_hint] returns [None] and leaves the session alone when the
    current word is the target or no hint remains.  Otherwise it returns,
    having charged one hint ([hints_remaining] one less, [hints_used] one
    more) and left the words and the path history alone, whether or not it
    has a word to give: the word is a neighbor of the current word from
    which the target is reachable, and [None] is returned only when the
    current word is not valid or no path to the target exists. *)
Theorem get_hint_charges (set_iter : gset word → list word)
    (self : WordLadderGame) (algorithm : word) :
  (∀ X, set_iter X ≡ₚ elements X) →
  (current_word self = target_word self
   ∨ cmp (hints_remaining self) (PInt 0) ≠ Gt →
   get_hint set_iter self algorithm = Ok (None, self))
  ∧ (current_word self ≠ target_word self →
     cmp (hints_remaining self) (PInt 0) = Gt →
     ∃ hint self',
       get_hint set_iter self algorithm = Ok (hint, self')
       ∧ hints_used self' = hints_used self + 1
       ∧ hints_remaining self' = pynum_add (hints_remaining self) (PInt (-1))
       ∧ current_word self' = current_word self
       ∧ target_word self' = target_word self
       ∧ path_history self' = path_history self
       ∧ match hint with
         | Some h => h ∈ get_neighbors self (current_word self)
                     ∧ ∃ q, ladder self h (target_word self) q
         | None => is_valid_word self (current_word self) = false
                   ∨ ∀ q, ¬ ladder self (current_word self) (target_word self) q
         end).
Proof.
  intros Hiter. split; [apply get_hint_no_hint |].
  intros Hne Hgt.
  destruct (get_hint_returns set_iter Hiter self algorithm) as (hint & self' & Hg).
  exists hint, self'. split; [done |].
  destruct (get_hint_charged _ _ _ _ _ Hne Hgt Hg)
    as ((_ & _ & Ht & _) & Hc & Hp & _ & Hu & Hr).
  do 5 (split; [done |]).
  destruct hint as [h |].
  - apply get_hint_Some in Hg as (_ & path & Hl & _); [| done].
    apply ladder_tail in Hl as (_ & Hn & Hl). split; [done | by eexists].
  - destruct (is_valid_word self (current_word self)) eqn:Hv; [| by left].
    right. intros q Hq.
    destruct (get_hint_available set_iter Hiter self algorithm q Hne Hgt Hv Hq)
      as (h & s & Hg').
    congruence.
Qed.

Lemma get_hint_charges_witness :
  ∃ hint self',
    get_hint elements demo_session (str "a_star") = Ok (hint, self')
    ∧ hints_used self' = 1
    ∧ hints_remaining self' = PInt 4.
Proof.
  destruct (get_hint_charges elements demo_session (str "a_star")) as [_ H].
  - intros X. reflexivity.
  - destruct H as (hint & self' & Hg & Hu & Hr & _).
    + vm_compute. discriminate.
    + vm_compute. reflexivity.
    + exists hint, self'. split; [exact Hg |]. split; [exact Hu | exact Hr].
Defined.

(** X6 — the word that [get_hint] gives with the algorithm "uniform" is
    one step closer to the target: the current word is at some shortest
    distance [d] from the target and the hint at distance [d - 1]. *)
Theorem get_hint_uniform_closer (set_iter : gset word → list word)
    (self : WordLadderGame) (hint : word) (self' : WordLadderGame) :
  (∀ X, set_iter X ≡ₚ elements X) →
  get_hint set_iter self (str "uniform") = Ok (Some hint, self') →
  ∃ d, shortest_distance self (current_word self) (target_word self) d
    ∧ shortest_distance self hint (target_word self) (d - 1).
Proof.
  intros Hiter Hg.
  apply get_hint_Some in Hg as (_ & path & Hl & Hmin); [| done].
  specialize (Hmin eq_refl).
  exists (edges (current_word self :: hint :: path)).
  split; [split; [by eexists | done] |].
  destruct (ladder_tail _ _ _ _ _ _ Hl) as (_ & Hn & Ht).
  split.
  - exists (hint :: path). split; [done |]. unfold edges. simpl length. lia.
  - intros q Hq. pose proof (Hmin _ (ladder_cons _ _ _ _ _ Hn Hq)) as Hle.
    unfold edges in *. simpl length in *. lia.
Qed.

Lemma get_hint_uniform_closer_witness :
  ∃ d, shortest_distance demo_session (str "cat") (str "dog") d
    ∧ shortest_distance demo_session (str "cag") (str "dog") (d - 1).
Proof.
  destruct (get_hint elements demo_session (str "uniform"))
    as [[[h |] s] | |] eqn:Hg; [| vm_compute in Hg; discriminate..].
  assert (h = str "cag") as ->.
  { pose proof Hg as Hg'. vm_compute in Hg'. injection Hg' as Hh _. symmetry. exact Hh. }
  apply (get_hint_uniform_closer elements demo_session (str "cag") s).
  - intros X. reflexivity.
  - exact Hg.
Defined.

(** X7 — in every state of play (a successful [start_game], then
    [make_move], [get_hint] and [calculate_score] calls) the hint counters
    add up to the hint limit of the session's difficulty: [hints_used] lies
    between 0 and the limit, [hints_remaining] is the limit less
    [hints_used], and the time limit is the one of the difficulty. *)
Theorem played_hint_budget (set_iter : gset word → list word)
    (self : WordLadderGame) :
  played set_iter self →
  let limit := Settings.hint_limit (DIFFICULTY_SETTINGS (difficulty self)) in
  0 ≤ hints_used self ≤ limit
  ∧ hints_remaining self = PInt (limit - hints_used self)
  ∧ time_limit self = Settings.time_limit (DIFFICULTY_SETTINGS (difficulty self)).
Proof. apply played_budget. Qed.

(** X8 — on a corpus of lowercase words the game stays winnable: in every
    state of play a path leads from the current word to the target; and
    while the target is not reached and a hint remains, [get_hint] gives a
    word, whatever the algorithm, which [make_move] then accepts. *)
Theorem played_winnable (set_iter : gset word → list word)
    (self : WordLadderGame) :
  (∀ X, set_iter X ≡ₚ elements X) →
  played set_iter self → corpus_ok self →
  (∃ q, ladder self (current_word self) (target_word self) q)
  ∧ (current_word self ≠ target_word self →
     cmp (hints_remaining self) (PInt 0) = Gt →
     ∀ algorithm, ∃ hint self',
       get_hint set_iter self algorithm = Ok (Some hint, self')
       ∧ ∀ now s, make_move set_iter self' hint now ≠ Ok (false, s)).
Proof.
  intros Hiter Hplayed Hcorpus.
  destruct (played_connected set_iter Hiter self Hplayed Hcorpus)
    as (Hw & Hv & q & Hq).
  split; [by exists q |]. intros Hne Hgt algorithm.
  destruct (get_hint_available set_iter Hiter self algorithm q Hne Hgt Hv Hq)
    as (hint & self' & Hg).
  exists hint, self'. split; [done |]. intros now s.
  pose proof (get_hint_profile _ _ _ _ _ Hg) as ((Hws & Hb & _) & Hc & _).
  apply get_hint_Some in Hg as (_ & path & Hl & _); [| done].
  apply ladder_tail in Hl as (_ & Hn & _).
  assert (Hcorpus' : corpus_ok self').
  { intros x Hx. apply Hcorpus. by rewrite <- Hws. }
  destruct (make_move_of_neighbor set_iter self' hint now) as [Hacc _].
  - rewrite lower_word by (by eapply get_neighbors_is_word).
    rewrite Hc. by rewrite (get_neighbors_same self' self Hws Hb).
  - apply Hacc.
Qed.

Lemma demo_session_played : played elements demo_session.
Proof.
  apply (played_start elements demo (str "cat") (str "dog") beginner 0%float []
           demo_session []).
  vm_compute. reflexivity.
Qed.

Lemma played_hint_budget_witness :
  ∃ hint s,
    get_hint elements demo_session (str "greedy") = Ok (hint, s)
    ∧ 0 ≤ hints_used s ≤ 5 ∧ hints_remaining s = PInt (5 - hints_used s).
Proof.
  destruct (get_hint elements demo_session (str "greedy"))
    as [[hint s] | |] eqn:Hg; [| vm_compute in Hg; discriminate..].
  exists hint, s. split; [reflexivity |].
  assert (Hd : difficulty s = beginner).
  { pose proof Hg as Hg'. vm_compute in Hg'. injection Hg' as _ <-. reflexivity. }
  destruct (played_hint_budget elements s) as (Hrange & Hrem & _).
  - exact (played_hint elements demo_session (str "greedy") hint s
             demo_session_played Hg).
  - rewrite Hd in Hrange, Hrem. split; [exact Hrange | exact Hrem].
Defined.

Lemma played_winnable_witness :
  ∃ q, ladder demo_session (str "cat") (str "dog") q.
Proof.
  destruct (played_winnable elements demo_session) as [Hq _].
  - intros X. reflexivity.
  - exact demo_session_played.
  - exact demo_session_corpus_ok.
  - exact Hq.
Defined.

Lemma out_of_range_spec (d : difficulty_t) (n : Z) :
  out_of_range d n = false →
  match d with
  | beginner => n ≤ 4
  | advanced => 4 ≤ n ≤ 7
  | challenge => 7 ≤ n
  end.
Proof. unfold out_of_range. destruct d; simpl; lia. Qed.

Lemma in_range_out_of_range (d : difficulty_t) (n : Z) :
  in_range d n = true → out_of_range d n = false.
Proof. unfold in_range, out_of_range. destruct d; simpl; lia. Qed.

(** X9 — when [start_game] returns true the session is a fresh game on the
    lower-cased words: they are the current word and the target, the path
    history holds the start word alone, the clock is started, the score and
    [hints_used] are 0 and the hints are those of the difficulty; the two
    words have the same length and are valid, and a path joins them whose
    number of edges is at most 4 for beginner, between 4 and 7 for advanced
    and at least 7 for challenge. *)
Theorem start_game_success (set_iter : gset word → list word)
    (self0 : WordLadderGame) (sw tw : word) (d : difficulty_t) (now : float)
    (r : rng) (self : WordLadderGame) (r' : rng) :
  (∀ X, set_iter X ≡ₚ elements X) →
  start_game set_iter self0 sw tw d now r = Ok (true, self, r') →
  current_word self = lower sw
  ∧ target_word self = lower tw
  ∧ path_history self = [lower sw]
  ∧ start_time self = Some now
  ∧ score self = 0
  ∧ hints_used self = 0
  ∧ hints_remaining self = PInt (Settings.hint_limit (DIFFICULTY_SETTINGS d))
  ∧ difficulty self = d
  ∧ length (lower sw) = length (lower tw)
  ∧ (lower sw ∈ word_set self0 ∧ lower sw ∉ banned_words self)
  ∧ (lower tw ∈ word_set self0 ∧ lower tw ∉ banned_words self)
  ∧ ∃ path, ladder self (lower sw) (lower tw) path
      ∧ match d with
        | beginner => edges path ≤ 4
        | advanced => 4 ≤ edges path ≤ 7
        | challenge => 7 ≤ edges path
        end.
Proof.
  intros Hiter Hstart.
  pose proof (start_game_true _ _ _ _ _ _ _ _ _ Hstart)
    as (Hc & Ht & Hp & Hst & Hu & Hv1 & Hv2).
  apply start_game_true_search in Hstart
    as (Hlen & (path & Hs & Hr) & Hws & _ & Hd & Hh & _ & Hsc).
  do 9 (split; [done |]).
  apply is_valid_word_lower_elem in Hv1, Hv2. rewrite Hws in Hv1, Hv2.
  do 2 (split; [done |]).
  exists path. split; [by apply (a_star_search_ladder set_iter) |].
  by apply out_of_range_spec.
Qed.

Lemma start_game_success_witness :
  ∃ self path,
    start_game elements demo (str "Cat") (str "DOG") beginner 0%float []
    = Ok (true, self, [])
    ∧ current_word self = str "cat"
    ∧ ladder self (str "cat") (str "dog") path ∧ edges path ≤ 4.
Proof.
  destruct (start_game elements demo (str "Cat") (str "DOG") beginner 0%float [])
    as [[[b self] r] | |] eqn:Hs; [| vm_compute in Hs; discriminate..].
  assert (b = true ∧ r = []) as [-> ->].
  { pose proof Hs as Hs'. vm_compute in Hs'. split; congruence. }
  destruct (start_game_success elements demo (str "Cat") (str "DOG") beginner
              0%float [] self []) as (Hc & _ & _ & _ & _ & _ & _ & _ & _ & _ & _ & Hp).
  - intros X. reflexivity.
  - exact Hs.
  - destruct Hp as (path & Hl & Hr). exists self, path.
    split; [reflexivity |]. split; [exact Hc |]. split; [exact Hl | exact Hr].
Defined.

(** ** More on suggest_word_pair *)

Lemma randint_bounds (a b : nat) (r : rng) :
  (a ≤ b)%nat → (a ≤ (randint a b r).1 ≤ b)%nat.
Proof.
  intros Hab. unfold randint. destruct (draw r) as [x r1]. simpl.
  pose proof (Nat.mod_upper_bound x (b - a + 1)). lia.
Qed.

Lemma draw_word_length_bounds (d : difficulty_t) (r : rng) :
  let n := (draw_word_length d r).1 in
  match d with
  | beginner => (3 ≤ n ≤ 4)%nat
  | advanced => (5 ≤ n ≤ 6)%nat
  | challenge => (6 ≤ n ≤ 8)%nat
  end.
Proof. destruct d; simpl; apply randint_bounds; lia. Qed.

Section suggested.
Context (set_iter : gset word → list word) (self : WordLadderGame).

Lemma suggest_attempt_distinct d word_length valid_words r (s t : word) r' :
  suggest_attempt set_iter self d word_length valid_words r = Ok (Some (s, t), r') →
  s ≠ t.
Proof.
  unfold suggest_attempt.
  destruct (choice valid_words r) as [[start_word |] r1] eqn:Hc; [| done].
  destruct (draw_target_distance d r1) as [target_distance r2].
  case_bool_decide; [done |].
  destruct (filter _ _) as [| x l] eqn:Hf; [done |].
  destruct (choice (x :: l) r2) as [[target |] r3] eqn:Hc2; [| done].
  destruct (a_star_search set_iter self start_word target)
    as [[[| a path] |] |]; [done | | done..].
  destruct (in_range d (edges (a :: path))); [| done].
  intros [= <- <- <-]. apply choice_elem_of in Hc2. rewrite <- Hf in Hc2.
  apply list_elem_of_filter in Hc2 as [Hne _]. congruence.
Qed.

Lemma suggest_attempts_distinct n d word_length valid_words r (s t : word) r' :
  suggest_attempts set_iter self n d word_length valid_words r
    = Ok (Some (s, t), r') →
  s ≠ t.
Proof.
  revert r. induction n as [| n IH]; intros r; [done |]. cbn [suggest_attempts].
  destruct (suggest_attempt _ _ _ _ _ _) as [[[[s1 t1] |] r1] | |] eqn:Ha;
    [| by apply IH | done..].
  intros [= <- <- <-]. by eapply suggest_attempt_distinct.
Qed.

Hypothesis set_iter_ok : ∀ X, set_iter X ≡ₚ elements X.

Lemma suggest_word_pair_Some d r (s t : word) r' :
  suggest_word_pair set_iter self d r = Ok (Some (s, t), r') →
  s ≠ t
  ∧ length s = (draw_word_length d r).1
  ∧ is_word s = true ∧ s ∈ word_set self ∧ (s ∉ banned_words self)
  ∧ is_word t = true ∧ t ∈ word_set self ∧ (t ∉ banned_words self)
  ∧ length t = length s
  ∧ ∃ path, a_star_search set_iter self s t = Some (Some path)
      ∧ in_range d (edges path) = true.
Proof.
  unfold suggest_word_pair. destruct (draw_word_length d r) as [word_length r1].
  case_bool_decide; [done |]. intros Hs.
  pose proof (suggest_attempts_distinct _ _ _ _ _ _ _ _ Hs) as Hne.
  apply suggest_attempts_Some in Hs as (Hin & path & Hp & Hr).
  apply list_elem_of_filter in Hin as [(Hlen & Hnb & Hw) Hin].
  rewrite set_iter_ok in Hin. apply elem_of_elements in Hin.
  pose proof (a_star_search_ladder set_iter self s t path set_iter_ok Hp) as Hl.
  pose proof (a_star_search_valid _ _ _ _ _ Hp) as [_ Hvt].
  pose proof (ladder_is_word _ _ _ _ Hw Hl t (ladder_last_elem _ _ _ _ Hl)) as Hwt.
  pose proof (ladder_length _ _ _ _ Hl t (ladder_last_elem _ _ _ _ Hl)) as Hlt.
  destruct (is_valid_word_elem self t (lower_word t Hwt) Hvt) as [Ht1 Ht2].
  simpl. do 8 (split; [done |]). split; [done |]. by exists path.
Qed.
End suggested.

(** X10 — the two words that [suggest_word_pair] returns are distinct
    words of the corpus, not banned, made of lowercase letters, and of the
    same length, which lies in the word-length range of the difficulty
    (3-4, 5-6, 6-8). *)
Theorem suggest_word_pair_words (set_iter : gset word → list word)
    (self : WordLadderGame) (d : difficulty_t) (r : rng) (s t : word)
    (r' : rng) :
  (∀ X, set_iter X ≡ₚ elements X) →
  suggest_word_pair set_iter self d r = Ok (Some (s, t), r') →
  s ≠ t
  ∧ (is_word s = true ∧ s ∈ word_set self ∧ s ∉ banned_words self)
  ∧ (is_word t = true ∧ t ∈ word_set self ∧ t ∉ banned_words self)
  ∧ length t = length s
  ∧ match d with
    | beginner => (3 ≤ length s ≤ 4)%nat
    | advanced => (5 ≤ length s ≤ 6)%nat
    | challenge => (6 ≤ length s ≤ 8)%nat
    end.
Proof.
  intros Hiter Hs.
  apply suggest_word_pair_Some in Hs
    as (Hne & Hlen & Hw & Hin & Hnb & Hwt & Hint & Hnbt & Hlt & _); [| done].
  do 4 (split; [done |]). rewrite Hlen. apply draw_word_length_bounds.
Qed.

Lemma suggest_word_pair_words_witness :
  str "cot" ≠ str "dog"
  ∧ length (str "dog") = length (str "cot")
  ∧ (3 ≤ length (str "cot") ≤ 4)%nat.
Proof.
  destruct (suggest_word_pair_words elements demo beginner [0; 1; 0; 0]%nat
              (str "cot") (str "dog") []) as (Hne & _ & _ & Hlen & Hr).
  - intros X. reflexivity.
  - vm_compute. reflexivity.
  - split; [exact Hne |]. split; [exact Hlen | exact Hr].
Defined.

(** X11 — in a session without banned words, a pair that
    [suggest_word_pair] returns for beginner or advanced is a pair that
    [start_game] accepts at that difficulty. *)
Theorem suggested_pair_starts (set_iter : gset word → list word)
    (self : WordLadderGame) (d : difficulty_t) (r : rng) (s t : word)
    (r' : rng) (now : float) (r2 : rng) :
  (∀ X, set_iter X ≡ₚ elements X) →
  banned_words self = ∅ → d ≠ challenge →
  suggest_word_pair set_iter self d r = Ok (Some (s, t), r') →
  ∃ self', start_game set_iter self s t d now r2 = Ok (true, self', r2)
    ∧ current_word self' = s ∧ target_word self' = t.
Proof.
  intros Hiter Hb Hd Hs.
  apply suggest_word_pair_Some in Hs
    as (Hne & _ & Hw & _ & _ & Hwt & _ & _ & Hlt & path & Hp & Hr); [| done].
  pose proof (a_star_search_valid _ _ _ _ _ Hp) as [Hv1 Hv2].
  unfold start_game. rewrite (lower_word s Hw), (lower_word t Hwt).
  pose proof (setup_difficulty_banned set_iter self d r2) as [Hb' _].
  specialize (Hb' Hd).
  assert (Hws : word_set (setup_difficulty set_iter self d r2).1 = word_set self).
  { unfold setup_difficulty. by destruct (if bool_decide (d = challenge) then _ else _). }
  assert (Hr2 : (setup_difficulty set_iter self d r2).2 = r2).
  { unfold setup_difficulty. by rewrite bool_decide_eq_false_2. }
  destruct (setup_difficulty set_iter self d r2) as [s1 r3]. simpl in *. subst r3.
  rewrite <- Hb in Hb'.
  rewrite bool_decide_eq_false_2 by (intros H; by apply H).
  rewrite !(is_valid_word_same s1 self Hws Hb'), Hv1, Hv2. simpl.
  rewrite (a_star_search_same set_iter s1 self Hws Hb'), Hp.
  pose proof (a_star_search_ladder set_iter self s t path Hiter Hp) as Hl.
  destruct (ladder_nonempty _ _ _ _ Hl) as [q ->].
  rewrite (in_range_out_of_range _ _ Hr). by eexists.
Qed.

Lemma suggested_pair_starts_witness :
  ∃ self',
    start_game elements demo (str "cot") (str "dog") beginner 0%float []
    = Ok (true, self', [])
    ∧ current_word self' = str "cot" ∧ target_word self' = str "dog".
Proof.
  apply (suggested_pair_starts elements demo beginner [0; 1; 0; 0]%nat
           (str "cot") (str "dog") [] 0%float []).
  - intros X. reflexivity.
  - reflexivity.
  - discriminate.
  - vm_compute. reflexivity.
Defined.

(** ** The score and the length of the player's path *)

Lemma add_path_bonus_shift (s b e : Z) :
  add_path_bonus s b e
  = match add_path_bonus 0 b e with
    | inl x => inl x
    | inr k => inr (s + k)
    end.
Proof.
  unfold add_path_bonus. destruct (e =? 0); [done |].
  destruct (e <=? 2); [| f_equal; lia]. by destruct (py_int _).
Qed.

Lemma add_path_bonus_cases (d : difficulty_t) (s e : Z) :
  0 ≤ e →
  let bonus := Settings.optimal_path_bonus (DIFFICULTY_SETTINGS d) in
  ∃ k, add_path_bonus s bonus e = inr (s + k)
    ∧ (e = 0 → k = bonus)
    ∧ (e = 1 → 5 * k = 4 * bonus)
    ∧ (e = 2 → 5 * k = 3 * bonus)
    ∧ (2 < e → k = 0).
Proof.
  intros He bonus. subst bonus. rewrite add_path_bonus_shift.
  assert (e = 0 ∨ e = 1 ∨ e = 2 ∨ 2 < e) as [-> | [-> | [-> | Hgt]]] by lia.
  - eexists. split; [reflexivity |]. repeat split; intros; lia.
  - destruct d; [exists 240 | exists 400 | exists 800];
      (split; [vm_compute; reflexivity |]; repeat split; intros; simpl; lia).
  - destruct d; [exists 180 | exists 300 | exists 600];
      (split; [vm_compute; reflexivity |]; repeat split; intros; simpl; lia).
  - unfold add_path_bonus.
    destruct (Z.eqb_spec e 0); [lia |]. destruct (Z.leb_spec e 2); [lia |].
    exists 0. split; [done |]. repeat split; intros; lia.
Qed.

Lemma bonus_pos (d : difficulty_t) :
  0 < Settings.optimal_path_bonus (DIFFICULTY_SETTINGS d)
  ∧ 0 < Settings.move_factor (DIFFICULTY_SETTINGS d).
Proof. by destruct d. Qed.

(** The value that [calculate_score] returns, in closed form. *)
Lemma calculate_score_value (set_iter : gset word → list word) self now v self' :
  calculate_score set_iter self now = Ok (v, self') →
  ∃ t0 first optimal_path k z,
    start_time self = Some t0
    ∧ head (path_history self) = Some first
    ∧ a_star_search set_iter self first (target_word self) = Some (Some optimal_path)
    ∧ let settings := DIFFICULTY_SETTINGS (difficulty self) in
      let bonus := Settings.optimal_path_bonus settings in
      let extra_moves := 0 `max` (edges (path_history self) - edges optimal_path) in
      ((extra_moves = 0 → k = bonus)
       ∧ (extra_moves = 1 → 5 * k = 4 * bonus)
       ∧ (extra_moves = 2 → 5 * k = 3 * bonus)
       ∧ (2 < extra_moves → k = 0))
      ∧ add_time_component 0 (Settings.base_score settings)
          (Settings.time_factor settings) (time_limit self) (now - t0) = inr z
      ∧ v = 0 `max` (Settings.base_score settings + k + z
                     - extra_moves * Settings.move_factor settings
                     - hint_penalty (Settings.hint_factor settings) (hints_used self)).
Proof.
  unfold calculate_score. intros Hc.
  destruct (start_time self) as [t0 |]; [| done].
  destruct (path_history self) as [| first rest] eqn:Hp; [done |].
  destruct (a_star_search _ _ _ _) as [[optimal_path |] |] eqn:Hs; [| done..].
  set (d := difficulty self) in *.
  remember (0 `max` (edges (first :: rest) - edges optimal_path)) as e eqn:He0.
  assert (He : 0 ≤ e) by lia.
  destruct (add_path_bonus_cases d (Settings.base_score (DIFFICULTY_SETTINGS d)) e He)
    as (k & Hk & Hcases).
  rewrite Hk in Hc. rewrite add_time_component_shift in Hc.
  destruct (add_time_component 0 _ _ _ _) as [x | z] eqn:Ht; [done |].
  rewrite hint_penalty_guard in Hc.
  exists t0, first, optimal_path, k, z. do 3 (split; [done |]).
  cbv zeta. rewrite <- He0. clear He0. split; [exact Hcases |]. split; [done |].
  injection Hc as <- _.
  destruct (Z.ltb_spec 0 e) as [Hpos | Hzero]; [lia |].
  assert (e = 0) as -> by lia. lia.
Qed.

(** X12 — with the clock, the hints, the difficulty and the first word of
    the path history fixed, a longer path history never scores higher (and
    [calculate_score] fails with the same exception if it fails).  The score
    that [calculate_score] returns is, floored at 0, the base score plus the
    path bonus and the time component, less [move_factor] for each extra
    move and the hint penalty, where the path bonus is the full bonus with
    no extra move, four fifths of it with one extra move, three fifths with
    two and nothing beyond. *)
Theorem score_monotone_in_moves (set_iter : gset word → list word)
    (self : WordLadderGame) (now : float) (extra : list word) :
  path_history self ≠ [] →
  match calculate_score set_iter self now,
        calculate_score set_iter
          (with_path_history self (path_history self ++ extra)) now with
  | Ok (v1, _), Ok (v2, _) => v2 ≤ v1
  | Raise e1 _, Raise e2 _ => e1 = e2
  | OutOfFuel, OutOfFuel => True
  | _, _ => False
  end
  ∧ ∀ v self', calculate_score set_iter self now = Ok (v, self') →
      ∃ t0 first optimal_path k z,
        start_time self = Some t0
        ∧ head (path_history self) = Some first
        ∧ a_star_search set_iter self first (target_word self)
          = Some (Some optimal_path)
        ∧ let settings := DIFFICULTY_SETTINGS (difficulty self) in
          let bonus := Settings.optimal_path_bonus settings in
          let extra_moves :=
            0 `max` (edges (path_history self) - edges optimal_path) in
          ((extra_moves = 0 → k = bonus)
           ∧ (extra_moves = 1 → 5 * k = 4 * bonus)
           ∧ (extra_moves = 2 → 5 * k = 3 * bonus)
           ∧ (2 < extra_moves → k = 0))
          ∧ add_time_component 0 (Settings.base_score settings)
              (Settings.time_factor settings) (time_limit self) (now - t0)
            = inr z
          ∧ v = 0 `max` (Settings.base_score settings + k + z
                         - extra_moves * Settings.move_factor settings
                         - hint_penalty (Settings.hint_factor settings)
                             (hints_used self)).
Proof.
  intros Hne. split; [| apply calculate_score_value].
  unfold calculate_score.
  change (start_time (with_path_history self _)) with (start_time self).
  destruct (start_time self) as [t0 |]; [| done].
  change (path_history (with_path_history self (path_history self ++ extra)))
    with (path_history self ++ extra).
  destruct (path_history self) as [| first rest] eqn:Hp; [done |].
  rewrite <- app_comm_cons.
  rewrite (a_star_search_same set_iter
             (with_path_history self (first :: rest ++ extra)) self) by done.
  change (target_word (with_path_history self _)) with (target_word self).
  destruct (a_star_search _ _ _ _) as [[optimal_path |] |]; [| done..].
  change (difficulty (with_path_history self _)) with (difficulty self).
  change (time_limit (with_path_history self _)) with (time_limit self).
  change (hints_used (with_path_history self _)) with (hints_used self).
  set (d := difficulty self).
  set (e1 := 0 `max` (edges (first :: rest) - edges optimal_path)).
  set (e2 := 0 `max` (edges (first :: rest ++ extra) - edges optimal_path)).
  assert (He : 0 ≤ e1 ≤ e2).
  { subst e1 e2. unfold edges. simpl length. rewrite length_app. lia. }
  clearbody e1 e2.
  destruct (add_path_bonus_cases d (Settings.base_score (DIFFICULTY_SETTINGS d)) e1)
    as (k1 & -> & H10 & H11 & H12 & H13); [lia |].
  destruct (add_path_bonus_cases d (Settings.base_score (DIFFICULTY_SETTINGS d)) e2)
    as (k2 & -> & H20 & H21 & H22 & H23); [lia |].
  rewrite (add_time_component_shift (_ + k1)), (add_time_component_shift (_ + k2)).
  destruct (add_time_component 0 _ _ _ _) as [e | z]; [done |].
  pose proof (bonus_pos d) as [Hb Hm].
  assert (Hk : k2 ≤ k1) by lia.
  assert (Hmv : e1 * Settings.move_factor (DIFFICULTY_SETTINGS d)
                ≤ e2 * Settings.move_factor (DIFFICULTY_SETTINGS d)).
  { apply Z.mul_le_mono_nonneg_r; lia. }
  assert (Hmv0 : 0 ≤ e1 * Settings.move_factor (DIFFICULTY_SETTINGS d)).
  { apply Z.mul_nonneg_nonneg; lia. }
  generalize dependent (e1 * Settings.move_factor (DIFFICULTY_SETTINGS d)).
  generalize dependent (e2 * Settings.move_factor (DIFFICULTY_SETTINGS d)).
  intros m2 m1 Hmv Hmv0.
  generalize (hint_penalty (Settings.hint_factor (DIFFICULTY_SETTINGS d)) (hints_used self)).
  intros hp.
  destruct (Z.ltb_spec 0 e1), (Z.ltb_spec 0 e2);
    destruct (0 <? hints_used self); lia.
Qed.

Lemma score_monotone_in_moves_witness :
  match calculate_score elements demo_session 10%float,
        calculate_score elements
          (with_path_history demo_session
             (path_history demo_session ++ [str "cot"; str "cat"])) 10%float with
  | Ok (v1, _), Ok (v2, _) => v2 ≤ v1
  | Raise e1 _, Raise e2 _ => e1 = e2
  | OutOfFuel, OutOfFuel => True
  | _, _ => False
  end
  ∧ ∃ optimal_path k z,
      a_star_search elements demo_session (str "cat") (str "dog")
      = Some (Some optimal_path)
      ∧ (0 `max` (edges [str "cat"] - edges optimal_path) = 0 → k = 300)
      ∧ add_time_component 0 1000 2 PInf (10 - 0)%float = inr z
      ∧ 1280 = 0 `max` (1000 + k + z
                        - 0 `max` (edges [str "cat"] - edges optimal_path) * 25
                        - hint_penalty 50 0).
Proof.
  destruct (score_monotone_in_moves elements demo_session 10%float
              [str "cot"; str "cat"]) as [H1 H2].
  - discriminate.
  - split; [exact H1 |].
    assert (Hc : calculate_score elements demo_session 10%float
                 = Ok (1280, set_score demo_session 1280)).
    { vm_compute. reflexivity. }
    destruct (H2 _ _ Hc) as (t0 & first & p & k & z & Ht0 & Hf & Hs & Hk & Hz & Hv).
    injection Ht0 as <-. injection Hf as <-.
    exists p, k, z. split; [exact Hs |].
    split; [exact (proj1 Hk) |]. split; [exact Hz | exact Hv].
Defined.

(** ** get_random_word *)

Lemma elem_of_words_of_length (set_iter : gset word → list word) self n (w : word) :
  (∀ X, set_iter X ≡ₚ elements X) →
  w ∈ words_of_length set_iter self n
  ↔ w ∈ word_set self ∧ length w = n ∧ (w ∉ banned_words self) ∧ is_word w = true.
Proof.
  intros Hiter. unfold words_of_length.
  rewrite list_elem_of_filter, Hiter, elem_of_elements. tauto.
Qed.

(** X13 — [get_random_word] returns [None] exactly when the corpus has no
    unbanned word of lowercase letters with the requested length; otherwise
    it returns such a word. *)
Theorem get_random_word_valid (set_iter : gset word → list word)
    (self : WordLadderGame) (len : nat) (r : rng) :
  (∀ X, set_iter X ≡ₚ elements X) →
  ∃ res r', get_random_word set_iter self len r = Ok (res, r')
    ∧ match res with
      | Some w => w ∈ word_set self ∧ length w = len
                  ∧ (w ∉ banned_words self) ∧ is_word w = true
      | None => ∀ w, w ∈ word_set self → length w = len →
                  w ∉ banned_words self → is_word w = false
      end.
Proof.
  intros Hiter. unfold get_random_word.
  destruct (words_of_length set_iter self len) as [| x l] eqn:Hv.
  - exists None, r. split; [done |]. intros w Hin Hlen Hnb.
    destruct (is_word w) eqn:Hw; [| done].
    assert (w ∈ words_of_length set_iter self len) as Hbad.
    { by apply elem_of_words_of_length. }
    rewrite Hv in Hbad. by apply elem_of_nil in Hbad.
  - destruct (choice_nonempty (x :: l) r) as (w & r' & Hc); [done |].
    rewrite Hc. exists (Some w), r'. split; [done |].
    apply choice_elem_of in Hc. rewrite <- Hv in Hc.
    by apply elem_of_words_of_length in Hc.
Qed.

Lemma get_random_word_valid_witness :
  ∃ res r', get_random_word elements demo 3 [4%nat] = Ok (res, r')
    ∧ match res with
      | Some w => w ∈ word_set demo ∧ length w = 3%nat
                  ∧ (w ∉ banned_words demo) ∧ is_word w = true
      | None => ∀ w, w ∈ word_set demo → length w = 3%nat →
                  w ∉ banned_words demo → is_word w = false
      end.
Proof.
  apply (get_random_word_valid elements demo 3 [4%nat]).
  intros X. reflexivity.
Defined.

(** ** heuristic *)

Lemma alphabet_position_bounds c :
  c ∈ ascii_lowercase → 1 ≤ ord (chr_lower c) - ord "a" + 1 ≤ 26.
Proof.
  intros Hc. apply list_elem_of_In in Hc. simpl in Hc.
  repeat (destruct Hc as [<- | Hc]; [vm_compute; split; discriminate |]).
  destruct Hc.
Qed.

Lemma heuristic_fold_bounds (w : word) (a : Z) :
  is_word w = true →
  a + Z.of_nat (length w)
  ≤ foldl (λ acc c, acc + (ord (chr_lower c) - ord "a" + 1)) a w
  ≤ a + 26 * Z.of_nat (length w).
Proof.
  rewrite is_word_spec. revert a.
  induction w as [| c w IH]; intros a Hw; [simpl; lia |].
  cbn [foldl]. pose proof (alphabet_position_bounds c (Hw c ltac:(left))) as Hc.
  pose proof (IH (a + (ord (chr_lower c) - ord "a" + 1))
                (λ x Hx, Hw x ltac:(by right))) as Hw'.
  simpl length. lia.
Qed.

Lemma heuristic_lower self (current target : word) :
  heuristic self (lower current) target = heuristic self current target.
Proof.
  unfold heuristic, lower. rewrite length_fmap.
  case_bool_decide as Hlen; [done |]. clear Hlen. f_equal.
  generalize 0. induction current as [| c w IH]; intros a; [done |].
  rewrite fmap_cons. cbn [foldl]. rewrite chr_lower_idemp. apply IH.
Qed.

(** X14 — for a word of lowercase letters and a target of the same
    length, [heuristic] lies between the length of the word and 26 times
    that length; it is at least 1 for a non-empty word, also when the word
    is the target itself, and it is unchanged when the word is
    lower-cased first. *)
Theorem heuristic_bounds (self : WordLadderGame) (current target : word) :
  is_word current = true → length current = length target →
  (∃ h, heuristic self current target = PInt h
     ∧ Z.of_nat (length current) ≤ h ≤ 26 * Z.of_nat (length current))
  ∧ ∀ w, heuristic self (lower w) target = heuristic self w target.
Proof.
  intros Hw Hlen. split; [| intros w; apply heuristic_lower].
  unfold heuristic. rewrite bool_decide_eq_false_2 by (intros H; by apply H).
  eexists. split; [reflexivity |].
  pose proof (heuristic_fold_bounds current 0 Hw). lia.
Qed.

Lemma heuristic_bounds_witness :
  ∃ h, heuristic demo (str "dog") (str "dog") = PInt h ∧ 3 ≤ h ≤ 78.
Proof.
  destruct (heuristic_bounds demo (str "dog") (str "dog")) as [H _].
  - reflexivity.
  - reflexivity.
  - exact H.
Defined.

(** ** setup_difficulty *)

Lemma sample_spec {A} (l : list A) (k : nat) (r : rng) :
  (k ≤ length l)%nat →
  (sample l k r).1 ⊆+ l ∧ length (sample l k r).1 = k.
Proof.
  revert l r. induction k as [| k IH]; intros l r Hk.
  - split; [apply submseteq_nil_l | done].
  - cbn [sample]. destruct (draw r) as [x r1].
    destruct (lookup_lt_is_Some_2 l (x mod length l)) as [a Ha].
    { apply Nat.mod_upper_bound. lia. }
    rewrite Ha.
    destruct (IH (delete (x mod length l)%nat l) r1) as [Hsub Hlen].
    { rewrite length_delete by done. lia. }
    destruct (sample (delete (x mod length l)%nat l) k r1) as [rest r2]. simpl in *.
    split; [| by rewrite Hlen].
    rewrite (delete_Permutation l _ a Ha). by apply submseteq_skip.
Qed.

Lemma submseteq_NoDup_l {A} (l1 l2 : list A) : l1 ⊆+ l2 → NoDup l2 → NoDup l1.
Proof.
  intros (l & Hp & Hs)%submseteq_sublist_r Hnd. rewrite Hp.
  by eapply sublist_NoDup.
Qed.

Lemma size_filter_elements (P : word → Prop) `{∀ w, Decision (P w)}
    (X : gset word) (l : list word) :
  l ≡ₚ elements X → length (filter P l) = size (filter P X).
Proof.
  intros Hl. unfold size, set_size. simpl. apply Permutation_length.
  apply NoDup_Permutation.
  - apply NoDup_filter. rewrite Hl. apply NoDup_elements.
  - apply NoDup_elements.
  - intros w. rewrite list_elem_of_filter, Hl, !elem_of_elements, elem_of_filter.
    done.
Qed.

(** X15 — [setup_difficulty] touches neither the corpus nor the words, the
    path history, the clock, the score or [hints_used].  For beginner and
    advanced it empties the banned set.  For challenge it replaces the
    banned set by words of the corpus that all have the same length [n],
    drawn between 6 and 8: ten of them, or all the words of that length
    when the corpus has fewer than ten. *)
Theorem setup_difficulty_bans (set_iter : gset word → list word)
    (self : WordLadderGame) (d : difficulty_t) (r : rng) :
  (∀ X, set_iter X ≡ₚ elements X) →
  let self' := (setup_difficulty set_iter self d r).1 in
  (word_set self' = word_set self
   ∧ current_word self' = current_word self
   ∧ target_word self' = target_word self
   ∧ path_history self' = path_history self
   ∧ start_time self' = start_time self
   ∧ score self' = score self
   ∧ hints_used self' = hints_used self)
  ∧ (d ≠ challenge → banned_words self' = ∅)
  ∧ (d = challenge →
     ∃ n, (6 ≤ n ≤ 8)%nat
       ∧ (∀ w, w ∈ banned_words self' → w ∈ word_set self ∧ length w = n)
       ∧ size (banned_words self')
         = (10 `min` size (filter (λ w, length w = n) (word_set self)))%nat).
Proof.
  intros Hiter self'. subst self'. split; [| split].
  - unfold setup_difficulty.
    by destruct (if bool_decide (d = challenge) then _ else _).
  - by apply setup_difficulty_banned.
  - intros Hd.
    destruct (proj2 (setup_difficulty_banned set_iter self d r) Hd)
      as (n & r1 & Hn & Hb).
    cbv zeta in Hb. rewrite Hb. clear Hb. exists n.
    pose proof (randint_bounds 6 8 r ltac:(lia)) as Hrange.
    rewrite Hn in Hrange. simpl in Hrange. split; [done |].
    set (potential_words := filter (λ w, length w = n) (set_iter (word_set self))).
    destruct (sample_spec potential_words (10 `min` length potential_words) r1)
      as [Hsub Hlen]; [lia |].
    assert (Hnd : NoDup potential_words).
    { apply NoDup_filter. rewrite Hiter. apply NoDup_elements. }
    split.
    + intros w Hw. apply elem_of_list_to_set in Hw.
      apply (elem_of_submseteq _ _ _ Hw) in Hsub.
      apply list_elem_of_filter in Hsub as [Hlw Hin].
      rewrite Hiter in Hin. by apply elem_of_elements in Hin.
    + rewrite size_list_to_set by (by eapply submseteq_NoDup_l).
      rewrite Hlen. f_equal. by apply size_filter_elements.
Qed.

Lemma setup_difficulty_bans_witness :
  ∃ n, (6 ≤ n ≤ 8)%nat
    ∧ (∀ w, w ∈ banned_words (setup_difficulty elements (init long_corpus)
                                challenge [0%nat]).1 →
         w ∈ long_corpus ∧ length w = n)
    ∧ size (banned_words (setup_difficulty elements (init long_corpus)
                            challenge [0%nat]).1)
      = (10 `min` size (filter (λ w, length w = n) long_corpus))%nat.
Proof.
  destruct (setup_difficulty_bans elements (init long_corpus) challenge [0%nat])
    as (_ & _ & H).
  - intros X. reflexivity.
  - apply H. reflexivity.
Defined.

(** ** get_time_remaining and is_game_over *)

Lemma infinity_minus_finite (x : float) :
  float_finite x = true → Prim2SF (infinity - x) = S754_infinity false.
Proof.
  unfold float_finite. intros Hx. rewrite sub_spec.
  change (Prim2SF infinity) with (S754_infinity false).
  by destruct (Prim2SF x).
Qed.

Lemma positive_infinity_compare (x : float) :
  Prim2SF x = S754_infinity false →
  (0 <? x)%float = true ∧ (x <=? 0)%float = false.
Proof.
  intros Hx. rewrite ltb_spec, leb_spec, Hx. done.
Qed.

(** X16 — [is_game_over] is true as soon as the current word is the
    target, whatever the clock says.  In a session without a time limit
    ([time_limit] is [float('inf')], as for beginner) it is true only
    then: with a finite elapsed time the remaining time is infinite and
    the clock never ends the game. *)
Theorem is_game_over_untimed (self : WordLadderGame) (now : float) :
  (current_word self = target_word self → is_game_over self now = inr true)
  ∧ (time_limit self = PInf →
     (∀ t0, start_time self = Some t0 → float_finite (now - t0) = true) →
     get_time_remaining self now
     = inr (VFloat (match start_time self with
                    | None => infinity
                    | Some t0 => infinity - (now - t0)
                    end))
     ∧ is_game_over self now
       = inr (bool_decide (current_word self = target_word self))).
Proof.
  unfold is_game_over, get_time_remaining. split.
  - intros He. by rewrite bool_decide_eq_true_2.
  - intros Hinf Hfin. rewrite Hinf.
    destruct (start_time self) as [t0 |].
    + simpl. pose proof (infinity_minus_finite _ (Hfin t0 eq_refl)) as Hsf.
      destruct (positive_infinity_compare _ Hsf) as [-> Hle].
      split; [done |]. case_bool_decide; [done |]. simpl. by rewrite Hle.
    + split; [done |]. by case_bool_decide.
Qed.

Lemma is_game_over_untimed_witness :
  is_game_over demo_won 12%float = inr true
  ∧ is_game_over demo_session 12%float = inr false.
Proof.
  split.
  - destruct (is_game_over_untimed demo_won 12%float) as [H _].
    apply H. reflexivity.
  - destruct (is_game_over_untimed demo_session 12%float) as [_ H].
    destruct H as [_ H].
    + reflexivity.
    + intros t0 [= <-]. vm_compute. reflexivity.
    + rewrite H. vm_compute. reflexivity.
Defined.

(** ** build_graph *)

Section graph.
Context (W : gset word).

Lemma add_edges_spec (w : word) (g : nx.Graph) (ns : list word) :
  let g' := foldl (λ graph neighbor,
              if bool_decide (neighbor ∈ W)
              then nx.add_edge graph w neighbor else graph) g ns in
  (∀ a b, (a, b) ∈ nx.adj g' ↔
     (a, b) ∈ nx.adj g
     ∨ ∃ n, n ∈ ns ∧ n ∈ W ∧ ((a, b) = (w, n) ∨ (a, b) = (n, w)))
  ∧ (w ∈ W → W ⊆ nx.nodes g → nx.nodes g' = nx.nodes g).
Proof.
  revert g. induction ns as [| n ns IH]; intros g; cbn [foldl].
  - split; [| done]. intros a b. split; [by left |].
    intros [? | (n & Hn & _)]; [done | by apply elem_of_nil in Hn].
  - destruct (IH (if bool_decide (n ∈ W) then nx.add_edge g w n else g))
      as [Hadj Hnodes].
    split.
    + intros a b. rewrite Hadj. clear Hadj Hnodes IH.
      case_bool_decide as Hn.
      * unfold nx.add_edge. simpl.
        rewrite !elem_of_union, !elem_of_singleton. split.
        -- intros [[[? | ?] | ?] | (m & Hm & ?)].
           ++ by left.
           ++ right. exists n. split; [left |]. split; [done | by left].
           ++ right. exists n. split; [left |]. split; [done | by right].
           ++ right. exists m. split; [by right | done].
        -- intros [? | (m & [-> | Hm]%elem_of_cons & Hw & Hab)].
           ++ by do 3 left.
           ++ left. destruct Hab as [-> | ->]; [left; by right | by right].
           ++ right. by exists m.
      * split.
        -- intros [? | (m & Hm & ?)]; [by left |].
           right. exists m. split; [by right | done].
        -- intros [? | (m & [-> | Hm]%elem_of_cons & Hw & Hab)];
             [by left | done |]. right. by exists m.
    + intros Hw Hsub. rewrite Hnodes; [| done |].
      * case_bool_decide as Hn; [| done]. unfold nx.add_edge. simpl.
        apply set_eq. intros x. rewrite !elem_of_union, !elem_of_singleton.
        split; [| by do 2 left]. intros [[? | ->] | ->]; [done | by apply Hsub..].
      * case_bool_decide as Hn; [| done]. unfold nx.add_edge. simpl.
        intros x Hx. do 2 apply elem_of_union_l. by apply Hsub.
Qed.

Lemma build_edges_spec (set_iter : gset word → list word) self
    (g : nx.Graph) (ws : list word) :
  let g' := foldl (λ graph w,
              foldl (λ graph neighbor,
                if bool_decide (neighbor ∈ W)
                then nx.add_edge graph w neighbor else graph)
                graph (set_iter (get_neighbors self w))) g ws in
  (∀ a b, (a, b) ∈ nx.adj g' ↔
     (a, b) ∈ nx.adj g
     ∨ ∃ w n, w ∈ ws ∧ n ∈ set_iter (get_neighbors self w) ∧ n ∈ W
         ∧ ((a, b) = (w, n) ∨ (a, b) = (n, w)))
  ∧ ((∀ w, w ∈ ws → w ∈ W) → W ⊆ nx.nodes g → nx.nodes g' = nx.nodes g).
Proof.
  revert g. induction ws as [| w ws IH]; intros g; cbn [foldl].
  - split; [| done]. intros a b. split; [by left |].
    intros [? | (w & n & Hw & _)]; [done | by apply elem_of_nil in Hw].
  - pose proof (add_edges_spec w g (set_iter (get_neighbors self w)))
      as [Hadj1 Hnodes1].
    set (g1 := foldl _ g (set_iter (get_neighbors self w))) in *.
    destruct (IH g1) as [Hadj Hnodes]. split.
    + intros a b. rewrite Hadj, Hadj1. clear. split.
      * intros [[? | (n & Hn & Hw & Hab)] | (w' & n & Hw' & H)].
        -- by left.
        -- right. exists w, n. split; [left | done].
        -- right. exists w', n. split; [by right | done].
      * intros [? | (w' & n & [-> | Hw']%elem_of_cons & Hn & H)].
        -- by do 2 left.
        -- left. right. by exists n.
        -- right. by exists w', n.
    + intros Hws Hsub.
      assert (Hn1 : nx.nodes g1 = nx.nodes g).
      { apply Hnodes1; [apply Hws; left | done]. }
      rewrite Hnodes, Hn1; [done | | by rewrite Hn1].
      intros x Hx. apply Hws. by right.
Qed.
End graph.

(** X17 — the graph that [build_graph] stores has as nodes the words of
    the corpus with the requested length, banned or not, and an edge between
    two of them exactly when one is in [get_neighbors] of the other; an
    edge is stored in both directions and never joins a word to itself. *)
Theorem build_graph_edges (set_iter : gset word → list word)
    (self : WordLadderGame) (word_length : nat) :
  (∀ X, set_iter X ≡ₚ elements X) →
  let graph := build_graph set_iter self word_length in
  (∀ w, w ∈ nx.nodes graph ↔ w ∈ word_set self ∧ length w = word_length)
  ∧ ∀ u v, nx.has_edge graph u v ↔
      u ∈ nx.nodes graph ∧ v ∈ nx.nodes graph
      ∧ (v ∈ get_neighbors self u ∨ u ∈ get_neighbors self v).
Proof.
  intros Hiter graph. subst graph. unfold build_graph, nx.has_edge.
  set (W := filter (λ w, length w = word_length) (word_set self)).
  destruct (build_edges_spec W set_iter self (nx.add_nodes_from W) (set_iter W))
    as [Hadj Hnodes].
  assert (HW : ∀ w, w ∈ set_iter W ↔ w ∈ W).
  { intros w. by rewrite Hiter, elem_of_elements. }
  rewrite Hnodes; [| by intros w ?%HW | done]. simpl. split.
  - intros w. subst W. rewrite elem_of_filter. tauto.
  - intros u v. rewrite Hadj. simpl. split.
    + intros [[]%elem_of_empty | (w & n & Hw%HW & Hn & HnW & Huv)].
      rewrite Hiter, elem_of_elements in Hn.
      assert (Hwn : w ∈ W ∧ n ∈ W) by done.
      destruct Huv as [[= -> ->] | [= -> ->]].
      * split; [apply Hwn |]. split; [apply Hwn | by left].
      * split; [apply Hwn |]. split; [apply Hwn | by right].
    + intros (Hu & Hv & [Hn | Hn]); right.
      * exists u, v. rewrite HW, Hiter, elem_of_elements.
        do 3 (split; [done |]). by left.
      * exists v, u. rewrite HW, Hiter, elem_of_elements.
        do 3 (split; [done |]). by right.
Qed.

Lemma build_graph_edges_witness :
  nx.has_edge (build_graph elements demo 3) (str "cat") (str "cot")
  ∧ nx.has_edge (build_graph elements demo 3) (str "cot") (str "cat").
Proof.
  destruct (build_graph_edges elements demo 3) as [Hnodes Hedges].
  - intros X. reflexivity.
  - assert (Hc : str "cat" ∈ nx.nodes (build_graph elements demo 3)).
    { apply Hnodes. split; [| reflexivity].
      apply (bool_decide_unpack (str "cat" ∈ word_set demo)). vm_compute. exact I. }
    assert (Ho : str "cot" ∈ nx.nodes (build_graph elements demo 3)).
    { apply Hnodes. split; [| reflexivity].
      apply (bool_decide_unpack (str "cot" ∈ word_set demo)). vm_compute. exact I. }
    assert (Hn : str "cot" ∈ get_neighbors demo (str "cat")).
    { apply (bool_decide_unpack (str "cot" ∈ get_neighbors demo (str "cat"))).
      vm_compute. exact I. }
    split; apply Hedges; (split; [done |]; split; [done |]); [by left | by right].
Defined.

(** ** A search from a word to itself *)

Lemma a_star_search_same_word (set_iter : gset word → list word) self (w : word) :
  is_valid_word self w = true →
  a_star_search set_iter self w w = Some (Some [w]).
Proof.
  intros Hv. unfold a_star_search. rewrite Hv.
  change (negb (true && true)) with false. cbv iota.
  assert (∃ f, search_fuel self w = S f) as [f ->].
  { unfold search_fuel.
    exists (2 * (size (word_set self) * 2 ^ length w)
            * (size (word_set self) * 2 ^ length w) + 1)%nat. lia. }
  cbn [a_star_loop heappop least remove_first].
  rewrite decide_True by done. by rewrite bool_decide_eq_true_2.
Qed.

(** X18 — [start_game] with the same word as start and target: for
    advanced and challenge it returns false; for beginner, whose range
    check only bounds the path length from above, it returns true when the
    word is in the corpus, and the game it opens is over at once. *)
Theorem start_game_same_word (set_iter : gset word → list word)
    (self : WordLadderGame) (w : word) (now : float) (r : rng) :
  (∀ d, d ≠ beginner →
     ∃ s r', start_game set_iter self w w d now r = Ok (false, s, r'))
  ∧ (lower w ∈ word_set self →
     ∃ s, start_game set_iter self w w beginner now r = Ok (true, s, r)
       ∧ path_history s = [lower w]
       ∧ ∀ now', is_game_over s now' = inr true).
Proof.
  split.
  - intros d Hd. unfold start_game.
    destruct (setup_difficulty set_iter self d r) as [s1 r1].
    rewrite bool_decide_eq_false_2 by (intros H; by apply H).
    destruct (is_valid_word s1 (lower w)) eqn:Hv; [| by eexists _, _].
    simpl. rewrite a_star_search_same_word by done.
    destruct d; [done | by eexists _, _ | by eexists _, _].
  - intros Hin. unfold start_game, setup_difficulty. simpl.
    rewrite bool_decide_eq_false_2 by (intros H; by apply H).
    assert (Hv : ∀ s, word_set s = word_set self → banned_words s = ∅ →
              is_valid_word s (lower w) = true).
    { intros s Hws Hb. rewrite is_valid_word_lower, Hws, Hb.
      rewrite bool_decide_eq_true_2 by done.
      by rewrite bool_decide_eq_true_2 by apply not_elem_of_empty. }
    rewrite Hv by done. simpl. rewrite a_star_search_same_word by (by apply Hv).
    simpl. eexists. split; [reflexivity |]. split; [done |].
    intros now'. unfold is_game_over. simpl. by rewrite bool_decide_eq_true_2.
Qed.

Lemma start_game_same_word_witness :
  ∃ s, start_game elements demo (str "cat") (str "cat") beginner 0%float []
       = Ok (true, s, [])
    ∧ path_history s = [str "cat"]
    ∧ ∀ now', is_game_over s now' = inr true.
Proof.
  destruct (start_game_same_word elements demo (str "cat") 0%float []) as [_ H].
  apply H.
  apply (bool_decide_unpack (lower (str "cat") ∈ word_set demo)).
  vm_compute. exact I.
Defined.

(** ** Scoring during play *)

Section scoring.
Context (set_iter : gset word → list word).
Hypothesis set_iter_ok : ∀ X, set_iter X ≡ₚ elements X.

Lemma played_history self :
  played set_iter self →
  ∃ first rest t0,
    path_history self = first :: rest ∧ start_time self = Some t0
    ∧ is_valid_word self first = true
    ∧ ∃ q, ladder self first (target_word self) q.
Proof.
  induction 1 as [self0 sw tw d now r self r' Hstart
                 | self w now b self' Hp IH Hmove
                 | self alg hint self' Hp IH Hhint
                 | self now v self' Hp IH Hscore].
  - pose proof (start_game_true _ _ _ _ _ _ _ _ _ Hstart)
      as (_ & -> & -> & -> & _ & Hv & _).
    apply start_game_true_search in Hstart as (_ & (path & Hs & _) & _).
    exists (lower sw), [], now. do 3 (split; [done |]).
    exists path. by apply (a_star_search_ladder set_iter).
  - destruct IH as (first & rest & t0 & Hph & Hst & Hv & q & Hq).
    destruct b.
    2: { apply make_move_false in Hmove as ->. by exists first, rest, t0; eauto. }
    pose proof (make_move_profile _ _ _ _ _ _ Hmove)
      as ((Hws & Hb & Ht & _ & _ & Hst') & _).
    apply make_move_true in Hmove as (_ & _ & _ & _ & Hp' & _).
    exists first, (rest ++ [lower w]), t0.
    rewrite Hp', Hph, Hst', Ht. do 2 (split; [done |]).
    split; [by rewrite (is_valid_word_same self' self Hws Hb) |].
    exists q. by apply (ladder_same self self').
  - destruct IH as (first & rest & t0 & Hph & Hst & Hv & q & Hq).
    apply get_hint_profile in Hhint as ((Hws & Hb & Ht & _ & _ & Hst') & _ & Hp').
    exists first, rest, t0. rewrite Hp', Hst', Ht. do 2 (split; [done |]).
    split; [by rewrite (is_valid_word_same self' self Hws Hb) |].
    exists q. by apply (ladder_same self self').
  - destruct IH as (first & rest & t0 & Hph & Hst & Hv & q & Hq).
    apply calculate_score_Ok in Hscore as [-> _].
    exists first, rest, t0. do 3 (split; [done |]). exists q.
    by apply (ladder_same self (set_score self v)).
Qed.
End scoring.

Lemma py_int_errors (x : float) :
  (∃ z, py_int x = inr z) ∨ py_int x = inl OverflowError ∨ py_int x = inl ValueError.
Proof. unfold py_int. destruct (Prim2SF x); eauto. Qed.

Lemma add_time_component_errors (s b tf : Z) (tl : pynum) (t : float) :
  tl ≠ PInt 0 →
  match add_time_component s b tf tl t with
  | inr _ => True
  | inl e => e = OverflowError ∨ e = ValueError
  end.
Proof.
  intros Htl.
  assert (Hint : ∀ x, match py_int x with
                      | inr _ => True
                      | inl e => e = OverflowError ∨ e = ValueError
                      end).
  { intros x. destruct (py_int_errors x) as [[z ->] | [-> | ->]]; auto. }
  unfold add_time_component. destruct tl as [limit |].
  - assert (Hconv : match int_to_float limit with
                    | inr _ => True
                    | inl e => e = OverflowError ∨ e = ValueError
                    end).
    { unfold int_to_float. destruct (Prim2SF _); auto. }
    destruct (int_to_float limit) as [e | limit_float]; [done |].
    destruct (Z.eqb_spec limit 0) as [-> | _]; [done |].
    destruct (_ <? _)%float.
    + match goal with |- context [py_int ?x] => pose proof (Hint x) end.
      by destruct (py_int _).
    + destruct (_ <? _)%float; [| done].
      match goal with |- context [py_int ?x] => pose proof (Hint x) end.
      by destruct (py_int _).
  - pose proof (Hint (t * Z_to_float tf)%float) as H1.
    destruct (py_int (t * Z_to_float tf)%float); [done |].
    match goal with |- context [py_int ?x] => pose proof (Hint x) end.
    by destruct (py_int _).
Qed.

(** X19 — in every state of play [calculate_score] returns a score, which
    is at least 0 and is stored in the session, unless the time component
    cannot be converted to an integer: the only exceptions it can raise
    are the [OverflowError] and [ValueError] of [int()] on an infinite or
    NaN float, and the session is then left as it was. *)
Theorem played_score_returns (set_iter : gset word → list word)
    (self : WordLadderGame) (now : float) :
  (∀ X, set_iter X ≡ₚ elements X) →
  played set_iter self →
  (∃ v, calculate_score set_iter self now = Ok (v, set_score self v) ∧ 0 ≤ v)
  ∨ calculate_score set_iter self now = Raise OverflowError self
  ∨ calculate_score set_iter self now = Raise ValueError self.
Proof.
  intros Hiter Hplayed.
  destruct (played_history set_iter Hiter self Hplayed)
    as (first & rest & t0 & Hph & Hst & Hv & q & Hq).
  destruct (played_budget set_iter self Hplayed) as (_ & _ & Htl).
  unfold calculate_score. rewrite Hst, Hph.
  destruct (a_star_search_correct set_iter Hiter self first (target_word self)
              Hv (ladder_valid_end _ _ _ _ Hv Hq)) as (res & -> & Hpost).
  destruct res as [p |]; [| by destruct (Hpost q)].
  destruct (add_path_bonus_defined (difficulty self)
              (Settings.base_score (DIFFICULTY_SETTINGS (difficulty self)))
              (0 `max` (edges (first :: rest) - edges p))) as [s1 ->]; [lia |].
  pose proof (add_time_component_errors s1
                (Settings.base_score (DIFFICULTY_SETTINGS (difficulty self)))
                (Settings.time_factor (DIFFICULTY_SETTINGS (difficulty self)))
                (time_limit self) (now - t0)%float) as Ht.
  destruct (add_time_component _ _ _ _ _) as [e | s2].
  - destruct Ht as [-> | ->]; auto. rewrite Htl. by destruct (difficulty self).
  - left. eexists. split; [reflexivity | lia].
Qed.

Lemma played_score_returns_witness :
  (∃ v, calculate_score elements demo_session 5%float
        = Ok (v, set_score demo_session v) ∧ 0 ≤ v)
  ∨ calculate_score elements demo_session 5%float
    = Raise OverflowError demo_session
  ∨ calculate_score elements demo_session 5%float
    = Raise ValueError demo_session.
Proof.
  apply (played_score_returns elements demo_session 5%float).
  - intros X. reflexivity.
  - exact demo_session_played.
Defined.

(** ** The shape of the paths that the searches return *)

Lemma ladder_valid_all self (a b : word) (q : list word) :
  is_valid_word self a = true → ladder self a b q →
  ∀ x, x ∈ q → is_valid_word self x = true.
Proof.
  intros Ha (Hh & _ & Hc) x Hx. apply list_elem_of_lookup in Hx as [i Hi].
  destruct i as [| i].
  - rewrite head_lookup in Hh. congruence.
  - destruct (lookup_lt_is_Some_2 q i) as [y Hy]; [apply lookup_lt_Some in Hi; lia |].
    eapply get_neighbors_valid. by eapply chain_lookup.
Qed.

Lemma ladder_one_letter_steps self (a b : word) (q : list word) :
  ladder self a b q → one_letter_steps q.
Proof.
  intros (_ & _ & Hc) i x y Hx Hy.
  pose proof (chain_lookup _ _ _ _ _ Hc Hx Hy) as Hn.
  split; [symmetry; by eapply get_neighbors_length |].
  rewrite letters_changed_sym.
  apply elem_of_get_neighbors in Hn as (j & c & Hj & _ & -> & Hne & _).
  by apply letters_changed_substitute.
Qed.

(** X20 — a path returned by any of the three searches starts with the
    start word and ends with the target, repeats no word, holds only words
    that [is_valid_word] accepts (in the corpus and not banned), all of the
    length of the start word, and each step changes exactly one letter. *)
Theorem search_paths_wellformed (set_iter : gset word → list word)
    (self : WordLadderGame) (start target : word) (p : list word) :
  (∀ X, set_iter X ≡ₚ elements X) →
  a_star_search set_iter self start target = Some (Some p)
  ∨ greedy_best_first_search set_iter self start target = Some (Some p)
  ∨ uniform_cost_search set_iter self start target = Some (Some p) →
  head p = Some start ∧ last p = Some target ∧ NoDup p
  ∧ one_letter_steps p
  ∧ ∀ w, w ∈ p → is_valid_word self w = true ∧ length w = length start.
Proof.
  intros Hiter Hs.
  assert (Hv : is_valid_word self start = true ∧ ladder self start target p
               ∧ NoDup p).
  { destruct Hs as [Hs | [Hs | Hs]].
    - pose proof (a_star_search_valid _ _ _ _ _ Hs) as [Hv _].
      split; [done |]. split; [by apply (a_star_search_ladder set_iter) |].
      by eapply a_star_search_NoDup.
    - pose proof (greedy_best_first_search_ladder _ Hiter _ _ _ _ Hs)
        as (Hv & Hvt & Hl).
      split; [done |]. split; [done |].
      destruct (greedy_best_first_search_correct set_iter Hiter self start target
                  Hv Hvt) as (res & Hr & Hpost).
      rewrite Hs in Hr. injection Hr as <-. by destruct Hpost.
    - pose proof (uniform_cost_search_ladder _ Hiter _ _ _ _ Hs) as (Hv & _ & Hl & _).
      split; [done |]. split; [done |]. by eapply uniform_cost_search_NoDup. }
  destruct Hv as (Hv & Hl & Hnd).
  pose proof Hl as (Hh & Hla & _). do 3 (split; [done |]).
  split; [by eapply ladder_one_letter_steps |].
  intros w Hw. split; [by eapply ladder_valid_all | by eapply ladder_length].
Qed.

Lemma search_paths_wellformed_witness :
  ∃ p, greedy_best_first_search elements demo (str "cat") (str "dog")
       = Some (Some p)
    ∧ head p = Some (str "cat") ∧ last p = Some (str "dog")
    ∧ NoDup p ∧ one_letter_steps p.
Proof.
  destruct (greedy_best_first_search elements demo (str "cat") (str "dog"))
    as [[p |] |] eqn:Hs; [| vm_compute in Hs; discriminate..].
  exists p. split; [reflexivity |].
  destruct (search_paths_wellformed elements demo (str "cat") (str "dog") p)
    as (Hh & Hl & Hnd & Hsteps & _).
  - intros X. reflexivity.
  - right. left. exact Hs.
  - split; [exact Hh |]. split; [exact Hl |]. split; [exact Hnd | exact Hsteps].
Defined.

(** ** Before the first game *)

(** X21 — on a game object on which no game has been started, whatever
    the corpus: [make_move] rejects every word, [get_hint] returns [None]
    without charging a hint, [is_game_over] is true (current word and
    target are both the empty string), [get_time_remaining] is infinite, and
    [calculate_score] raises [TypeError], the start time being [None]. *)
Theorem before_first_game (set_iter : gset word → list word)
    (corpus : gset word) :
  (∀ w now, make_move set_iter (init corpus) w now = Ok (false, init corpus))
  ∧ (∀ algorithm,
       get_hint set_iter (init corpus) algorithm = Ok (None, init corpus))
  ∧ (∀ now, is_game_over (init corpus) now = inr true
            ∧ get_time_remaining (init corpus) now = inr (VFloat infinity))
  ∧ (∀ now, calculate_score set_iter (init corpus) now
            = Raise TypeError (init corpus)).
Proof.
  split; [| split; [| split]].
  - intros w now. unfold make_move.
    destruct (is_valid_word (init corpus) (lower w)); [| done]. simpl.
    destruct (lower w) as [| c l]; [| done]. done.
  - intros algorithm. apply get_hint_no_hint. by left.
  - done.
  - done.
Qed.
